(** * SELCIE: the chameleon field solver (Main/SolverChameleon.py)

    A shallow embedding of the class [FieldSolver]: its constructor, the
    Picard and Newton iterations, the derived-field operations, the ray
    prober and the fifth-force (extremum) locator.

    Modelling conventions.
    - Python floats are idealised as real numbers ([R]); float [pow] on a
      positive base is [Rpower].  Where Python leaves the real numbers (a
      negative base raised to a fractional power is a complex number) the
      model gives no outcome ([OutOfFuel]).
    - dolfin (FEniCS) is an external library: it is the interface [Dolfin]
      below.  Coefficient vectors are lists of reals; matrices, assembly,
      interpolation, the Krylov solver, point evaluation and the mesh
      queries are operations of the interface.
    - A method of the object is a function from the object ([self]) to a
      computation returning the updated object.  Computations thread a log
      of the calls made to dolfin and of the lines printed, and end in a
      value, a raised exception, or run out of fuel (loops whose
      termination is not structural take a fuel argument). *)

From Stdlib Require Import Reals Lra Lia ZArith List String Bool.
Import ListNotations.
Open Scope R_scope.

(** ** Outcomes, log and the computation monad *)

Inductive exn : Type :=
| SystemExit                      (* sys.exit() *)
| RuntimeError (msg : string)     (* raised inside dolfin *)
| AttributeError (name : string)  (* an attribute that was never set *)
| TypeError (msg : string)        (* an operation applied to None *)
| ZeroDivisionError               (* a zero divisor, or zero to a negative power *)
| Exception (msg : string).       (* raise Exception(msg) *)

Inductive res (A : Type) : Type :=
| Ok (a : A)
| Raise (e : exn)
| OutOfFuel.
Arguments Ok {A} a.
Arguments Raise {A} e.
Arguments OutOfFuel {A}.

Inductive event : Type :=
| EvPrint (line : string)                 (* print(...) *)
| EvIter (i : Z) (du_norm : R)            (* print('iter=%d: du_norm=%g') *)
| EvFunctionSpace                         (* d.FunctionSpace / VectorFunctionSpace *)
| EvInterpolate                           (* d.interpolate *)
| EvAssemble                              (* d.assemble *)
| EvSolve (solver_method preconditioner : string)   (* solver.solve *)
| EvEval (x : list R)                     (* function(x) *)
| EvSubMesh (subdomain : Z).              (* d.SubMesh + BoundaryMesh + bbtree *)

Definition log := list event.

Definition M (A : Type) : Type := log -> res A * log.

Definition ret {A} (a : A) : M A := fun tr => (Ok a, tr).

Definition bind {A B} (c : M A) (k : A -> M B) : M B :=
  fun tr =>
    match c tr with
    | (Ok a, tr') => k a tr'
    | (Raise e, tr') => (Raise e, tr')
    | (OutOfFuel, tr') => (OutOfFuel, tr')
    end.

Definition raise {A} (e : exn) : M A := fun tr => (Raise e, tr).
Definition out_of_fuel {A} : M A := fun tr => (OutOfFuel, tr).
Definition emit (e : event) : M unit := fun tr => (Ok tt, tr ++ [e]).

Declare Scope comp_scope.
Delimit Scope comp_scope with comp.
Notation "x <- c ;; k" := (bind c (fun x => k))
  (at level 61, c at next level, right associativity) : comp_scope.
Notation "c ;;; k" := (bind c (fun _ => k))
  (at level 61, right associativity) : comp_scope.
Open Scope comp_scope.

(** Number of linear solves recorded in a log. *)
Definition is_solve (e : event) : bool :=
  match e with EvSolve _ _ => true | _ => false end.
Definition solves (tr : log) : nat := List.length (filter is_solve tr).

(** Points at which a function was evaluated, in order. *)
Fixpoint evals (tr : log) : list (list R) :=
  match tr with
  | [] => []
  | EvEval x :: tr' => x :: evals tr'
  | _ :: tr' => evals tr'
  end.

(** Iteration lines printed by the Picard / Newton loops. *)
Definition is_iter (e : event) : bool :=
  match e with EvIter _ _ => true | _ => false end.
Definition iterations (tr : log) : nat := List.length (filter is_iter tr).

(** ** Coefficient vectors *)

Definition Vec := list R.

Fixpoint map2 (f : R -> R -> R) (x y : Vec) : Vec :=
  match x, y with
  | a :: x', b :: y' => f a b :: map2 f x' y'
  | _, _ => []
  end.

Definition vadd : Vec -> Vec -> Vec := map2 Rplus.
Definition vsub : Vec -> Vec -> Vec := map2 Rminus.
Definition vscale (a : R) (x : Vec) : Vec := map (Rmult a) x.

(** [d.norm(x, 'linf')] *)
Definition norm_linf (x : Vec) : R := fold_right (fun a m => Rmax (Rabs a) m) 0 x.

(** [x.max()] (of a non-empty vector) *)
Fixpoint vec_max (x : Vec) : R :=
  match x with
  | [] => 0
  | [a] => a
  | a :: x' => Rmax a (vec_max x')
  end.

(** [np.linalg.norm(v)] *)
Definition sum_sq (v : list R) : R := fold_right (fun a s => a * a + s) 0 v.
Definition linalg_norm (v : list R) : R := sqrt (sum_sq v).

(** ** The dolfin interface *)

Inductive weight : Type :=
| AbsX0          (* d.Expression('abs(x[0])', degree=0) *)
| AbsX1          (* d.Expression('abs(x[1])', degree=0) *)
| ConstantOne.   (* d.Constant(1) *)

Inductive expr (D : Type) : Type :=
| Constant (c : R)        (* d.Constant(c) *)
| Density (p : D).        (* the density profile used as an expression *)
Arguments Constant {D} c.
Arguments Density {D} p.

(** The linear forms (right-hand sides) the solver hands to [d.assemble]. *)
Inductive linear_form (D : Type) : Type :=
| L_density (p : D) (w : weight)
    (* p*v*w*dx *)
| L_picard (n : Z) (phi : Vec) (w : weight)
    (* (n + 2)*pow(phi, -n - 1)*v*w*dx *)
| L_newton (alpha : R) (n : Z) (phi : Vec) (w : weight)
    (* -alpha*dot(grad(phi), grad(v))*w*dx + pow(phi, -n - 1)*v*w*dx *)
| L_grad (phi : Vec) (w : weight)
    (* inner(grad(phi), v_vector)*w*dx *)
| L_grad_mag (phi : Vec) (w : weight)
    (* sqrt(inner(grad(phi), grad(phi)))*v*w*dx *)
| L_residual (alpha : R) (n : Z) (grad_phi phi : Vec) (p : D) (w : weight)
    (* alpha*div(grad_phi)*v*w*dx + pow(phi, -n-1)*v*w*dx - p*v*w*dx *)
| L_laplacian (grad_phi : Vec) (w : weight)
    (* div(grad_phi)*v*w*dx *)
| L_potential (n : Z) (phi : Vec) (w : weight).
    (* pow(phi, -n-1)*v*w*dx *)
Arguments L_density {D}.
Arguments L_picard {D}.
Arguments L_newton {D}.
Arguments L_grad {D}.
Arguments L_grad_mag {D}.
Arguments L_residual {D}.
Arguments L_laplacian {D}.
Arguments L_potential {D}.

(** The bilinear forms (matrices). *)
Inductive bilinear_form : Type :=
| B_mass (w : weight)
    (* u*v*w*dx *)
| B_stiffness (w : weight)
    (* dot(grad(u), grad(v))*w*dx *)
| B_potential (n : Z) (phi : Vec) (w : weight)
    (* (n + 1)*pow(phi, -n - 2)*u*v*w*dx *)
| B_vector_mass (w : weight).
    (* inner(u_vector, v_vector)*w*dx *)

(** [d.Point]: three coordinates, read with [.x()], [.y()], [.z()]. *)
Module Point.
Record t : Type := mk { x : R; y : R; z : R }.
Definition array (q : t) : list R := [x q; y q; z q].
End Point.

(** Parameters of a [d.KrylovSolver]. *)
Record krylov_parameters : Type := mkPrm {
  absolute_tolerance : R;
  relative_tolerance : R;
  maximum_iterations : Z
}.

Class Dolfin : Type := {
  (* the density profile object: mesh, subdomains and symmetry tag *)
  DensityProfile : Type;
  symmetry : DensityProfile -> string;
  (* density_profile.mesh.topology().dim() *)
  topology_dim : DensityProfile -> Z;
  Matrix : Type;
  mat_add : Matrix -> Matrix -> Matrix;
  mat_scale : R -> Matrix -> Matrix;
  interpolate : expr DensityProfile -> Vec;
  assemble : linear_form DensityProfile -> Vec;
  assemble_matrix : bilinear_form -> Matrix;
  (* solver.solve(K, x, b): the solution, or None when dolfin raises *)
  krylov_solve : string -> string -> krylov_parameters ->
                 Matrix -> Vec -> option Vec;
  (* f(x): the value, or None when dolfin raises (point outside the mesh) *)
  eval_at : Vec -> list R -> option R;
  (* d.vertices(d.SubMesh(mesh, subdomains, subdomain)): None when the
     construction of the sub-mesh, its boundary mesh or the tree raises *)
  submesh_vertices : Z -> option (list Point.t);
  (* bbtree.compute_closest_entity(point)[1] on the boundary of the sub-mesh *)
  closest_distance : Z -> Point.t -> R
}.

(** ** The solver object *)

Section Solver.
Context {dolfin : Dolfin}.

(** The attributes of a [FieldSolver] once [__init__] has returned.  The
    function spaces and the test and trial functions are fixed by the mesh
    and are part of the [Dolfin] instance. *)
Record FieldSolver : Type := mkFieldSolver {
  alpha : R;
  n : Z;
  p : DensityProfile;
  deg_V : Z;
  mesh_dimension : Z;
  mesh_symmetry : string;
  sym_factor : weight;
  density_projection : Vec;
  density_max : R;
  field_min : R;
  field : option Vec;
  field_grad_mag : option Vec;
  residual : option Vec;
  laplacian : option Vec;
  potential_derivative : option Vec;
  field_grad : option Vec;
  p_field : option Vec;
  P : Vec;
  A : Matrix;
  relaxation_parameter : R;
  tol_du : R;
  tol_rel_du : R;
  maxiter : Z
}.

(** Attribute assignment, [self.a = v]. *)
Definition set_field (v : option Vec) (self : FieldSolver) : FieldSolver :=
  mkFieldSolver (alpha self) (n self) (p self) (deg_V self)
    (mesh_dimension self) (mesh_symmetry self) (sym_factor self)
    (density_projection self) (density_max self) (field_min self) v
    (field_grad_mag self) (residual self) (laplacian self)
    (potential_derivative self) (field_grad self) (p_field self) (P self)
    (A self) (relaxation_parameter self) (tol_du self) (tol_rel_du self)
    (maxiter self).
Definition set_field_grad_mag (v : option Vec)
    (self : FieldSolver) : FieldSolver :=
  mkFieldSolver (alpha self) (n self) (p self) (deg_V self)
    (mesh_dimension self) (mesh_symmetry self) (sym_factor self)
    (density_projection self) (density_max self) (field_min self)
    (field self) v (residual self) (laplacian self)
    (potential_derivative self) (field_grad self) (p_field self) (P self)
    (A self) (relaxation_parameter self) (tol_du self) (tol_rel_du self)
    (maxiter self).
Definition set_residual (v : option Vec) (self : FieldSolver) : FieldSolver :=
  mkFieldSolver (alpha self) (n self) (p self) (deg_V self)
    (mesh_dimension self) (mesh_symmetry self) (sym_factor self)
    (density_projection self) (density_max self) (field_min self)
    (field self) (field_grad_mag self) v (laplacian self)
    (potential_derivative self) (field_grad self) (p_field self) (P self)
    (A self) (relaxation_parameter self) (tol_du self) (tol_rel_du self)
    (maxiter self).
Definition set_laplacian (v : option Vec)
    (self : FieldSolver) : FieldSolver :=
  mkFieldSolver (alpha self) (n self) (p self) (deg_V self)
    (mesh_dimension self) (mesh_symmetry self) (sym_factor self)
    (density_projection self) (density_max self) (field_min self)
    (field self) (field_grad_mag self) (residual self) v
    (potential_derivative self) (field_grad self) (p_field self) (P self)
    (A self) (relaxation_parameter self) (tol_du self) (tol_rel_du self)
    (maxiter self).
Definition set_potential_derivative (v : option Vec)
    (self : FieldSolver) : FieldSolver :=
  mkFieldSolver (alpha self) (n self) (p self) (deg_V self)
    (mesh_dimension self) (mesh_symmetry self) (sym_factor self)
    (density_projection self) (density_max self) (field_min self)
    (field self) (field_grad_mag self) (residual self) (laplacian self) v
    (field_grad self) (p_field self) (P self) (A self)
    (relaxation_parameter self) (tol_du self) (tol_rel_du self)
    (maxiter self).
Definition set_field_grad (v : option Vec)
    (self : FieldSolver) : FieldSolver :=
  mkFieldSolver (alpha self) (n self) (p self) (deg_V self)
    (mesh_dimension self) (mesh_symmetry self) (sym_factor self)
    (density_projection self) (density_max self) (field_min self)
    (field self) (field_grad_mag self) (residual self) (laplacian self)
    (potential_derivative self) v (p_field self) (P self) (A self)
    (relaxation_parameter self) (tol_du self) (tol_rel_du self)
    (maxiter self).
Definition set_p_field (v : option Vec) (self : FieldSolver) : FieldSolver :=
  mkFieldSolver (alpha self) (n self) (p self) (deg_V self)
    (mesh_dimension self) (mesh_symmetry self) (sym_factor self)
    (density_projection self) (density_max self) (field_min self)
    (field self) (field_grad_mag self) (residual self) (laplacian self)
    (potential_derivative self) (field_grad self) v (P self) (A self)
    (relaxation_parameter self) (tol_du self) (tol_rel_du self)
    (maxiter self).
Definition set_relaxation_parameter (v : R)
    (self : FieldSolver) : FieldSolver :=
  mkFieldSolver (alpha self) (n self) (p self) (deg_V self)
    (mesh_dimension self) (mesh_symmetry self) (sym_factor self)
    (density_projection self) (density_max self) (field_min self)
    (field self) (field_grad_mag self) (residual self) (laplacian self)
    (potential_derivative self) (field_grad self) (p_field self) (P self)
    (A self) v (tol_du self) (tol_rel_du self) (maxiter self).
Definition set_tol_du (v : R) (self : FieldSolver) : FieldSolver :=
  mkFieldSolver (alpha self) (n self) (p self) (deg_V self)
    (mesh_dimension self) (mesh_symmetry self) (sym_factor self)
    (density_projection self) (density_max self) (field_min self)
    (field self) (field_grad_mag self) (residual self) (laplacian self)
    (potential_derivative self) (field_grad self) (p_field self) (P self)
    (A self) (relaxation_parameter self) v (tol_rel_du self) (maxiter self).
Definition set_tol_rel_du (v : R) (self : FieldSolver) : FieldSolver :=
  mkFieldSolver (alpha self) (n self) (p self) (deg_V self)
    (mesh_dimension self) (mesh_symmetry self) (sym_factor self)
    (density_projection self) (density_max self) (field_min self)
    (field self) (field_grad_mag self) (residual self) (laplacian self)
    (potential_derivative self) (field_grad self) (p_field self) (P self)
    (A self) (relaxation_parameter self) (tol_du self) v (maxiter self).
Definition set_maxiter (v : Z) (self : FieldSolver) : FieldSolver :=
  mkFieldSolver (alpha self) (n self) (p self) (deg_V self)
    (mesh_dimension self) (mesh_symmetry self) (sym_factor self)
    (density_projection self) (density_max self) (field_min self)
    (field self) (field_grad_mag self) (residual self) (laplacian self)
    (potential_derivative self) (field_grad self) (p_field self) (P self)
    (A self) (relaxation_parameter self) (tol_du self) (tol_rel_du self) v.

(** ** Calls into dolfin *)

Definition function_space : M unit := emit EvFunctionSpace.

Definition interpolate_ (e : expr DensityProfile) : M Vec :=
  emit EvInterpolate ;;; ret (interpolate e).

Definition assemble_ (f : linear_form DensityProfile) : M Vec :=
  emit EvAssemble ;;; ret (assemble f).

Definition assemble_matrix_ (f : bilinear_form) : M Matrix :=
  emit EvAssemble ;;; ret (assemble_matrix f).

(** [solver.solve(K, x.vector(), b)] for
    [solver = d.KrylovSolver(solver_method, preconditioner)]; the text of
    dolfin's error is not modelled. *)
Definition solve (solver_method preconditioner : string)
    (prm : krylov_parameters) (K : Matrix) (b : Vec) : M Vec :=
  emit (EvSolve solver_method preconditioner) ;;;
  match krylov_solve solver_method preconditioner prm K b with
  | Some u => ret u
  | None => raise (RuntimeError "Unable to solve linear system")
  end.

(** [function(x)] *)
Definition call (function : Vec) (x : list R) : M R :=
  emit (EvEval x) ;;;
  match eval_at function x with
  | Some v => ret v
  | None => raise (RuntimeError "Unable to evaluate function at point")
  end.

Definition print (line : string) : M unit := emit (EvPrint line).

(** [prm = solver.parameters] as set at the head of every solving method. *)
Definition solver_parameters (self : FieldSolver) : krylov_parameters :=
  mkPrm (tol_du self) (tol_rel_du self) (maxiter self).

(** Reading an attribute that must hold a function. *)
Definition the_field (self : FieldSolver) : M Vec :=
  match field self with
  | Some phi => ret phi
  | None => raise (TypeError "unsupported operand: NoneType")
  end.

Definition the_field_grad (self : FieldSolver) : M Vec :=
  match field_grad self with
  | Some g => ret g
  | None => raise (TypeError "unsupported operand: NoneType")
  end.

(** ** Python arithmetic that can fail *)

(** [a / b] on Python numbers. *)
Definition div_ (a b : R) : M R :=
  if Req_dec_T b 0 then raise ZeroDivisionError else ret (a / b).

(** [pow(x, y)] on Python floats.  Zero to a negative power raises
    ZeroDivisionError.  A negative base has a float power only for an
    integer-valued exponent; for the other exponents Python returns a
    complex number, and the model gives no outcome. *)
Definition pow_ (x y : R) : M R :=
  if Rlt_dec 0 x then ret (Rpower x y)
  else if Req_dec_T x 0 then
    if Rlt_dec y 0 then raise ZeroDivisionError
    else if Req_dec_T y 0 then ret 1
    else ret 0
  else if Req_dec_T (frac_part y) 0 then ret (powerRZ x (Int_part y))
  else out_of_fuel.

(** ** [FieldSolver.__init__] *)

Definition __init__ (alpha : R) (n : Z) (density_profile : DensityProfile)
    (deg_V : Z) : M FieldSolver :=
  let mesh_dimension := topology_dim density_profile in
  let mesh_symmetry := symmetry density_profile in
  sym_factor <-
    (if (mesh_dimension =? 2)%Z then
       if (mesh_symmetry =? "vertical axis-symmetry")%string then
         ret (Some AbsX0)
       else if (mesh_symmetry =? "horizontal axis-symmetry")%string then
         ret (Some AbsX1)
       else if (mesh_symmetry =? "cylinder slice")%string then
         ret (Some ConstantOne)
       else
         print "Inputted mesh symmetry not recognised." ;;;
         print "Terminated code prematurely." ;;;
         raise SystemExit
     else if (mesh_dimension =? 3)%Z then
       ret (Some ConstantOne)
     else ret None) ;;
  (* function spaces, trial and test functions *)
  function_space ;;;
  function_space ;;;
  (* maximum density and minimum field values *)
  density_projection <- interpolate_ (Density density_profile) ;;
  let density_max := vec_max density_projection in
  exponent <- div_ (-1) (IZR (n + 1)) ;;
  field_min <- pow_ density_max exponent ;;
  (* assemble matrices *)
  match sym_factor with
  | None => raise (AttributeError "sym_factor")
  | Some sym_factor =>
      P <- assemble_ (L_density density_profile sym_factor) ;;
      A <- assemble_matrix_ (B_mass sym_factor) ;;
      ret (mkFieldSolver alpha n density_profile deg_V
             mesh_dimension mesh_symmetry sym_factor
             density_projection density_max field_min
             None None None None None None None
             P A
             1 (1 / 10 ^ 14) (1 / 10 ^ 10) 1000)
  end.

(** ** [FieldSolver.picard] *)

(** The [while] loop of [picard]; [i] and [du_norm] are its local
    variables, [A0] the stiffness matrix assembled before it. *)
Fixpoint picard_loop (solver_method preconditioner : string)
    (prm : krylov_parameters) (A0 : Matrix) (fuel : nat)
    (i : Z) (du_norm : R) (self : FieldSolver) : M (Z * R * FieldSolver) :=
  if Rgt_dec du_norm (tol_du self) then
    if Z_lt_dec i (maxiter self) then
      match fuel with
      | O => out_of_fuel
      | S fuel =>
          let i := (i + 1)%Z in
          phi <- the_field self ;;
          A1 <- assemble_matrix_ (B_potential (n self) phi (sym_factor self)) ;;
          B <- assemble_ (L_picard (n self) phi (sym_factor self)) ;;
          u <- solve solver_method preconditioner prm
                 (mat_add (mat_scale (alpha self) A0) A1) (vsub B (P self)) ;;
          let du := vsub u phi in
          let self :=
            set_field (Some (vadd (vscale (relaxation_parameter self) u)
                                  (vscale (1 - relaxation_parameter self) phi)))
                      self in
          let du_norm := norm_linf du in
          emit (EvIter i du_norm) ;;;
          picard_loop solver_method preconditioner prm A0 fuel i du_norm self
      end
    else ret (i, du_norm, self)
  else ret (i, du_norm, self).

(** The method, up to and including the loop; besides the object it gives
    the final values of the local variables [i] and [du_norm].  The loop
    test [i < self.maxiter] bounds the number of rounds, so [maxiter]
    rounds of fuel are enough (lemma [picard_run_bounded]). *)
Definition picard_run (solver_method preconditioner : string)
    (self : FieldSolver) : M (Z * R * FieldSolver) :=
  let prm := solver_parameters self in
  A0 <- assemble_matrix_ (B_stiffness (sym_factor self)) ;;
  phi0 <- interpolate_ (Constant (field_min self)) ;;
  let self := set_field (Some phi0) self in
  picard_loop solver_method preconditioner prm A0
    (Z.to_nat (maxiter self)) 0%Z 1 self.

Definition picard (solver_method preconditioner : string)
    (self : FieldSolver) : M FieldSolver :=
  r <- picard_run solver_method preconditioner self ;;
  ret (snd r).

(** ** [FieldSolver.newton] *)

Fixpoint newton_loop (solver_method preconditioner : string)
    (prm : krylov_parameters) (A0 : Matrix) (fuel : nat)
    (i : Z) (du_norm : R) (self : FieldSolver) : M (Z * R * FieldSolver) :=
  if Rgt_dec du_norm (tol_du self) then
    if Z_lt_dec i (maxiter self) then
      match fuel with
      | O => out_of_fuel
      | S fuel =>
          let i := (i + 1)%Z in
          phi <- the_field self ;;
          A1 <- assemble_matrix_ (B_potential (n self) phi (sym_factor self)) ;;
          B <- assemble_ (L_newton (alpha self) (n self) phi (sym_factor self)) ;;
          du <- solve solver_method preconditioner prm
                  (mat_add (mat_scale (alpha self) A0) A1) (vsub B (P self)) ;;
          let self :=
            set_field (Some (vadd phi (vscale (relaxation_parameter self) du)))
                      self in
          let du_norm := norm_linf du in
          emit (EvIter i du_norm) ;;;
          newton_loop solver_method preconditioner prm A0 fuel i du_norm self
      end
    else ret (i, du_norm, self)
  else ret (i, du_norm, self).

Definition newton_run (solver_method preconditioner : string)
    (self : FieldSolver) : M (Z * R * FieldSolver) :=
  let prm := solver_parameters self in
  A0 <- assemble_matrix_ (B_stiffness (sym_factor self)) ;;
  phi0 <- interpolate_ (Constant (field_min self)) ;;
  let self := set_field (Some phi0) self in
  newton_loop solver_method preconditioner prm A0
    (Z.to_nat (maxiter self)) 0%Z 1 self.

Definition newton (solver_method preconditioner : string)
    (self : FieldSolver) : M FieldSolver :=
  r <- newton_run solver_method preconditioner self ;;
  ret (snd r).

(** ** Derived fields *)

(** [if self.field is None: self.picard()] *)
Definition ensure_field (self : FieldSolver) : M FieldSolver :=
  match field self with
  | None => picard "cg" "default" self
  | Some _ => ret self
  end.

(** Defaults: [solver_method="cg"], [preconditioner="jacobi"]. *)
Definition calc_field_grad_vector (solver_method preconditioner : string)
    (self : FieldSolver) : M FieldSolver :=
  self <- ensure_field self ;;
  let prm := solver_parameters self in
  phi <- the_field self ;;
  A <- assemble_matrix_ (B_vector_mass (sym_factor self)) ;;
  b <- assemble_ (L_grad phi (sym_factor self)) ;;
  g <- solve solver_method preconditioner prm A b ;;
  ret (set_field_grad (Some g) self).

(** Defaults: [solver_method="cg"], [preconditioner="jacobi"]. *)
Definition calc_field_grad_mag (solver_method preconditioner : string)
    (self : FieldSolver) : M FieldSolver :=
  self <- ensure_field self ;;
  let prm := solver_parameters self in
  phi <- the_field self ;;
  b <- assemble_ (L_grad_mag phi (sym_factor self)) ;;
  g <- solve solver_method preconditioner prm (A self) b ;;
  ret (set_field_grad_mag (Some g) self).

(** [if self.field_grad is None: self.calc_field_grad_vector()] *)
Definition ensure_field_grad (self : FieldSolver) : M FieldSolver :=
  match field_grad self with
  | None => calc_field_grad_vector "cg" "jacobi" self
  | Some _ => ret self
  end.

(** Defaults: [solver_method="richardson"], [preconditioner="icc"]. *)
Definition calc_field_residual (solver_method preconditioner : string)
    (self : FieldSolver) : M FieldSolver :=
  self <- ensure_field self ;;
  self <- ensure_field_grad self ;;
  let prm := solver_parameters self in
  g <- the_field_grad self ;;
  phi <- the_field self ;;
  b <- assemble_ (L_residual (alpha self) (n self) g phi (p self)
                    (sym_factor self)) ;;
  r <- solve solver_method preconditioner prm (A self) b ;;
  ret (set_residual (Some r) self).

(** Defaults: [solver_method="richardson"], [preconditioner="icc"]. *)
Definition calc_laplacian (solver_method preconditioner : string)
    (self : FieldSolver) : M FieldSolver :=
  self <- ensure_field_grad self ;;
  let prm := solver_parameters self in
  g <- the_field_grad self ;;
  b <- assemble_ (L_laplacian g (sym_factor self)) ;;
  l <- solve solver_method preconditioner prm (A self) b ;;
  ret (set_laplacian (Some l) self).

Definition calc_density_field (self : FieldSolver) : M FieldSolver :=
  rho <- interpolate_ (Density (p self)) ;;
  ret (set_p_field (Some rho) self).

(** Defaults: [solver_method="richardson"], [preconditioner="icc"]. *)
Definition calc_potential_derivative (solver_method preconditioner : string)
    (self : FieldSolver) : M FieldSolver :=
  self <- ensure_field self ;;
  let prm := solver_parameters self in
  phi <- the_field self ;;
  b <- assemble_ (L_potential (n self) phi (sym_factor self)) ;;
  d <- solve solver_method preconditioner prm (A self) b ;;
  ret (set_potential_derivative (Some d) self).

(** ** [FieldSolver.measure_fifth_force] *)

(** The [for v in d.vertices(measuring_mesh)] loop; the accumulators are
    [fifth_force_max] and [probe_point]. *)
Fixpoint scan_vertices (grad_mag : Vec) (subdomain : Z)
    (boundary_distance tol : R) (vertices : list Point.t)
    (fifth_force_max : R) (probe_point : option Point.t)
    : M (R * option Point.t) :=
  match vertices with
  | [] => ret (fifth_force_max, probe_point)
  | v :: vertices =>
      let distance := closest_distance subdomain v in
      if Rgt_dec distance (boundary_distance - tol / 2) then
        if Rlt_dec distance (boundary_distance + tol / 2) then
          ff <- call grad_mag (Point.array v) ;;
          if Rgt_dec ff fifth_force_max then
            scan_vertices grad_mag subdomain boundary_distance tol vertices
              ff (Some v)
          else
            scan_vertices grad_mag subdomain boundary_distance tol vertices
              fifth_force_max probe_point
        else
          scan_vertices grad_mag subdomain boundary_distance tol vertices
            fifth_force_max probe_point
      else
        scan_vertices grad_mag subdomain boundary_distance tol vertices
          fifth_force_max probe_point
  end.

Definition no_vertex_found : exn :=
  Exception "No vertex found. Try changing search parameters.".

(** [if self.field_grad_mag is None: self.calc_field_grad_mag()] *)
Definition ensure_field_grad_mag (self : FieldSolver) : M FieldSolver :=
  match field_grad_mag self with
  | None => calc_field_grad_mag "cg" "jacobi" self
  | Some _ => ret self
  end.

Definition measure_fifth_force (subdomain : Z) (boundary_distance tol : R)
    (self : FieldSolver) : M (R * (R * R * R) * FieldSolver) :=
  self <- ensure_field_grad_mag self ;;
  emit (EvSubMesh subdomain) ;;;
  match submesh_vertices subdomain with
  | None =>
      raise (Exception
               "Error has occured. Check Your subdomain index is correct.")
  | Some vertices =>
      match field_grad_mag self with
      | None => raise (TypeError "NoneType object is not callable")
      | Some grad_mag =>
          r <- scan_vertices grad_mag subdomain boundary_distance tol
                 vertices 0 None ;;
          match snd r with
          | None => raise no_vertex_found
          | Some probe_point =>
              ret (fst r,
                   (Point.x probe_point, Point.y probe_point,
                    Point.z probe_point),
                   self)
          end
      end
  end.

(** ** [FieldSolver.probe_function] *)

(** [gradient_vector*displacement + origin] on numpy arrays of equal
    length. *)
Definition path_point (gradient_vector origin : list R) (displacement : nat)
    : list R :=
  vadd (vscale (INR displacement) gradient_vector) origin.

(** The [while radius_distence < radial_limit] loop; [values] is kept in
    the order of the appends. *)
Fixpoint probe_loop (function : Vec) (gradient_vector origin : list R)
    (radial_limit : R) (fuel : nat)
    (radius_distence : R) (displacement : nat) (values : list R)
    (v : list R) : M (list R) :=
  if Rlt_dec radius_distence radial_limit then
    match fuel with
    | O => out_of_fuel
    | S fuel =>
        val <- call function v ;;
        let values := values ++ [val] in
        let displacement := S displacement in
        let v := path_point gradient_vector origin displacement in
        let radius_distence := linalg_norm v in
        probe_loop function gradient_vector origin radial_limit fuel
          radius_distence displacement values v
    end
  else ret values.

(** The result is [None] (Python's [None]) after the dimension message,
    or the array of sampled values.  Defaults: [origin=np.array([0, 0])],
    [radial_limit=1.0].  The numbers of the message are not formatted into
    the logged line. *)
Definition probe_function (fuel : nat) (function : Vec)
    (gradient_vector origin : list R) (radial_limit : R)
    (self : FieldSolver) : M (option (list R)) :=
  if negb (Z.of_nat (List.length gradient_vector) =? mesh_dimension self)%Z
     || negb (Z.of_nat (List.length origin) =? mesh_dimension self)%Z
  then
    print "Vectors given have the wrong dimesion." ;;;
    print "Mesh is %iD while 'gradient_vector' and 'origin' are dimension %i and %i, respectively." ;;;
    ret None
  else
    let radius_distence := 0 in
    let displacement := O in
    let values := [] in
    let v := path_point gradient_vector origin displacement in
    values <- probe_loop function gradient_vector origin radial_limit fuel
                radius_distence displacement values v ;;
    ret (Some values).

End Solver.

Arguments FieldSolver {dolfin}.

(** ** A one-degree-of-freedom backend

    The smallest instance of the interface: a mesh with a single degree
    of freedom, so that a function is one coefficient and a matrix one
    number.  Mass is 1, stiffness 0 and the gradient of every function
    vanishes.  The linear solver, the point evaluation and the mesh
    queries of the instance are left as parameters.  It is used to run the
    model on concrete inputs. *)

Module Toy.

Record profile : Type := mkProfile {
  dim : Z;            (* topological dimension of the mesh *)
  tag : string;       (* symmetry tag *)
  rho0 : R            (* the density, constant over the mesh *)
}.

Definition coef (phi : Vec) : R := hd 1 phi.

Definition toy_assemble (f : linear_form profile) : Vec :=
  match f with
  | L_density p _ => [rho0 p]
  | L_picard n phi _ => [IZR (n + 2) * Rpower (coef phi) (IZR (- n - 1))]
  | L_newton alpha n phi _ => [- alpha * 0 + Rpower (coef phi) (IZR (- n - 1))]
  | L_grad _ _ => [0]
  | L_grad_mag _ _ => [0]
  | L_residual alpha n _ phi p _ =>
      [alpha * 0 + Rpower (coef phi) (IZR (- n - 1)) - rho0 p]
  | L_laplacian _ _ => [0]
  | L_potential n phi _ => [Rpower (coef phi) (IZR (- n - 1))]
  end.

Definition toy_assemble_matrix (f : bilinear_form) : R :=
  match f with
  | B_mass _ => 1
  | B_stiffness _ => 0
  | B_potential n phi _ => IZR (n + 1) * Rpower (coef phi) (IZR (- n - 2))
  | B_vector_mass _ => 1
  end.

Definition toy_interpolate (e : expr profile) : Vec :=
  match e with
  | Constant c => [c]
  | Density p => [rho0 p]
  end.

(** An exact solver; it fails on the singular (zero) matrix. *)
Definition toy_solve (K : R) (b : Vec) : option Vec :=
  if Req_dec_T K 0 then None else Some (map (fun c => c / K) b).

Definition backend
    (solver : R -> Vec -> option Vec)
    (eval : Vec -> list R -> option R)
    (vertices : Z -> option (list Point.t))
    (distance : Z -> Point.t -> R) : Dolfin :=
  {| DensityProfile := profile;
     symmetry := tag;
     topology_dim := dim;
     Matrix := R;
     mat_add := Rplus;
     mat_scale := Rmult;
     interpolate := toy_interpolate;
     assemble := toy_assemble;
     assemble_matrix := toy_assemble_matrix;
     krylov_solve := fun _ _ _ => solver;
     eval_at := eval;
     submesh_vertices := vertices;
     closest_distance := distance |}.

(** The function is its single coefficient at every point. *)
Definition eval_const (f : Vec) (_ : list R) : option R := Some (coef f).

(** The plain instance: constant functions, no tagged sub-mesh. *)
Definition plain : Dolfin :=
  backend toy_solve eval_const (fun _ => None) (fun _ _ => 0).

(** The same with a solver that is never exact: it is off by one. *)
Definition sloppy : Dolfin :=
  backend (fun K b => Some (map (fun c => c / K + 1) b))
          eval_const (fun _ => None) (fun _ _ => 0).

(** A 2-D cylinder slice of unit density. *)
Definition unit_slice : profile := mkProfile 2 "cylinder slice" 1.

(** The solver object [__init__] builds on a 2-D mesh for the profile
    [unit_slice] with [alpha = 1] and [n = 0] (lemma [init_solver2d]),
    with its slots [field] and [field_grad_mag] set to the given values. *)
Definition solver2d (d : Dolfin) (pr : @DensityProfile d) (A1 : @Matrix d)
    (phi grad_mag : option Vec) : @FieldSolver d :=
  mkFieldSolver (dolfin := d) 1 0%Z pr 1%Z 2%Z "cylinder slice" ConstantOne
    [1] 1 1 phi grad_mag None None None None None [1] A1
    1 (1 / 10 ^ 14) (1 / 10 ^ 10) 1000%Z.

End Toy.

(** ** Vocabulary of the statements *)

Section Vocabulary.
Context {dolfin : Dolfin}.

(** The points [origin + k*gradient_vector] for
    [k = start, ..., start + len - 1]. *)
Definition points (gradient_vector origin : list R) (start len : nat)
    : list (list R) :=
  map (path_point gradient_vector origin) (seq start len).

(** The values of [function] at a list of points, when all are defined. *)
Fixpoint sample (function : Vec) (pts : list (list R)) : option (list R) :=
  match pts with
  | [] => Some []
  | q :: pts =>
      match eval_at function q, sample function pts with
      | Some a, Some l => Some (a :: l)
      | _, _ => None
      end
  end.

(** [K] is the first step, counted from step 1, whose point lies at
    distance [radial_limit] or more from the coordinate origin. *)
Definition exit_step (gradient_vector origin : list R) (radial_limit : R)
    (K : nat) : Prop :=
  linalg_norm (path_point gradient_vector origin K) >= radial_limit /\
  forall k, (1 <= k < K)%nat ->
    linalg_norm (path_point gradient_vector origin k) < radial_limit.

(** The same, counted from step 0, as the specification words it. *)
Definition first_exit (gradient_vector origin : list R) (radial_limit : R)
    (K : nat) : Prop :=
  linalg_norm (path_point gradient_vector origin K) >= radial_limit /\
  forall k, (k < K)%nat ->
    linalg_norm (path_point gradient_vector origin k) < radial_limit.

(** The test of the vertex loop of [measure_fifth_force]: the distance to
    the boundary lies strictly between the two ends of the band. *)
Definition qualifies (subdomain : Z) (boundary_distance tol : R)
    (v : Point.t) : Prop :=
  boundary_distance - tol / 2 < closest_distance subdomain v /\
  closest_distance subdomain v < boundary_distance + tol / 2.

(** The band with its lower end included, as the specification words
    it. *)
Definition in_half_open_band (subdomain : Z) (boundary_distance tol : R)
    (v : Point.t) : Prop :=
  boundary_distance - tol / 2 <= closest_distance subdomain v /\
  closest_distance subdomain v < boundary_distance + tol / 2.

(** The meshes on which the constructor sets the weight to [Constant(1)]:
    a 3-D mesh, or a 2-D mesh tagged as a cylinder slice. *)
Definition weight_one (density_profile : DensityProfile) : Prop :=
  topology_dim density_profile = 3%Z \/
  (topology_dim density_profile = 2%Z /\
   symmetry density_profile = "cylinder slice"%string).

(** Both vectors have as many components as the mesh has dimensions. *)
Definition dimensions_match (gradient_vector origin : list R)
    (self : FieldSolver) : Prop :=
  Z.of_nat (List.length gradient_vector) = mesh_dimension self /\
  Z.of_nat (List.length origin) = mesh_dimension self.

(** What a run of the outer loop of the object [self0], entered with
    iteration count [i0] and log [tr], may end in: not more than
    [maxiter - i0] rounds, each with one linear solve; a normal end leaves
    the object with a field and otherwise as it was, and is reached with
    [du_norm] still above [tol_du] once the count has reached [maxiter];
    the only exception is the one of a failed linear solve. *)
Definition bounded_run (self0 : FieldSolver)
    (solver_method preconditioner : string) (prm : krylov_parameters)
    (i0 : Z) (tr : log) (out : res (Z * R * FieldSolver) * log) : Prop :=
  (iterations (snd out) <= iterations tr + Z.to_nat (maxiter self0 - i0))%nat /\
  (solves (snd out) <= solves tr + Z.to_nat (maxiter self0 - i0))%nat /\
  match fst out with
  | Ok (i, du_norm, self') =>
      field self' <> None /\
      self' = set_field (field self') self0 /\
      (i0 <= i <= Z.max i0 (maxiter self0))%Z /\
      iterations (snd out) = (iterations tr + Z.to_nat (i - i0))%nat /\
      (du_norm > tol_du self0 -> (maxiter self0 <= i)%Z)
  | Raise e =>
      e = RuntimeError "Unable to solve linear system" /\
      exists K b, krylov_solve solver_method preconditioner prm K b = None
  | OutOfFuel => False
  end.

(** What a method that ends by [return None] makes of the run of its
    loop: the object, without the loop's local variables. *)
Definition returned_object (out : res (Z * R * FieldSolver) * log)
    : res FieldSolver * log :=
  match out with
  | (Ok r, tr') => (Ok (snd r), tr')
  | (Raise e, tr') => (Raise e, tr')
  | (OutOfFuel, tr') => (OutOfFuel, tr')
  end.

(** One projection: after the assemblies logged as [pre], the linear
    solve of [K x = b], whose solution is stored by [store]. *)
Definition project (solver_method preconditioner : string)
    (prm : krylov_parameters) (pre : log) (K : Matrix) (b : Vec)
    (store : Vec -> FieldSolver) : M FieldSolver :=
  fun tr =>
    match krylov_solve solver_method preconditioner prm K b with
    | Some x =>
        (Ok (store x), tr ++ pre ++ [EvSolve solver_method preconditioner])
    | None =>
        (Raise (RuntimeError "Unable to solve linear system"),
         tr ++ pre ++ [EvSolve solver_method preconditioner])
    end.

End Vocabulary.

(** ** Exact arithmetic in the backend

    What the statement about a constant density assumes of dolfin: the
    matrices act linearly on coefficient vectors ([mat_vec]), the
    interpolant of a constant has the constant as every coefficient, the
    gradient of a constant function vanishes, a coefficient that is
    constant over the mesh comes out of an integral, and the Krylov solver
    returns the solution of a non-singular system.  [load w] is the
    assembled form [v*w*dx]. *)

Class Exact (dolfin : Dolfin) : Type := {
  ndofs : nat;
  mat_vec : Matrix -> Vec -> Vec;
  nonsingular : Matrix -> Prop;
  load (w : weight) : Vec :=
    mat_vec (assemble_matrix (B_mass w)) (repeat 1 ndofs);
  ndofs_pos : (0 < ndofs)%nat;
  mat_vec_length : forall K x, List.length (mat_vec K x) = List.length x;
  mat_vec_add : forall K L x,
    mat_vec (mat_add K L) x = vadd (mat_vec K x) (mat_vec L x);
  mat_vec_scale : forall a K x,
    mat_vec (mat_scale a K) x = vscale a (mat_vec K x);
  mat_vec_linear : forall K a x,
    mat_vec K (vscale a x) = vscale a (mat_vec K x);
  interpolate_constant : forall c,
    interpolate (Constant c) = repeat c ndofs;
  stiffness_constant : forall w c,
    mat_vec (assemble_matrix (B_stiffness w)) (repeat c ndofs)
    = repeat 0 ndofs;
  potential_constant : forall n c w, 0 < c ->
    assemble_matrix (B_potential n (repeat c ndofs) w)
    = mat_scale (IZR (n + 1) * Rpower c (IZR (- n - 2)))
        (assemble_matrix (B_mass w));
  picard_rhs_constant : forall n c w, 0 < c ->
    assemble (L_picard n (repeat c ndofs) w)
    = vscale (IZR (n + 2) * Rpower c (IZR (- n - 1))) (load w);
  newton_rhs_constant : forall alpha n c w, 0 < c ->
    assemble (L_newton alpha n (repeat c ndofs) w)
    = vadd (vscale (- alpha)
              (mat_vec (assemble_matrix (B_stiffness w)) (repeat c ndofs)))
           (vscale (Rpower c (IZR (- n - 1))) (load w));
  system_nonsingular : forall w a k, 0 < a -> 0 < k ->
    nonsingular (mat_add (mat_scale a (assemble_matrix (B_stiffness w)))
                         (mat_scale k (assemble_matrix (B_mass w))));
  krylov_exact : forall m pc prm K b x,
    nonsingular K -> mat_vec K x = b ->
    krylov_solve m pc prm K b = Some x
}.

(** The density of the profile is the constant [rho0] over the whole
    mesh: its interpolant and the source form it is assembled into. *)
Definition uniform_density {dolfin : Dolfin} {exact : Exact dolfin}
    (density_profile : DensityProfile) (rho0 : R) : Prop :=
  interpolate (Density density_profile) = repeat rho0 ndofs /\
  forall w, assemble (L_density density_profile w) = vscale rho0 (load w).

(** The object of a solver set up for the constant density [rho0]. *)
Definition at_fixed_point {dolfin : Dolfin} {exact : Exact dolfin}
    (rho0 : R) (self : FieldSolver) : Prop :=
  0 < alpha self /\ (0 <= n self)%Z /\ 0 < rho0 /\
  uniform_density (p self) rho0 /\
  P self = assemble (L_density (p self) (sym_factor self)) /\
  field_min self = Rpower rho0 (-1 / IZR (n self + 1)).

(** The settable attributes of the solver configuration. *)
Definition configure {dolfin : Dolfin} (theta tol rel : R) (maxit : Z)
    (self : FieldSolver) : FieldSolver :=
  set_relaxation_parameter theta
    (set_tol_du tol (set_tol_rel_du rel (set_maxiter maxit self))).

(** ** Concrete objects

    The solver objects and backends on which the statements are run. *)

(** The 2-D solver object of the plain one-dof backend, field unset. *)
Definition plain_solver : @FieldSolver Toy.plain :=
  Toy.solver2d Toy.plain Toy.unit_slice 1 None None.

Definition v1 : Point.t := Point.mk 0 0 0.
Definition v2 : Point.t := Point.mk 1 0 0.

(** Two vertices, [v1] at distance 1 and [v2] at distance 2 from the
    boundary; a function of coefficient [c] has the value [c - x]. *)
Definition two_vertex : Dolfin :=
  Toy.backend Toy.toy_solve (fun f q => Some (Toy.coef f - hd 0 q))
              (fun _ => Some [v1; v2])
              (fun _ v => 1 + Point.x v).

(** A solver over it whose gradient magnitude is 5 at [v1] and 4 at [v2]. *)
Definition two_vertex_solver : @FieldSolver two_vertex :=
  Toy.solver2d two_vertex Toy.unit_slice 1 (Some [1]) (Some [5]).

(** The same two vertices, with functions lifted by 5: a function of
    coefficient [c] has the value [c + 5 - x]. *)
Definition two_vertex_lifted : Dolfin :=
  Toy.backend Toy.toy_solve (fun f q => Some (Toy.coef f + 5 - hd 0 q))
              (fun _ => Some [v1; v2])
              (fun _ v => 1 + Point.x v).

(** A solver over it that has a field and no gradient magnitude yet; the
    one the backend computes has the coefficient [0 / 1]. *)
Definition first_call_solver : @FieldSolver two_vertex_lifted :=
  Toy.solver2d two_vertex_lifted Toy.unit_slice 1 (Some [1]) None.

(** A solver of the plain backend with a field and its gradient magnitude
    in place. *)
Definition solved_solver : @FieldSolver Toy.plain :=
  Toy.solver2d Toy.plain Toy.unit_slice 1 (Some [1]) (Some [0 / 1]).

(** [maxiter = 1] over the backend whose solver is off by one. *)
Definition one_round_solver : @FieldSolver Toy.sloppy :=
  set_maxiter 1 (Toy.solver2d Toy.sloppy Toy.unit_slice 1 None None).

(** The one-dof backend is exact: a matrix is a number and acts on a
    coefficient vector by multiplication; it is non-singular when it is
    not zero. *)
Definition toy_mat_vec (K : R) (v : Vec) : Vec := map (Rmult K) v.

Definition plain_exact : Exact Toy.plain.
Proof.
  refine {| ndofs := 1%nat;
            mat_vec := toy_mat_vec : @Matrix Toy.plain -> Vec -> Vec;
            nonsingular := fun K : @Matrix Toy.plain => K <> 0 |}.
  - lia.
  - intros K v; apply length_map.
  - intros K L v.
    change (toy_mat_vec (K + L) v = vadd (toy_mat_vec K v) (toy_mat_vec L v)).
    induction v as [|a v IH]; simpl; [reflexivity|].
    unfold vadd, toy_mat_vec in *; simpl; rewrite IH; f_equal; ring.
  - intros a K v.
    change (toy_mat_vec (a * K) v = vscale a (toy_mat_vec K v)).
    unfold toy_mat_vec, vscale.
    rewrite map_map; apply map_ext; intros; ring.
  - intros K a v; unfold toy_mat_vec, vscale.
    rewrite !map_map; apply map_ext; intros; ring.
  - reflexivity.
  - intros w c; simpl; f_equal; ring.
  - intros n c w Hc; simpl; unfold Toy.coef; simpl; ring.
  - intros n c w Hc; simpl; unfold Toy.coef; simpl; f_equal; ring.
  - intros alpha n c w Hc; simpl; unfold Toy.coef, vadd; simpl; f_equal; ring.
  - intros w a k Ha Hk; simpl; lra.
  - intros m pc prm K b v HK <-; simpl. unfold Toy.toy_solve, toy_mat_vec.
    destruct (Req_dec_T K 0) as [|_]; [contradiction|].
    f_equal. rewrite map_map. rewrite <- (map_id v) at 2.
    apply map_ext; intros a; field; exact HK.
Defined.

(** ** Computations and the log *)

(** A computation only appends to the log, and what it returns and what
    it appends do not depend on the log it is given. *)
Definition appends {A : Type} (c : M A) : Prop :=
  exists r ev, forall tr, c tr = (r, tr ++ ev).

(** ** The vertices the locator evaluates *)

(** The test of the vertex loop of [measure_fifth_force], as a boolean. *)
Definition in_band {dolfin : Dolfin} (subdomain : Z)
    (boundary_distance tol : R) (v : Point.t) : bool :=
  if Rgt_dec (closest_distance subdomain v) (boundary_distance - tol / 2)
  then if Rlt_dec (closest_distance subdomain v) (boundary_distance + tol / 2)
       then true else false
  else false.

(** The exception raised when the sub-mesh cannot be built. *)
Definition bad_subdomain : exn :=
  Exception "Error has occured. Check Your subdomain index is correct.".

(** ** A mesh that covers a strip only *)

(** The one-dof backend with functions that can be evaluated at the
    points with [x < 1/20] only, as on a mesh that ends there. *)
Definition strip : Dolfin :=
  Toy.backend Toy.toy_solve
    (fun f q => if Rlt_dec (hd 0 q) (1 / 20) then Some (Toy.coef f) else None)
    (fun _ => None) (fun _ _ => 0).

Definition strip_solver : @FieldSolver strip :=
  Toy.solver2d strip Toy.unit_slice 1 None None.

(** * Plotting, saving and loading

    The methods of [FieldSolver] that draw with matplotlib, write and
    read HDF5 files and ask a question on the terminal
    ([plot_results], [plot_residual_slice], [save], [load]).  Their
    computations run in a world made of the log of the solver, the calls
    made to matplotlib, the files, and the lines waiting on standard
    input.  matplotlib, the operating system and HDF5 are external: the
    calls to matplotlib are recorded, the files are the interface
    [Storage]. *)

Module IO.

(** Calls to [matplotlib.pyplot], to a figure and to [d.plot]. *)
Inductive plt_call : Type :=
| Figure (figsize : option (R * R)) (dpi : option Z)
                                      (* plt.figure(figsize=..., dpi=...) *)
| Title (label : string)              (* plt.title *)
| Xlabel (label : string)             (* plt.xlabel *)
| Ylabel (label : string)             (* plt.ylabel *)
| Xlim (lo hi : R)                    (* plt.xlim([lo, hi]) *)
| Yscale (value : string)             (* plt.yscale *)
| Plot (xs ys : list R) (label : string)   (* plt.plot(xs, ys, label=...) *)
| Legend                              (* plt.legend() *)
| DolfinPlot (f : Vec) (extend : option string)
                                      (* d.plot(f) / d.plot(f, extend=...) *)
| Colorbar (label : string).          (* fig.colorbar(img, label=...) *)

(** What [os.makedirs(path)] does: the directory and its missing parents
    are created, or the path exists already ([FileExistsError]), or the
    call fails in another way. *)
Inductive made (F : Type) : Type :=
| Created (files : F)
| AlreadyExists
| CannotCreate (files : F).
Arguments Created {F} files.
Arguments AlreadyExists {F}.
Arguments CannotCreate {F} files.

Class Storage : Type := {
  Files : Type;
  (* os.makedirs(path) *)
  makedirs : string -> Files -> made Files;
  (* os.path.exists(path) *)
  path_exists : string -> Files -> bool;
  (* with d.HDF5File(comm, path, "w") as f: f.write(function, name);
     the flag is false when dolfin raises *)
  h5_write : string -> string -> Vec -> Files -> Files * bool;
  (* with d.HDF5File(comm, path, "r") as f: f.read(function, name);
     None when dolfin raises *)
  h5_read : string -> string -> Files -> option Vec
}.

(** The exceptions of these methods: those of the solver, and three
    more. *)
Inductive error : Type :=
| Solver (e : exn)
| ValueError (msg : string)
| EOFError                        (* input() at the end of the input *)
| OSError.                        (* os.makedirs, other than FileExistsError *)

Inductive result (A : Type) : Type :=
| Done (a : A)
| Failed (e : error)
| Unfinished.
Arguments Done {A} a.
Arguments Failed {A} e.
Arguments Unfinished {A}.

Section World.
Context {storage : Storage}.

Record world : Type := mkWorld {
  w_log : log;               (* calls to dolfin and printed lines *)
  w_plt : list plt_call;     (* calls to matplotlib *)
  w_files : Files;           (* the file system *)
  w_stdin : list string      (* lines waiting on standard input *)
}.

Definition IO (A : Type) : Type := world -> result A * world.

Definition io_ret {A} (a : A) : IO A := fun w => (Done a, w).

Definition io_bind {A B} (c : IO A) (k : A -> IO B) : IO B :=
  fun w =>
    match c w with
    | (Done a, w') => k a w'
    | (Failed e, w') => (Failed e, w')
    | (Unfinished, w') => (Unfinished, w')
    end.

Definition io_raise {A} (e : error) : IO A := fun w => (Failed e, w).

(** A computation of the solver, run on the log of the world. *)
Definition lift {A} (c : M A) : IO A :=
  fun w =>
    match c (w_log w) with
    | (Ok a, tr) => (Done a, mkWorld tr (w_plt w) (w_files w) (w_stdin w))
    | (Raise e, tr) =>
        (Failed (Solver e), mkWorld tr (w_plt w) (w_files w) (w_stdin w))
    | (OutOfFuel, tr) =>
        (Unfinished, mkWorld tr (w_plt w) (w_files w) (w_stdin w))
    end.

Definition plt (c : plt_call) : IO unit :=
  fun w =>
    (Done tt, mkWorld (w_log w) (w_plt w ++ [c]) (w_files w) (w_stdin w)).

(** [input(prompt)]: the prompt is written to the terminal like a printed
    line, and the next line of the input is returned. *)
Definition input (prompt : string) : IO string :=
  fun w =>
    let w1 := mkWorld (w_log w ++ [EvPrint prompt]) (w_plt w) (w_files w)
                (w_stdin w) in
    match w_stdin w with
    | answer :: rest =>
        (Done answer, mkWorld (w_log w1) (w_plt w) (w_files w) rest)
    | [] => (Failed EOFError, w1)
    end.

(** [sys.exit()] *)
Definition sys_exit {A} : IO A := io_raise (Solver SystemExit).

Definition os_path_exists (path : string) : IO bool :=
  fun w => (Done (path_exists path (w_files w)), w).

(** [with d.HDF5File(self.mesh.mpi_comm(), path, "w") as f:
         f.write(function, name)] *)
Definition hdf5_write (path name : string) (function : Vec) : IO unit :=
  fun w =>
    let (files, written) := h5_write path name function (w_files w) in
    let w' := mkWorld (w_log w) (w_plt w) files (w_stdin w) in
    if written then (Done tt, w')
    else (Failed (Solver (RuntimeError "Unable to write HDF5 file")), w').

(** [with d.HDF5File(self.mesh.mpi_comm(), path, "r") as f:
         f.read(function, name)] *)
Definition hdf5_read (path name : string) : IO Vec :=
  fun w =>
    match h5_read path name (w_files w) with
    | Some v => (Done v, w)
    | None => (Failed (Solver (RuntimeError "Unable to read HDF5 file")), w)
    end.

End World.

Declare Scope io_scope.
Delimit Scope io_scope with io.
Notation "x <- c ;; k" := (io_bind c (fun x => k))
  (at level 61, c at next level, right associativity) : io_scope.
Notation "c ;;; k" := (io_bind c (fun _ => k))
  (at level 61, right associativity) : io_scope.

(** ** Strings *)

(** [str.lower()] on the ASCII letters; no other character lowers to a
    letter of the words the methods compare with. *)
Definition lower_char (c : Ascii.ascii) : Ascii.ascii :=
  let k := Ascii.nat_of_ascii c in
  if ((65 <=? k) && (k <=? 90))%nat then Ascii.ascii_of_nat (k + 32) else c.

Fixpoint lower (s : string) : string :=
  match s with
  | EmptyString => EmptyString
  | String c s' => String (lower_char c) (lower s')
  end.

(** ['"' + s + '"'] *)
Definition quoted (s : string) : string :=
  String (Ascii.ascii_of_nat 34)
         (s ++ String (Ascii.ascii_of_nat 34) EmptyString).

(** [np.log10] *)
Definition log10 (x : R) : R := ln x / ln 10.

Section Methods.
Context {dolfin : Dolfin} {storage : Storage}.
Local Open Scope io_scope.

Definition io_print (line : string) : IO unit := lift (print line).

(** Reading an attribute that must hold a function. *)
Definition the_function (attribute : option Vec) : IO Vec :=
  match attribute with
  | Some f => io_ret f
  | None => io_raise (Solver (TypeError "unsupported operand: NoneType"))
  end.

(** ** [FieldSolver.plot_results] *)

(** The figure of one block: the figure is opened and titled before the
    scale is looked at. *)
Definition plot_attribute (scale : string) (attribute : option Vec)
    (dpi : option Z) (title linear_label log_label : string)
    (log_values : Vec -> Vec) (extend : option string)
    (argument : string) : IO unit :=
  plt (Figure None dpi) ;;;
  plt (Title title) ;;;
  plt (Ylabel "y") ;;;
  plt (Xlabel "x") ;;;
  if (lower scale =? "linear")%string then
    f <- the_function attribute ;;
    plt (DolfinPlot f extend) ;;;
    plt (Colorbar linear_label)
  else if (lower scale =? "log")%string then
    f <- the_function attribute ;;
    plt (DolfinPlot (log_values f) extend) ;;;
    plt (Colorbar log_label)
  else
    io_print EmptyString ;;;
    io_print (quoted scale ++ " is not a valid argument for " ++ argument
              ++ ".").

(** One block [if X_scale is not None: ...]: the attribute is computed
    when it is missing, then plotted. *)
Definition plot_block (scale : option string)
    (attribute : FieldSolver -> option Vec)
    (calc : FieldSolver -> M FieldSolver)
    (dpi : option Z) (title linear_label log_label : string)
    (log_values : Vec -> Vec) (extend : option string)
    (argument : string) (self : FieldSolver) : IO FieldSolver :=
  match scale with
  | None => io_ret self
  | Some scale =>
      self <- lift (match attribute self with
                    | None => calc self
                    | Some _ => ret self
                    end) ;;
      plot_attribute scale (attribute self) dpi title linear_label log_label
        log_values extend argument ;;;
      io_ret self
  end.

(** [np.log10(abs(x) + 1e-14)] and, for the density, [np.log10(x + 1e-14)]
    on the coefficients. *)
Definition log_abs (f : Vec) : Vec :=
  map (fun x => log10 (Rabs x + 1 / 10 ^ 14)) f.
Definition log_plain (f : Vec) : Vec :=
  map (fun x => log10 (x + 1 / 10 ^ 14)) f.

(** All six arguments default to [None]; [field_scale] is not used by
    the method. *)
Definition plot_results
    (field_scale grad_scale res_scale lapl_scale dpot_scale
       density_scale : option string)
    (self : FieldSolver) : IO FieldSolver :=
  self <- plot_block grad_scale field_grad_mag
            (calc_field_grad_mag "cg" "jacobi")
            (Some 150%Z) "Magnitude of Field Gradient"
            "$|\hat{\nabla} \hat{\phi}|$"
            "$\log_{10}(|\hat{\nabla} \hat{\phi}|)$"
            log_abs None "grad_scale" self ;;
  self <- plot_block res_scale residual
            (calc_field_residual "richardson" "icc")
            (Some 150%Z) "Field Residual"
            "$\hat{\epsilon}$"
            "$\log_{10}(|\hat{\epsilon}|)$"
            log_abs None "res_scale" self ;;
  self <- plot_block lapl_scale laplacian
            (calc_laplacian "richardson" "icc")
            None "Laplacian of Field"
            "$\hat{\nabla}^2 \hat{\phi}$"
            "$\log_{10}(|\hat{\nabla}^2\hat{\phi}|)$"
            log_abs None "lapl_scale" self ;;
  self <- plot_block dpot_scale potential_derivative
            (calc_potential_derivative "richardson" "icc")
            None "Field Potential"
            "\left|$\hat{V}'(\hat{\phi})\right|$"
            "$\log_{10}(|\hat{V}'(\hat{\phi})|)$"
            log_abs None "dpot_scale" self ;;
  self <- plot_block density_scale p_field
            calc_density_field
            (Some 150%Z) "Density Field"
            "$\hat{\rho}$"
            "$\log_{10}(\hat{\rho})$"
            log_plain (Some "max"%string) "density_scale" self ;;
  io_ret self.

(** ** [FieldSolver.plot_residual_slice] *)

(** [self.probe_function(self.X, gradient_vector, origin, radial_limit)]
    for an attribute [X]. *)
Definition probe_attribute (fuel : nat) (attribute : option Vec)
    (gradient_vector origin : list R) (radial_limit : R)
    (self : FieldSolver) : IO (option (list R)) :=
  function <- the_function attribute ;;
  lift (probe_function fuel function gradient_vector origin radial_limit
          self).

(** [len(a)] of what the prober returned. *)
Definition len (a : option (list R)) : IO nat :=
  match a with
  | Some l => io_ret (List.length l)
  | None => io_raise (Solver (TypeError "object of type 'NoneType' has no len()"))
  end.

(** [abs(a)] of what the prober returned. *)
Definition np_abs (a : option (list R)) : IO (list R) :=
  match a with
  | Some l => io_ret (map Rabs l)
  | None => io_raise (Solver (TypeError "bad operand type for abs(): 'NoneType'"))
  end.

Definition the_array (a : option (list R)) : IO (list R) :=
  match a with
  | Some l => io_ret l
  | None => io_raise (Solver (TypeError "unsupported operand: NoneType"))
  end.

(** [max(s)] *)
Definition max_ (s : list R) : IO R :=
  match s with
  | [] => io_raise (ValueError "max() arg is an empty sequence")
  | _ :: _ => io_ret (vec_max s)
  end.

(** [plt.plot(xs, ys, label=...)] *)
Definition plt_plot (xs ys : list R) (label : string) : IO unit :=
  if (List.length xs =? List.length ys)%nat then plt (Plot xs ys label)
  else io_raise (ValueError "x and y must have same first dimension").

(** The four guards at the head of the method. *)
Definition residual_components (self : FieldSolver) : M FieldSolver :=
  (self <- match residual self with
           | None => calc_field_residual "richardson" "icc" self
           | Some _ => ret self
           end ;;
   self <- match laplacian self with
           | None => calc_laplacian "richardson" "icc" self
           | Some _ => ret self
           end ;;
   self <- match potential_derivative self with
           | None => calc_potential_derivative "richardson" "icc" self
           | Some _ => ret self
           end ;;
   match p_field self with
   | None => calc_density_field self
   | Some _ => ret self
   end)%comp.

(** Defaults: [origin=np.array([0, 0])], [radial_limit=1.0]. *)
Definition plot_residual_slice (fuel : nat)
    (gradient_vector origin : list R) (radial_limit : R)
    (self : FieldSolver) : IO FieldSolver :=
  self <- lift (residual_components self) ;;
  res_value <- probe_attribute fuel (residual self) gradient_vector origin
                 radial_limit self ;;
  lapl_value <- probe_attribute fuel (laplacian self) gradient_vector origin
                  radial_limit self ;;
  dpot_value <- probe_attribute fuel (potential_derivative self)
                  gradient_vector origin radial_limit self ;;
  p_value <- probe_attribute fuel (p_field self) gradient_vector origin
               radial_limit self ;;
  let ds := linalg_norm gradient_vector in
  N <- len res_value ;;
  let s := map (fun k => INR k * ds) (seq 0 N) in
  plt (Figure (Some (58 / 10, 4)) (Some 150%Z)) ;;;
  plt (Title "Residual Components Vs Displacement Along Given Vector") ;;;
  hi <- max_ s ;;
  plt (Xlim 0 hi) ;;;
  plt (Yscale "log") ;;;
  plt (Xlabel "$\hat{x}$") ;;;
  ys <- np_abs res_value ;;
  plt_plot s ys "$\left|\hat{\varepsilon}\right|$" ;;;
  ys <- np_abs lapl_value ;;
  plt_plot s (map (Rmult (alpha self)) ys)
    "$\alpha \left|\nabla^2 \hat{\phi}\right|$" ;;;
  ys <- np_abs dpot_value ;;
  plt_plot s ys "$\hat{\phi}^{-(n+1)}$" ;;;
  ys <- the_array p_value ;;
  plt_plot s ys "$\left|-\hat{\rho}\right|$" ;;;
  plt Legend ;;;
  io_ret self.

(** ** [FieldSolver.save] *)

(** One block [if self.X is not None: ... f.write(self.X, name)]. *)
Definition save_attribute (attribute : option Vec) (path name : string)
    : IO unit :=
  match attribute with
  | Some function => hdf5_write path name function
  | None => io_ret tt
  end.

(** [try: os.makedirs(path) except FileExistsError: ...] *)
Definition makedirs_or (path : string) (handler : IO unit) : IO unit :=
  fun w =>
    match makedirs path (w_files w) with
    | Created files =>
        (Done tt, mkWorld (w_log w) (w_plt w) files (w_stdin w))
    | AlreadyExists => handler w
    | CannotCreate files =>
        (Failed OSError, mkWorld (w_log w) (w_plt w) files (w_stdin w))
    end.

(** The part of the method under [# Save solution]. *)
Definition save_solution (path : string) (self : FieldSolver) : IO unit :=
  save_attribute (field self) (path ++ "/field.h5") "field" ;;;
  save_attribute (field_grad_mag self) (path ++ "/field_grad_mag.h5")
    "field_grad_mag" ;;;
  save_attribute (residual self) (path ++ "/residual.h5") "residual" ;;;
  save_attribute (laplacian self) (path ++ "/laplacian.h5") "laplacian" ;;;
  save_attribute (potential_derivative self)
    (path ++ "/potential_derivative.h5") "potential_derivative" ;;;
  save_attribute (field_grad self) (path ++ "/field_grad.h5") "field_grad" ;;;
  save_attribute (p_field self) (path ++ "/p_field.h5") "p_field".

(** What the method does when the directory exists already. *)
Definition ask_overwrite (path : string) (auto_override : bool) : IO unit :=
  if auto_override then io_ret tt
  else
    io_print ("Directory " ++ path ++ " already exists.") ;;;
    ans <- input "Overwrite files inside this directory? (y/n) " ;;
    if (lower ans =? "y")%string then io_ret tt
    else if (lower ans =? "n")%string then sys_exit
    else io_print "Invalid input." ;;; sys_exit.

(** Default: [auto_override=False]. *)
Definition save (filename : string) (auto_override : bool)
    (self : FieldSolver) : IO unit :=
  let path := ("Saved Solutions/" ++ filename)%string in
  makedirs_or path (ask_overwrite path auto_override) ;;;
  save_solution path self.

(** ** [FieldSolver.load] *)

(** One block [if os.path.exists(file): self.X = d.Function(...);
    f.read(self.X, name)]. *)
Definition load_attribute (path name : string)
    (store : option Vec -> FieldSolver -> FieldSolver)
    (self : FieldSolver) : IO FieldSolver :=
  found <- os_path_exists path ;;
  if found then
    function <- hdf5_read path name ;;
    io_ret (store (Some function) self)
  else io_ret self.

Definition load (filename : string) (self : FieldSolver) : IO FieldSolver :=
  let path := ("Saved Solutions/" ++ filename)%string in
  self <- load_attribute (path ++ "/field.h5") "field" set_field self ;;
  self <- load_attribute (path ++ "/field_grad_mag.h5") "field_grad_mag"
            set_field_grad_mag self ;;
  self <- load_attribute (path ++ "/residual.h5") "residual"
            set_residual self ;;
  self <- load_attribute (path ++ "/laplacian.h5") "laplacian"
            set_laplacian self ;;
  self <- load_attribute (path ++ "/potential_derivative.h5")
            "potential_derivative" set_potential_derivative self ;;
  self <- load_attribute (path ++ "/field_grad.h5") "field_grad"
            set_field_grad self ;;
  self <- load_attribute (path ++ "/p_field.h5") "p_field"
            set_p_field self ;;
  io_ret self.

End Methods.

(** ** Vocabulary of the statements *)

(** The seven attributes that are saved and loaded, in the order of the
    two methods, with the file and the dataset of each. *)
Inductive slot : Type :=
| Field | FieldGradMag | Residual | Laplacian | PotentialDerivative
| FieldGrad | PField.

Definition slots : list slot :=
  [Field; FieldGradMag; Residual; Laplacian; PotentialDerivative;
   FieldGrad; PField].

Definition slot_name (sl : slot) : string :=
  match sl with
  | Field => "field"
  | FieldGradMag => "field_grad_mag"
  | Residual => "residual"
  | Laplacian => "laplacian"
  | PotentialDerivative => "potential_derivative"
  | FieldGrad => "field_grad"
  | PField => "p_field"
  end.

Definition slot_file (filename : string) (sl : slot) : string :=
  ("Saved Solutions/" ++ filename ++ "/" ++ slot_name sl ++ ".h5")%string.

Definition get_slot {dolfin : Dolfin} (sl : slot) (self : FieldSolver)
    : option Vec :=
  match sl with
  | Field => field self
  | FieldGradMag => field_grad_mag self
  | Residual => residual self
  | Laplacian => laplacian self
  | PotentialDerivative => potential_derivative self
  | FieldGrad => field_grad self
  | PField => p_field self
  end.

(** The object [self] with its seven slots replaced. *)
Definition with_slots {dolfin : Dolfin} (f : slot -> option Vec)
    (self : FieldSolver) : FieldSolver :=
  set_p_field (f PField)
    (set_field_grad (f FieldGrad)
       (set_potential_derivative (f PotentialDerivative)
          (set_laplacian (f Laplacian)
             (set_residual (f Residual)
                (set_field_grad_mag (f FieldGradMag)
                   (set_field (f Field) self)))))).

(** What the files hold for a slot: the function [load] would read, if
    the file exists and can be read. *)
Definition stored {storage : Storage} (filename : string) (sl : slot)
    (files : Files) : option (option Vec) :=
  if path_exists (slot_file filename sl) files
  then Some (h5_read (slot_file filename sl) (slot_name sl) files)
  else None.

(** Every slot that is filled in [self] holds the same function in [s]. *)
Definition keeps {dolfin : Dolfin} (self s : FieldSolver) : Prop :=
  forall sl v, get_slot sl self = Some v -> get_slot sl s = Some v.

(** The object [s] differs from [self] in the seven slots at most. *)
Definition same_setup {dolfin : Dolfin} (self s : FieldSolver) : Prop :=
  s = with_slots (fun sl => get_slot sl s) self.

(** What is assumed of the files: a function written to a file is read
    back from it and the file exists; writing a file leaves the other
    paths as they are; a directory that has just been created holds none
    of the seven files. *)
Class StorageLaws (storage : Storage) : Prop := {
  written_is_read : forall path name v files files',
    h5_write path name v files = (files', true) ->
    h5_read path name files' = Some v /\ path_exists path files' = true;
  written_elsewhere : forall path name v files files' other,
    h5_write path name v files = (files', true) ->
    other <> path ->
    path_exists other files' = path_exists other files /\
    forall name', h5_read other name' files' = h5_read other name' files;
  created_is_empty : forall filename files files' sl,
    makedirs ("Saved Solutions/" ++ filename) files = Created files' ->
    path_exists (slot_file filename sl) files' = false
}.

(** ** Files in memory

    An instance of the interface: the directories are a list of paths,
    the files a list of paths with the dataset and the function each
    holds; the first entry of a path counts. *)

Record disk : Type := mkDisk {
  dirs : list string;
  files : list (string * (string * Vec))
}.

Fixpoint lookup (path : string) (l : list (string * (string * Vec)))
    : option (string * Vec) :=
  match l with
  | [] => None
  | (q, c) :: l' => if (q =? path)%string then Some c else lookup path l'
  end.

Definition disk_exists (path : string) (d : disk) : bool :=
  existsb (String.eqb path) (dirs d)
  || match lookup path (files d) with Some _ => true | None => false end.

Definition disk_makedirs (path : string) (d : disk) : made disk :=
  if disk_exists path d then AlreadyExists
  else if existsb (String.prefix (path ++ "/"))
            (dirs d ++ map fst (files d))
       then CannotCreate d
       else Created (mkDisk (path :: dirs d) (files d)).

Definition disk_write (path name : string) (v : Vec) (d : disk)
    : disk * bool :=
  (mkDisk (dirs d) ((path, (name, v)) :: files d), true).

Definition disk_read (path name : string) (d : disk) : option Vec :=
  match lookup path (files d) with
  | Some (name', v) => if (name' =? name)%string then Some v else None
  | None => None
  end.

Definition memory : Storage :=
  {| Files := disk;
     makedirs := disk_makedirs;
     path_exists := disk_exists;
     h5_write := disk_write;
     h5_read := disk_read |}.

Definition empty_disk : disk := mkDisk [] [].

Definition new_world (d : disk) (stdin : list string) : @world memory :=
  @mkWorld memory [] [] d stdin.

(** A disk with the directory of an earlier save named [run], which
    holds a residual. *)
Definition used_disk : disk :=
  mkDisk ["Saved Solutions/run"%string]
    [("Saved Solutions/run/residual.h5"%string, ("residual"%string, [3]))].

(** A disk whose file for the field holds another dataset, so that the
    field cannot be read from it. *)
Definition broken_disk : disk :=
  mkDisk ["Saved Solutions/run"%string]
    [("Saved Solutions/run/field.h5"%string, ("other"%string, [3]))].

End IO.

(** A solver object of the plain backend with all seven slots filled. *)
Definition full_solver : @FieldSolver Toy.plain :=
  IO.with_slots (fun _ => Some [1]) plain_solver.


(** * The example script (Examples/Solve_SphereCylinder.py)

    The part of the script that probes the computed field along [N] rays
    from the origin and plots each ray against the abscissae [X]. *)

Module Example.

Definition dx : R := 1 / 100.                (* dx = 0.01 *)
Definition R_max : R := 1 - 1 / 10 ^ 4.      (* R_max = 1.0 - 1e-4 *)
Definition N : nat := 100.                   (* N = 100 *)

(** [np.linspace(0, 2*np.pi, N, endpoint=False)] *)
Definition angles : list R :=
  map (fun k => INR k * (2 * PI / INR N)) (seq 0 N).

(** [dr = dx*np.array([np.cos(t), np.sin(t)])] *)
Definition dr (t : R) : list R := [dx * cos t; dx * sin t].

(** [X = np.array([i*dx for i in range(N)])] *)
Definition X : list R := map (fun i => INR i * dx) (seq 0 N).

(** Modelled from the spec: the class [Field_Solver] that the script
    imports from Main/Solver_Chameleon.py is not among the sources, so the
    outcomes of its [probe_function] are those of the specification's
    field prober (section 4.3): a sequence of samples, a
    DimensionMismatchError, or an OutOfDomainError; [Unfinished] stands
    for a run that has used up its fuel. *)
Inductive probe_result : Type :=
| Samples (values : list R)
| DimensionMismatchError
| OutOfDomainError
| Unfinished.

(** Modelled from the spec: the sampling of [Field_Solver.probe_function]
    (Main/Solver_Chameleon.py, not among the sources), in the words of
    section 4.3: starting at step index k = 0, evaluate function at
    origin + k * direction_vector; increment k; stop (excluding the final
    out-of-range point) once the norm of origin + k * direction_vector is
    at least radial_limit.  Evaluating function outside the mesh's domain
    fails with an OutOfDomainError and the whole probe aborts. *)
Fixpoint probe_steps {dolfin : Dolfin} (fuel : nat) (function : Vec)
    (direction_vector origin : list R) (radial_limit : R) (k : nat)
    : probe_result :=
  match fuel with
  | O => Unfinished
  | S fuel =>
      match eval_at function (path_point direction_vector origin k) with
      | None => OutOfDomainError
      | Some value =>
          if Rge_dec (linalg_norm (path_point direction_vector origin (S k)))
                     radial_limit
          then Samples [value]
          else
            match probe_steps fuel function direction_vector origin
                    radial_limit (S k) with
            | Samples values => Samples (value :: values)
            | failure => failure
            end
      end
  end.

(** Modelled from the spec: [Field_Solver.probe_function]
    (Main/Solver_Chameleon.py, not among the sources), in the words of
    section 4.3: it fails with a DimensionMismatchError if
    direction_vector or origin does not match the mesh's spatial
    dimension, and samples from step 0 otherwise. *)
Definition probe {dolfin : Dolfin} (fuel : nat) (function : Vec)
    (direction_vector origin : list R) (radial_limit : R)
    (mesh_dimension : Z) : probe_result :=
  if negb (Z.of_nat (List.length direction_vector) =? mesh_dimension)%Z
     || negb (Z.of_nat (List.length origin) =? mesh_dimension)%Z
  then DimensionMismatchError
  else probe_steps fuel function direction_vector origin radial_limit 0.

(** [s.probe_function(function=s.field, gradient_vector=dr,
    radial_limit=R_max)], with the default origin (the zero vector), for
    the field [phi] the solve has left in [s]. *)
Definition probe_ray {dolfin : Dolfin} (fuel : nat) (phi : Vec) (t : R)
    (s : FieldSolver) : probe_result :=
  probe fuel phi (dr t) [0; 0] R_max (mesh_dimension s).

End Example.


(** * The meshing tools (SELCIE/MeshingTools.py, Main/Meshing_Tools.py)

    The methods of the class that work on Python lists: the thinning of a
    list of points, the bookkeeping of the subdomains, and the sorting of
    the fragments of two groups of shapes.  gmsh is external: what its
    geometry kernel returns ([getEntities], [fragment]) is an argument of
    the method that asks for it, and what is handed to it ([remove]) is
    part of the result. *)

Module Meshing.

Inductive outcome (A : Type) : Type :=
| Returns (a : A)
| IndexError          (* an index out of range, or [l[-1]] of an empty list *)
| Unfinished.         (* out of fuel *)
Arguments Returns {A} a.
Arguments IndexError {A}.
Arguments Unfinished {A}.

(** A shape is the tuple [(dim, tag)] gmsh names it by. *)
Definition shape : Type := (Z * Z)%type.

Definition shape_eqb (a b : shape) : bool :=
  ((fst a =? fst b) && (snd a =? snd b))%Z.

(** The attributes set by [__init__]; a refinement setting is the list
    [[CellSizeMin, CellSizeMax, DistMin, DistMax, NumPointsPerCurve]]. *)
Record MeshingTools : Type := mkMeshingTools {
  dim : Z;
  boundaries : list (list shape);
  source : list (list shape);
  refinement_settings : list (R * R * R * R * Z);
  source_number : nat;
  boundary_number : nat;
  Min_length : R
}.

Definition __init__ (dimension : Z) : MeshingTools :=
  mkMeshingTools dimension [] [] [] 0 0 (13 / 10 ^ 7).

(** ** [constrain_distance] *)

(** A point is the list [[x, y, z]]. *)
Definition point : Type := (R * R * R)%type.

(** [math.dist(p, q)] *)
Definition dist (p q : point) : R :=
  let '(px, py, pz) := p in
  let '(qx, qy, qz) := q in
  sqrt ((px - qx) * (px - qx) + (py - qy) * (py - qy)
        + (pz - qz) * (pz - qz)).

(** [l[-1]] *)
Fixpoint last_item {A : Type} (l : list A) : option A :=
  match l with
  | [] => None
  | [a] => Some a
  | _ :: l' => last_item l'
  end.

(** The loop [for p in points_list[:-1]] that fills [index]; [p_pre] is
    the last point kept so far. *)
Fixpoint keep_flags (Min_length : R) (p_pre : point) (points : list point)
    : list bool :=
  match points with
  | [] => []
  | p :: points' =>
      if Rlt_dec (dist p p_pre) Min_length
      then false :: keep_flags Min_length p_pre points'
      else true :: keep_flags Min_length p points'
  end.

(** [[q for q, I in zip(points_list, index) if I]] *)
Fixpoint select {A : Type} (l : list A) (index : list bool) : list A :=
  match l, index with
  | q :: l', keep :: index' =>
      if keep then q :: select l' index' else select l' index'
  | _, _ => []
  end.

Definition constrain_distance (self : MeshingTools)
    (points_list : list point) : outcome (list point) :=
  match last_item points_list with
  | None => IndexError
  | Some last_point =>
      let index :=
        keep_flags (Min_length self) last_point (removelast points_list) in
      let points_new := select points_list index in
      match last_item points_new with
      | Some q =>
          if Rlt_dec (dist last_point q) (Min_length self)
          then Returns (removelast points_new ++ [last_point])
          else Returns (points_new ++ [last_point])
      | None => Returns (points_new ++ [last_point])
      end
  end.

(** ** [create_subdomain] *)

(** [getEntities] is [self.geom.getEntities]: the shapes of a dimension
    that the gmsh model holds at the call.  The defaults of the other
    arguments are 0.1, 0.1, 0.0, 1.0 and 1000. *)
Definition create_subdomain (getEntities : Z -> list shape)
    (CellSizeMin CellSizeMax DistMin DistMax : R) (NumPointsPerCurve : Z)
    (self : MeshingTools) : MeshingTools :=
  (* self.source.append(...); del self.source[-1][:self.source_number] *)
  let new_source := skipn (source_number self) (getEntities (dim self)) in
  let source_number' := (source_number self + List.length new_source)%nat in
  match new_source with
  | _ :: _ =>
      let new_boundaries :=
        skipn (boundary_number self) (getEntities (dim self - 1)%Z) in
      mkMeshingTools (dim self)
        (boundaries self ++ [new_boundaries])
        (source self ++ [new_source])
        (refinement_settings self
         ++ [(CellSizeMin, CellSizeMax, DistMin, DistMax, NumPointsPerCurve)])
        source_number'
        (boundary_number self + List.length new_boundaries)%nat
        (Min_length self)
  | [] =>
      (* del self.source[-1] *)
      mkMeshingTools (dim self) (boundaries self) (source self)
        (refinement_settings self) source_number' (boundary_number self)
        (Min_length self)
  end.

(** ** [non_intersect_shapes] *)

(** [l.pop(k)]: the element and the list without it. *)
Fixpoint pop {A : Type} (k : nat) (l : list A) : option (A * list A) :=
  match l, k with
  | [], _ => None
  | a :: l', O => Some (a, l')
  | a :: l', S k' =>
      match pop k' l' with
      | Some (x, rest) => Some (x, a :: rest)
      | None => None
      end
  end.

(** The loop [for i, s in enumerate(shape_fragments[1:])]: [copy] is what
    is left of the slice, which was taken when the loop began, and [i] the
    index of its first element; [shape_fragments] is the list itself,
    which the loop pops from. *)
Fixpoint compare_head (copy : list shape) (i : nat)
    (shape_fragments to_remove : list shape) (in_overlap : bool)
    : outcome (list shape * list shape * bool) :=
  match copy with
  | [] => Returns (shape_fragments, to_remove, in_overlap)
  | s :: copy' =>
      match shape_fragments with
      | [] => IndexError
      | head :: _ =>
          if shape_eqb head s then
            match pop (S i) shape_fragments with
            | Some (x, rest) =>
                compare_head copy' (S i) rest (to_remove ++ [x]) true
            | None => IndexError
            end
          else
            compare_head copy' (S i) shape_fragments to_remove in_overlap
      end
  end.

(** The loop [while shape_fragments]. *)
Fixpoint sort_fragments (fuel : nat)
    (shape_fragments to_remove new_shapes : list shape)
    : outcome (list shape * list shape) :=
  match shape_fragments with
  | [] => Returns (new_shapes, to_remove)
  | _ :: tail =>
      match fuel with
      | O => Unfinished
      | S fuel =>
          match compare_head tail 0 shape_fragments to_remove false with
          | Returns (shape_fragments, to_remove, in_overlap) =>
              match pop 0 shape_fragments with
              | Some (x, rest) =>
                  if in_overlap
                  then sort_fragments fuel rest to_remove new_shapes
                  else sort_fragments fuel rest to_remove (new_shapes ++ [x])
              | None => IndexError
              end
          | IndexError => IndexError
          | Unfinished => Unfinished
          end
      end
  end.

(** [fragment_map] is the second component of what
    [self.geom.fragment(shapes_1, shapes_2)] returns.  The result is
    [new_shapes] together with the list handed to [self.geom.remove].
    Every round of the [while] loop takes the head off the list, so the
    length of the list is fuel enough (lemma [sort_fragments_ends]). *)
Definition non_intersect_shapes
    (fragment_map : list shape -> list shape -> list (list shape))
    (shapes_1 shapes_2 : list shape) : outcome (list shape * list shape) :=
  match shapes_1, shapes_2 with
  | _ :: _, _ :: _ =>
      let shape_fragments := List.concat (fragment_map shapes_1 shapes_2) in
      sort_fragments (List.length shape_fragments) shape_fragments [] []
  | _, _ => Returns ([], shapes_1 ++ shapes_2)
  end.

(** ** Vocabulary of the statements *)

(** [l] is [l'] with some elements left out. *)
Inductive subsequence {A : Type} : list A -> list A -> Prop :=
| sub_nil : subsequence [] []
| sub_keep : forall a l l', subsequence l l' -> subsequence (a :: l) (a :: l')
| sub_drop : forall a l l', subsequence l l' -> subsequence l (a :: l').

(** Every point but the first is at the distance [d] or more from the
    point before it. *)
Fixpoint spaced (d : R) (l : list point) : Prop :=
  match l with
  | p :: (q :: _) as l' => ~ dist q p < d /\ spaced d l'
  | _ => True
  end.

(** How often a shape occurs in a list. *)
Definition occurrences (s : shape) (l : list shape) : nat :=
  List.length (filter (shape_eqb s) l).

(** The bookkeeping of the subdomains is consistent. *)
Definition consistent (self : MeshingTools) : Prop :=
  List.length (source self) = List.length (boundaries self) /\
  List.length (source self) = List.length (refinement_settings self) /\
  source_number self = List.length (List.concat (source self)) /\
  boundary_number self = List.length (List.concat (boundaries self)) /\
  Forall (fun subdomain => subdomain <> []) (source self).

End Meshing.
(** ** Basic facts about vectors *)

Ltac decide_tests :=
  repeat match goal with
         | |- context [Rgt_dec ?a ?b] =>
             destruct (Rgt_dec a b); simpl in *; try (exfalso; lra)
         | |- context [Rlt_dec ?a ?b] =>
             destruct (Rlt_dec a b); simpl in *; try (exfalso; lra)
         end.

Lemma vadd_zero_l (a b : Vec) :
  List.length a = List.length b -> vadd (vscale 0 a) b = b.
Proof.
  revert b; induction a as [|c a IH]; intros [|e b] Hl; simpl in *;
    try reflexivity; try discriminate.
  unfold vadd, vscale in *; simpl. f_equal; [lra | apply IH; lia].
Qed.

Lemma path_point_start (gv origin : list R) :
  List.length gv = List.length origin -> path_point gv origin 0 = origin.
Proof. intros Hl; unfold path_point; simpl; now apply vadd_zero_l. Qed.

Lemma vscale_zeros (a : R) (gv : list R) :
  Forall (fun c => c = 0) gv -> vscale a gv = vscale 0 gv.
Proof.
  induction 1 as [|c gv Hc _ IH]; simpl; [reflexivity|].
  unfold vscale in *; simpl; rewrite IH, Hc; f_equal; lra.
Qed.

Lemma path_point_still (gv origin : list R) (k : nat) :
  List.length gv = List.length origin -> Forall (fun c => c = 0) gv ->
  path_point gv origin k = origin.
Proof.
  intros Hl Hz; unfold path_point.
  rewrite (vscale_zeros _ _ Hz); now apply vadd_zero_l.
Qed.

Lemma sum_sq_nonneg (v : list R) : 0 <= sum_sq v.
Proof. induction v as [|a v IH]; simpl; [lra | nra]. Qed.

Lemma linalg_norm_nonneg (v : list R) : 0 <= linalg_norm v.
Proof. apply sqrt_pos. Qed.

Lemma linalg_norm_cons_head (a : R) (v : list R) :
  Rabs a <= linalg_norm (a :: v).
Proof.
  unfold linalg_norm; simpl.
  rewrite <- sqrt_Rsqr_abs. apply sqrt_le_1_alt.
  unfold Rsqr; pose proof (sum_sq_nonneg v); lra.
Qed.

Lemma linalg_norm_cons_tail (a : R) (v : list R) :
  linalg_norm v <= linalg_norm (a :: v).
Proof.
  unfold linalg_norm; simpl. apply sqrt_le_1_alt. nra.
Qed.

(** Along a ray with a non-zero step the distance from the coordinate
    origin exceeds every bound. *)
Lemma path_leaves_every_ball (gv origin : list R) (limit : R) :
  List.length gv = List.length origin ->
  (exists a, In a gv /\ a <> 0) ->
  exists k, (1 <= k)%nat /\ linalg_norm (path_point gv origin k) >= limit.
Proof.
  revert origin; induction gv as [|a gv IH]; intros [|o origin] Hl [c [Hin Hc]];
    simpl in *; try contradiction; try discriminate.
  destruct (Req_dec a 0) as [Ha|Ha].
  - destruct Hin as [->|Hin]; [contradiction|].
    destruct (IH origin) as [k [Hk Hn]]; [lia | now exists c |].
    exists k; split; [exact Hk|].
    unfold path_point in *; simpl.
    eapply Rge_trans; [apply Rle_ge, linalg_norm_cons_tail | exact Hn].
  - destruct (INR_unbounded ((Rabs limit + Rabs o) / Rabs a)) as [k Hk].
    assert (Hpos : 0 < Rabs a) by now apply Rabs_pos_lt.
    exists (S k); split; [lia|].
    unfold path_point; simpl map; simpl map2.
    apply Rle_ge.
    eapply Rle_trans; [|apply linalg_norm_cons_head].
    assert (H1 : Rabs limit + Rabs o < INR k * Rabs a).
    { apply Rmult_lt_compat_r with (r := Rabs a) in Hk; [|exact Hpos].
      unfold Rdiv in Hk; rewrite Rmult_assoc, Rinv_l in Hk; lra. }
    assert (H2 : INR (S k) * Rabs a = Rabs (INR (S k) * a)).
    { rewrite Rabs_mult, (Rabs_pos_eq (INR (S k))); [reflexivity|apply pos_INR]. }
    pose proof (Rabs_triang_inv (INR (S k) * a) (- o)) as H3.
    rewrite Rabs_Ropp in H3.
    replace (INR (S k) * a - - o) with (INR (S k) * a + o) in H3 by ring.
    rewrite S_INR in *.
    pose proof (Rle_abs limit). nra.
Qed.

(** ** The prober *)

Section Prober.
Context {dolfin : Dolfin}.

Lemma probe_loop_eq function gv origin limit fuel radius k values v :
  probe_loop function gv origin limit fuel radius k values v =
  if Rlt_dec radius limit then
    match fuel with
    | O => out_of_fuel
    | S fuel =>
        val <- call function v ;;
        probe_loop function gv origin limit fuel
          (linalg_norm (path_point gv origin (S k))) (S k) (values ++ [val])
          (path_point gv origin (S k))
    end
  else ret values.
Proof. destruct fuel; reflexivity. Qed.

Lemma call_defined function q val tr :
  eval_at function q = Some val ->
  call function q tr = (Ok val, tr ++ [EvEval q]).
Proof. intros E; unfold call, bind, emit, ret; simpl; now rewrite E. Qed.

Lemma call_undefined function q tr :
  eval_at function q = None ->
  exists e, call function q tr = (Raise e, tr ++ [EvEval q]).
Proof.
  intros E; unfold call, bind, emit, raise; simpl; rewrite E; eauto.
Qed.

Lemma points_S gv origin k len :
  points gv origin k (S len) =
  path_point gv origin k :: points gv origin (S k) len.
Proof. reflexivity. Qed.

Lemma sample_cons function q pts :
  sample function (q :: pts) =
  match eval_at function q, sample function pts with
  | Some a, Some l => Some (a :: l)
  | _, _ => None
  end.
Proof. reflexivity. Qed.

(** The loop entered at step [k] with the test passing, when the points of
    the [K] steps that follow stay inside and the next one is outside:
    it evaluates the function at the steps [k, ..., k + K] in order. *)
Lemma probe_loop_exact function gv origin limit :
  forall K fuel k radius values vals tr,
    (K < fuel)%nat ->
    radius < limit ->
    (forall j, (k < j <= k + K)%nat ->
       linalg_norm (path_point gv origin j) < limit) ->
    linalg_norm (path_point gv origin (k + S K)) >= limit ->
    sample function (points gv origin k (S K)) = Some vals ->
    probe_loop function gv origin limit fuel radius k values
      (path_point gv origin k) tr
    = (Ok (values ++ vals),
       tr ++ map EvEval (points gv origin k (S K))).
Proof.
  induction K as [|K IH]; intros fuel k radius values vals tr Hf Hr Hin Hout Hs;
    rewrite probe_loop_eq; destruct (Rlt_dec radius limit) as [_|]; try lra;
    destruct fuel as [|fuel]; try lia;
    rewrite points_S in *; rewrite sample_cons in Hs;
    destruct (eval_at function (path_point gv origin k)) as [a|] eqn:Ea;
    try discriminate;
    destruct (sample function (points gv origin (S k) _)) as [l|] eqn:El;
    try discriminate;
    injection Hs as <-; unfold bind at 1; rewrite (call_defined _ _ _ _ Ea).
  - injection El as <-. rewrite probe_loop_eq.
    destruct (Rlt_dec _ limit) as [Hlt|_].
    + replace (k + 1)%nat with (S k) in Hout by lia. lra.
    + reflexivity.
  - rewrite (IH fuel (S k) _ (values ++ [a]) l).
    + simpl map. rewrite <- !app_assoc. reflexivity.
    + lia.
    + apply Hin; lia.
    + intros j Hj; apply Hin; lia.
    + replace (S k + S K)%nat with (k + S (S K))%nat by lia. exact Hout.
    + exact El.
Qed.

(** With a zero step and the start inside the ball, the loop never leaves
    its test: every round of fuel is spent on one more evaluation at the
    start. *)
Lemma probe_loop_spins function gv origin limit val :
  List.length gv = List.length origin ->
  Forall (fun c => c = 0) gv ->
  linalg_norm origin < limit ->
  eval_at function origin = Some val ->
  forall fuel k radius values tr,
    radius < limit ->
    probe_loop function gv origin limit fuel radius k values origin tr
    = (OutOfFuel, tr ++ repeat (EvEval origin) fuel).
Proof.
  intros Hl Hz Ho Ev; induction fuel as [|fuel IH]; intros k radius values tr Hr;
    rewrite probe_loop_eq; destruct (Rlt_dec radius limit) as [_|]; try lra.
  - simpl; rewrite app_nil_r; reflexivity.
  - unfold bind at 1. rewrite (call_defined _ _ _ _ Ev).
    rewrite (path_point_still _ _ _ Hl Hz), IH by exact Ho.
    rewrite <- app_assoc; reflexivity.
Qed.

Lemma dimensions_test (gv origin : list R) (self : FieldSolver) :
  dimensions_match gv origin self ->
  negb (Z.of_nat (List.length gv) =? mesh_dimension self)%Z
  || negb (Z.of_nat (List.length origin) =? mesh_dimension self)%Z = false.
Proof. intros [-> ->]; now rewrite Z.eqb_refl. Qed.

Lemma dimensions_test_fails (gv origin : list R) (self : FieldSolver) :
  Z.of_nat (List.length gv) <> mesh_dimension self \/
  Z.of_nat (List.length origin) <> mesh_dimension self ->
  negb (Z.of_nat (List.length gv) =? mesh_dimension self)%Z
  || negb (Z.of_nat (List.length origin) =? mesh_dimension self)%Z = true.
Proof.
  intros [Hd|Hd]; apply Z.eqb_neq in Hd; rewrite Hd; simpl;
    [reflexivity | apply orb_true_r].
Qed.

Lemma dimensions_lengths (gv origin : list R) (self : FieldSolver) :
  dimensions_match gv origin self -> List.length gv = List.length origin.
Proof. intros [H1 H2]; lia. Qed.

Lemma probe_function_matching (self : FieldSolver) fuel function
    (gv origin : list R) limit tr :
  dimensions_match gv origin self ->
  probe_function fuel function gv origin limit self tr =
  match probe_loop function gv origin limit fuel 0 0 []
          (path_point gv origin 0) tr with
  | (Ok values, tr') => (Ok (Some values), tr')
  | (Raise e, tr') => (Raise e, tr')
  | (OutOfFuel, tr') => (OutOfFuel, tr')
  end.
Proof.
  intros Hd. unfold probe_function.
  rewrite (dimensions_test _ _ _ Hd). reflexivity.
Qed.

Lemma evals_app (tr1 tr2 : log) : evals (tr1 ++ tr2) = evals tr1 ++ evals tr2.
Proof.
  induction tr1 as [|e tr1 IH]; simpl; [reflexivity|].
  destruct e; simpl; rewrite ?IH; reflexivity.
Qed.

(** C4 (as amended).  With matching dimensions and a non-zero direction:
    for a positive [radial_limit] the prober evaluates the function at the
    steps [k = 0, 1, ..., K - 1] in this order and returns these values,
    where [K >= 1] is the first step from 1 on whose point is at distance
    [radial_limit] or more from the coordinate origin; step 0 is sampled
    whatever the norm of [origin] is.  For a [radial_limit] that is not
    positive the result is empty and nothing is evaluated. *)
Theorem probe_function_samples (self : FieldSolver) (function : Vec)
    (gv origin : list R) (limit : R) :
  dimensions_match gv origin self ->
  (exists a, In a gv /\ a <> 0) ->
  (limit <= 0 ->
   forall fuel tr,
     probe_function fuel function gv origin limit self tr = (Ok (Some []), tr))
  /\
  (0 < limit ->
   exists K, (1 <= K)%nat /\ exit_step gv origin limit K /\
     forall fuel vals tr,
       (K <= fuel)%nat ->
       sample function (points gv origin 0 K) = Some vals ->
       probe_function fuel function gv origin limit self tr
       = (Ok (Some vals), tr ++ map EvEval (points gv origin 0 K))).
Proof.
  intros Hd Hnz; split.
  - intros Hl fuel tr. unfold probe_function.
    rewrite (dimensions_test _ _ _ Hd). unfold bind.
    rewrite probe_loop_eq. destruct (Rlt_dec 0 limit) as [Hlt|_]; [lra|].
    reflexivity.
  - intros Hl.
    pose (Q := fun k => (1 <= k)%nat /\
                        linalg_norm (path_point gv origin k) >= limit).
    destruct (dec_inh_nat_subset_has_unique_least_element Q) as [K [[HQ Hmin] _]].
    + intros k; unfold Q.
      destruct (le_dec 1 k) as [Hk|Hk];
        destruct (Rge_dec (linalg_norm (path_point gv origin k)) limit);
        tauto.
    + apply path_leaves_every_ball; [now apply (dimensions_lengths _ _ self)|exact Hnz].
    + destruct HQ as [HK Hout]. exists K; split; [exact HK|].
      assert (Hex : exit_step gv origin limit K).
      { split; [exact Hout|]. intros k Hk.
        destruct (Rlt_dec (linalg_norm (path_point gv origin k)) limit) as [Hlt|Hge];
          [exact Hlt|].
        assert (HQk : Q k) by (split; [lia | lra]).
        apply Hmin in HQk. lia. }
      split; [exact Hex|].
      intros fuel vals tr Hf Hs. unfold probe_function.
      rewrite (dimensions_test _ _ _ Hd). unfold bind.
      destruct K as [|K]; [lia|].
      rewrite (probe_loop_exact function gv origin limit K fuel 0 0 [] vals tr);
        try assumption; try lia.
      * reflexivity.
      * intros j Hj. apply (proj2 Hex). lia.
Qed.

(** C6 (as amended).  When the number of components of the direction or
    of the origin differs from the mesh dimension, the prober prints its
    two-line message, and nothing else, and returns [None]: no exception
    is raised, the function is evaluated nowhere and no linear system is
    solved. *)
Theorem probe_function_wrong_dimension (self : FieldSolver) (fuel : nat)
    (function : Vec) (gv origin : list R) (limit : R) (tr : log) :
  Z.of_nat (List.length gv) <> mesh_dimension self \/
  Z.of_nat (List.length origin) <> mesh_dimension self ->
  exists tr',
    tr' = tr ++ [EvPrint "Vectors given have the wrong dimesion.";
                 EvPrint "Mesh is %iD while 'gradient_vector' and 'origin' are dimension %i and %i, respectively."] /\
    probe_function fuel function gv origin limit self tr = (Ok None, tr') /\
    evals tr' = evals tr /\
    solves tr' = solves tr.
Proof.
  intros Hd. unfold probe_function.
  rewrite (dimensions_test_fails _ _ _ Hd).
  eexists; split; [reflexivity|].
  split; [cbv [bind print emit ret]; now rewrite <- app_assoc|].
  unfold solves; rewrite evals_app, filter_app; simpl.
  now rewrite !app_nil_r.
Qed.

(** C10.  With matching dimensions, a zero direction and the origin
    strictly inside the ball of radius [radial_limit], every step is at
    the origin, the distance keeps its value, and the sampling loop never
    ends: whatever the fuel, the prober does not return; when the function
    is defined at the origin every round of fuel goes into one more
    evaluation there. *)
Theorem probe_function_zero_direction (self : FieldSolver) (function : Vec)
    (gv origin : list R) (limit : R) :
  dimensions_match gv origin self ->
  Forall (fun c => c = 0) gv ->
  linalg_norm origin < limit ->
  (forall k, linalg_norm (path_point gv origin k) = linalg_norm origin) /\
  forall fuel tr,
    (forall out,
       fst (probe_function fuel function gv origin limit self tr) <> Ok out) /\
    (forall val, eval_at function origin = Some val ->
       probe_function fuel function gv origin limit self tr
       = (OutOfFuel, tr ++ repeat (EvEval origin) fuel)).
Proof.
  intros Hd Hz Ho.
  pose proof (dimensions_lengths _ _ _ Hd) as Hl.
  pose proof (linalg_norm_nonneg origin) as Hn.
  split; [intros k; now rewrite path_point_still|].
  intros fuel tr.
  assert (Hrun : forall val, eval_at function origin = Some val ->
            probe_function fuel function gv origin limit self tr
            = (OutOfFuel, tr ++ repeat (EvEval origin) fuel)).
  { intros val Ev. unfold probe_function.
    rewrite (dimensions_test _ _ _ Hd). unfold bind.
    rewrite path_point_start by exact Hl.
    rewrite (probe_loop_spins function gv origin limit val); auto; lra. }
  split; [|exact Hrun].
  intros out. destruct (eval_at function origin) as [val|] eqn:Ev.
  - rewrite (Hrun val eq_refl). discriminate.
  - unfold probe_function.
    rewrite (dimensions_test _ _ _ Hd). unfold bind.
    rewrite path_point_start by exact Hl.
    rewrite probe_loop_eq. destruct (Rlt_dec 0 limit) as [_|]; [|lra].
    destruct fuel as [|fuel]; [discriminate|].
    unfold bind. destruct (call_undefined function origin tr Ev) as [e ->].
    discriminate.
Qed.

End Prober.

(** ** The prober on concrete rays *)

Lemma ray_tenth_norm (k : nat) :
  linalg_norm (path_point [1 / 10; 0] [0; 0] k) = INR k / 10.
Proof.
  unfold linalg_norm, path_point, vadd, vscale; simpl.
  replace ((INR k * (1 / 10) + 0) * (INR k * (1 / 10) + 0) +
           ((INR k * 0 + 0) * (INR k * 0 + 0) + 0))
    with ((INR k / 10) * (INR k / 10)) by field.
  apply sqrt_square. pose proof (pos_INR k); lra.
Qed.

(** Direction [0.1, 0], origin [0, 0], radial limit 0.25: exactly the
    three samples of the steps 0, 1 and 2. *)
Lemma probe_function_samples_witness :
  probe_function (dolfin := Toy.plain) 3 [7] [1 / 10; 0] [0; 0] (1 / 4)
    plain_solver []
  = (Ok (Some [7; 7; 7]), map EvEval (points [1 / 10; 0] [0; 0] 0 3)).
Proof.
  destruct (probe_function_samples (dolfin := Toy.plain) plain_solver [7]
              [1 / 10; 0] [0; 0] (1 / 4)) as [_ H].
  - split; reflexivity.
  - exists (1 / 10); split; [left; reflexivity | lra].
  - destruct H as [K [HK [[Hout Hin] Hrun]]]; [lra|].
    assert (HK3 : K = 3%nat).
    { rewrite ray_tenth_norm in Hout.
      destruct K as [|[|[|[|K]]]]; simpl in Hout; try lra; try lia.
      assert (H3 : (1 <= 3 < S (S (S (S K))))%nat) by lia.
      apply Hin in H3. rewrite ray_tenth_norm in H3. simpl in H3. lra. }
    subst K. apply (Hrun 3%nat [7; 7; 7] []); [lia | reflexivity].
Defined.

(** The origin [1, 0] is outside the ball of radius 1/2, so the first step
    at distance 1/2 or more is step 0 and no step lies strictly before it;
    the prober nevertheless samples step 0. *)
Lemma probe_function_samples_counterexample :
  exists K,
    first_exit [1; 0] [1; 0] (1 / 2) K /\
    forall vals,
      sample (dolfin := Toy.plain) [7] (points [1; 0] [1; 0] 0 K) = Some vals ->
      fst (probe_function (dolfin := Toy.plain) 2 [7] [1; 0] [1; 0] (1 / 2)
             plain_solver [])
      <> Ok (Some vals).
Proof.
  exists 0%nat; split.
  - split; [|intros k Hk; lia].
    apply Rle_ge. eapply Rle_trans; [|apply linalg_norm_cons_head].
    simpl. rewrite Rabs_pos_eq; lra.
  - intros vals Hs; injection Hs as <-.
    rewrite probe_function_matching by (split; reflexivity).
    rewrite (probe_loop_exact (dolfin := Toy.plain) [7] [1; 0] [1; 0] (1 / 2)
               0 2 0 0 [] [7] []); try lia; try lra; try reflexivity.
    + simpl; discriminate.
    + apply Rle_ge. eapply Rle_trans; [|apply linalg_norm_cons_head].
      simpl. rewrite Rabs_pos_eq; lra.
Qed.

Lemma probe_function_wrong_dimension_witness :
  exists tr',
    tr' = [] ++ [EvPrint "Vectors given have the wrong dimesion.";
                 EvPrint "Mesh is %iD while 'gradient_vector' and 'origin' are dimension %i and %i, respectively."] /\
    probe_function (dolfin := Toy.plain) 1 [7] [1; 0; 0] [0; 0] 1
      plain_solver [] = (Ok None, tr') /\
    evals tr' = evals [] /\ solves tr' = solves [].
Proof.
  apply (probe_function_wrong_dimension (dolfin := Toy.plain) plain_solver
           1 [7] [1; 0; 0] [0; 0] 1 []).
  left; simpl; lia.
Defined.

(** A 3-component direction on the 2-D mesh: the call does not raise. *)
Lemma probe_function_wrong_dimension_counterexample :
  Z.of_nat (List.length [1; 0; 0]) <> mesh_dimension plain_solver /\
  ~ exists e tr',
      probe_function (dolfin := Toy.plain) 1 [7] [1; 0; 0] [0; 0] 1
        plain_solver [] = (Raise e, tr').
Proof.
  split; [simpl; lia|].
  intros [e [tr' Hr]]. unfold probe_function in Hr; simpl in Hr.
  discriminate Hr.
Qed.

Lemma probe_function_zero_direction_witness :
  probe_function (dolfin := Toy.plain) 5 [7] [0; 0] [0; 0] 1 plain_solver []
  = (OutOfFuel, repeat (EvEval [0; 0]) 5).
Proof.
  destruct (probe_function_zero_direction (dolfin := Toy.plain) plain_solver
              [7] [0; 0] [0; 0] 1) as [_ H].
  - split; reflexivity.
  - repeat constructor.
  - unfold linalg_norm; simpl.
    replace (0 * 0 + (0 * 0 + 0)) with 0 by ring. rewrite sqrt_0; lra.
  - apply (proj2 (H 5%nat [])) with (val := 7). reflexivity.
Defined.

(** ** The fifth-force locator *)

Section Locator.
Context {dolfin : Dolfin}.

Lemma solves_app (tr1 tr2 : log) :
  solves (tr1 ++ tr2) = (solves tr1 + solves tr2)%nat.
Proof. unfold solves; now rewrite filter_app, length_app. Qed.

(** The vertex loop: its result is the running maximum over the start
    value and the values at the vertices inside the band, and the point
    is replaced exactly when a vertex beats the start value. *)
Lemma scan_vertices_spec (grad_mag : Vec) (subdomain : Z)
    (boundary_distance tol : R) (g : Point.t -> R) :
  forall vertices m pp tr,
    (forall v, In v vertices ->
       qualifies subdomain boundary_distance tol v ->
       eval_at grad_mag (Point.array v) = Some (g v)) ->
    exists m' pp' tr',
      scan_vertices grad_mag subdomain boundary_distance tol vertices m pp tr
      = (Ok (m', pp'), tr') /\
      solves tr' = solves tr /\
      m <= m' /\
      (forall v, In v vertices ->
         qualifies subdomain boundary_distance tol v -> g v <= m') /\
      ((m' = m /\ pp' = pp) \/
       (m < m' /\
        exists v, In v vertices /\
          qualifies subdomain boundary_distance tol v /\
          g v = m' /\ pp' = Some v)).
Proof.
  induction vertices as [|v vertices IH]; intros m pp tr Hev.
  - exists m, pp, tr; simpl; unfold ret.
    repeat split; try reflexivity; try lra; [intros v []|now left].
  - assert (Hev' : forall u, In u vertices ->
              qualifies subdomain boundary_distance tol u ->
              eval_at grad_mag (Point.array u) = Some (g u))
      by (intros u Hu; apply Hev; now right).
    assert (Hskip : ~ qualifies subdomain boundary_distance tol v ->
              exists m' pp' tr',
                scan_vertices grad_mag subdomain boundary_distance tol
                  vertices m pp tr = (Ok (m', pp'), tr') /\
                solves tr' = solves tr /\ m <= m' /\
                (forall u, In u (v :: vertices) ->
                   qualifies subdomain boundary_distance tol u -> g u <= m') /\
                ((m' = m /\ pp' = pp) \/
                 (m < m' /\
                  exists u, In u (v :: vertices) /\
                    qualifies subdomain boundary_distance tol u /\
                    g u = m' /\ pp' = Some u))).
    { intros Hnq.
      destruct (IH m pp tr Hev') as (m' & pp' & tr' & Hr & Hs & Hm & Hmax & Hpt).
      exists m', pp', tr'; repeat split; try assumption.
      - intros u [<-|Hu] Hq; [contradiction | now apply Hmax].
      - destruct Hpt as [Hpt|[Hlt (u & Hu & Hq & Hg & Hp)]]; [now left|].
        right; split; [exact Hlt|]. exists u; auto using in_cons. }
    simpl scan_vertices.
    destruct (Rgt_dec (closest_distance subdomain v) (boundary_distance - tol / 2))
      as [Hlo|Hlo];
      [|apply Hskip; intros [H1 H2]; apply Hlo; exact H1].
    destruct (Rlt_dec (closest_distance subdomain v) (boundary_distance + tol / 2))
      as [Hhi|Hhi];
      [|apply Hskip; intros [H1 H2]; apply Hhi; exact H2].
    assert (Hq : qualifies subdomain boundary_distance tol v) by (split; assumption).
    unfold bind at 1.
    rewrite (call_defined _ _ _ _ (Hev v (or_introl eq_refl) Hq)).
    destruct (Rgt_dec (g v) m) as [Hgt|Hle].
    + destruct (IH (g v) (Some v) (tr ++ [EvEval (Point.array v)]) Hev')
        as (m' & pp' & tr' & Hr & Hs & Hm & Hmax & Hpt).
      exists m', pp', tr'; repeat split; try assumption.
      * rewrite Hs, solves_app; unfold solves; simpl; lia.
      * lra.
      * intros u [<-|Hu] Hqu; [exact Hm | now apply Hmax].
      * right. destruct Hpt as [[-> ->]|[Hlt (u & Hu & Hqu & Hg & Hp)]].
        -- split; [lra|]. exists v; auto using in_eq.
        -- split; [lra|]. exists u; auto using in_cons.
    + destruct (IH m pp (tr ++ [EvEval (Point.array v)]) Hev')
        as (m' & pp' & tr' & Hr & Hs & Hm & Hmax & Hpt).
      exists m', pp', tr'; repeat split; try assumption.
      * rewrite Hs, solves_app; unfold solves; simpl; lia.
      * intros u [<-|Hu] Hqu; [lra | now apply Hmax].
      * destruct Hpt as [Hpt|[Hlt (u & Hu & Hqu & Hg & Hp)]]; [now left|].
        right; split; [exact Hlt|]. exists u; auto using in_cons.
Qed.

(** The vertex loop over vertices none of which lies inside the band
    evaluates nothing and keeps the maximum and the point. *)
Lemma scan_vertices_none (grad_mag : Vec) (subdomain : Z)
    (boundary_distance tol : R) :
  forall vertices m pp tr,
    (forall v, In v vertices ->
       ~ qualifies subdomain boundary_distance tol v) ->
    scan_vertices grad_mag subdomain boundary_distance tol vertices m pp tr
    = (Ok (m, pp), tr).
Proof.
  induction vertices as [|v vertices IH]; intros m pp tr Hn; [reflexivity|].
  simpl scan_vertices.
  destruct (Rgt_dec (closest_distance subdomain v)
              (boundary_distance - tol / 2)) as [H1|H1];
    [destruct (Rlt_dec (closest_distance subdomain v)
                 (boundary_distance + tol / 2)) as [H2|H2];
     [destruct (Hn v (or_introl eq_refl)); split; assumption|]|];
    apply IH; intros u Hu; apply Hn; now right.
Qed.

(** The guard at the head of the locator returns the object as it is when
    the gradient magnitude is in place. *)
Lemma ensure_field_grad_mag_present (self : FieldSolver) (tr : log) :
  field_grad_mag self <> None ->
  ensure_field_grad_mag self tr = (Ok self, tr).
Proof.
  unfold ensure_field_grad_mag; destruct (field_grad_mag self);
    [reflexivity | congruence].
Qed.

(** The locator once the guard has returned, that is, with the gradient
    magnitude in place from the start or computed by the guard, when the
    sub-mesh exists: the vertex loop, on the object and the log the guard
    leaves. *)
Lemma measure_fifth_force_ensured (self s : FieldSolver) (subdomain : Z)
    (boundary_distance tol : R) (grad_mag : Vec) (vertices : list Point.t)
    (tr t : log) :
  ensure_field_grad_mag self tr = (Ok s, t) ->
  field_grad_mag s = Some grad_mag ->
  submesh_vertices subdomain = Some vertices ->
  measure_fifth_force subdomain boundary_distance tol self tr =
  match scan_vertices grad_mag subdomain boundary_distance tol vertices
          0 None (t ++ [EvSubMesh subdomain]) with
  | (Ok (m, Some q), tr') =>
      (Ok (m, (Point.x q, Point.y q, Point.z q), s), tr')
  | (Ok (m, None), tr') => (Raise no_vertex_found, tr')
  | (Raise e, tr') => (Raise e, tr')
  | (OutOfFuel, tr') => (OutOfFuel, tr')
  end.
Proof.
  intros He Hgm Hvs. unfold measure_fifth_force.
  unfold bind at 1. rewrite He. unfold bind at 1; unfold emit at 1.
  rewrite Hvs, Hgm. unfold bind.
  destruct (scan_vertices _ _ _ _ _ _ _ _) as [[[m [q|]]|e|] tr']; reflexivity.
Qed.

(** The locator once the gradient magnitude is there and the sub-mesh
    exists. *)
Lemma measure_fifth_force_cached (self : FieldSolver) (subdomain : Z)
    (boundary_distance tol : R) (grad_mag : Vec) (vertices : list Point.t)
    (tr : log) :
  field_grad_mag self = Some grad_mag ->
  submesh_vertices subdomain = Some vertices ->
  measure_fifth_force subdomain boundary_distance tol self tr =
  match scan_vertices grad_mag subdomain boundary_distance tol vertices
          0 None (tr ++ [EvSubMesh subdomain]) with
  | (Ok (m, Some q), tr') =>
      (Ok (m, (Point.x q, Point.y q, Point.z q), self), tr')
  | (Ok (m, None), tr') => (Raise no_vertex_found, tr')
  | (Raise e, tr') => (Raise e, tr')
  | (OutOfFuel, tr') => (OutOfFuel, tr')
  end.
Proof.
  intros Hgm Hvs.
  apply (measure_fifth_force_ensured self self); try assumption.
  apply ensure_field_grad_mag_present. congruence.
Qed.

(** C5 (as amended).  The locator first computes the gradient magnitude
    when it is missing (the guard at its head); [s] and [t] are the object
    and the log once the guard has returned, the object and the log of the
    call when the gradient magnitude was in place.  A vertex of the
    sub-mesh takes part exactly when its distance to the boundary lies
    strictly between [boundary_distance - tol/2] and
    [boundary_distance + tol/2].  When some such vertex has a positive
    gradient magnitude, the locator returns the largest gradient magnitude
    over these vertices together with the coordinates of a vertex that
    attains it. *)
Theorem measure_fifth_force_maximum (self s : FieldSolver) (subdomain : Z)
    (boundary_distance tol : R) (grad_mag : Vec) (vertices : list Point.t)
    (g : Point.t -> R) (tr t : log) :
  ensure_field_grad_mag self tr = (Ok s, t) ->
  field_grad_mag s = Some grad_mag ->
  submesh_vertices subdomain = Some vertices ->
  (forall v, In v vertices ->
     qualifies subdomain boundary_distance tol v ->
     eval_at grad_mag (Point.array v) = Some (g v)) ->
  (exists v, In v vertices /\
     qualifies subdomain boundary_distance tol v /\ 0 < g v) ->
  exists q tr',
    In q vertices /\
    qualifies subdomain boundary_distance tol q /\
    (forall v, In v vertices ->
       qualifies subdomain boundary_distance tol v -> g v <= g q) /\
    measure_fifth_force subdomain boundary_distance tol self tr
    = (Ok (g q, (Point.x q, Point.y q, Point.z q), s), tr').
Proof.
  intros He Hgm Hvs Hev (v & Hv & Hq & Hpos).
  rewrite (measure_fifth_force_ensured _ _ _ _ _ _ _ _ _ He Hgm Hvs).
  destruct (scan_vertices_spec grad_mag subdomain boundary_distance tol g
              vertices 0 None (t ++ [EvSubMesh subdomain]) Hev)
    as (m' & pp' & tr' & Hr & _ & Hm & Hmax & Hpt).
  rewrite Hr.
  destruct Hpt as [[-> ->]|[Hlt (q & Hqin & Hqq & Hg & ->)]].
  - pose proof (Hmax v Hv Hq). lra.
  - exists q, tr'. subst m'. auto.
Qed.

(** C7 (as amended).  The locator first computes the gradient magnitude
    when it is missing; [s] and [t] are the object and the log once that
    guard has returned.  When no vertex of the sub-mesh has its distance
    to the boundary strictly inside the band, the locator raises its
    no-vertex exception; when at least one vertex strictly inside the band
    has a positive gradient magnitude, it returns a value and a point. *)
Theorem measure_fifth_force_no_vertex (self s : FieldSolver) (subdomain : Z)
    (boundary_distance tol : R) (grad_mag : Vec) (vertices : list Point.t)
    (tr t : log) :
  ensure_field_grad_mag self tr = (Ok s, t) ->
  field_grad_mag s = Some grad_mag ->
  submesh_vertices subdomain = Some vertices ->
  ((forall v, In v vertices ->
      ~ qualifies subdomain boundary_distance tol v) ->
   measure_fifth_force subdomain boundary_distance tol self tr
   = (Raise no_vertex_found, t ++ [EvSubMesh subdomain])) /\
  (forall g : Point.t -> R,
     (forall v, In v vertices ->
        qualifies subdomain boundary_distance tol v ->
        eval_at grad_mag (Point.array v) = Some (g v)) ->
     (exists v, In v vertices /\
        qualifies subdomain boundary_distance tol v /\ 0 < g v) ->
     exists value point tr',
       measure_fifth_force subdomain boundary_distance tol self tr
       = (Ok (value, point, s), tr')).
Proof.
  intros He Hgm Hvs; split.
  - intros Hnone.
    rewrite (measure_fifth_force_ensured _ _ _ _ _ _ _ _ _ He Hgm Hvs).
    rewrite (scan_vertices_none grad_mag subdomain boundary_distance tol
               vertices 0 None (t ++ [EvSubMesh subdomain]) Hnone).
    reflexivity.
  - intros g Hev (v & Hv & Hq & Hpos).
    rewrite (measure_fifth_force_ensured _ _ _ _ _ _ _ _ _ He Hgm Hvs).
    destruct (scan_vertices_spec grad_mag subdomain boundary_distance tol g
                vertices 0 None (t ++ [EvSubMesh subdomain]) Hev)
      as (m' & pp' & tr' & Hr & _ & Hm & Hmax & Hpt).
    rewrite Hr.
    destruct Hpt as [[-> ->]|[Hlt (q & Hqin & Hqq & Hg & ->)]].
    + pose proof (Hmax v Hv Hq). lra.
    + now exists m', (Point.x q, Point.y q, Point.z q), tr'.
Qed.

End Locator.

(** ** The locator on a two-vertex sub-mesh *)

Lemma toy_solve_one (b : Vec) :
  Toy.toy_solve 1 b = Some (map (fun c => c / 1) b).
Proof. unfold Toy.toy_solve. destruct (Req_dec_T 1 0); [lra | reflexivity]. Qed.

(** The first call on [first_call_solver]: the guard computes the
    gradient magnitude, of coefficient [0 / 1], with one assembly and one
    linear solve. *)
Lemma first_call_ensured (tr : log) :
  ensure_field_grad_mag (dolfin := two_vertex_lifted) first_call_solver tr
  = (Ok (set_field_grad_mag (Some [0 / 1]) first_call_solver),
     tr ++ [EvAssemble; EvSolve "cg" "jacobi"]).
Proof.
  unfold ensure_field_grad_mag, calc_field_grad_mag, ensure_field, the_field,
    assemble_, solve.
  cbv [bind emit ret first_call_solver Toy.solver2d field field_grad_mag
       krylov_solve two_vertex_lifted Toy.backend A].
  rewrite toy_solve_one. simpl. now rewrite <- app_assoc.
Qed.

Lemma v1_in_wide_band (d : Dolfin) :
  closest_distance (Dolfin := d) 0 v1 = 1 + Point.x v1 ->
  qualifies (dolfin := d) 0 2 4 v1.
Proof. intros H. unfold qualifies. rewrite H. simpl. lra. Qed.

(** With the gradient magnitude in place, and on a first call. *)
Lemma measure_fifth_force_maximum_witness :
  (exists tr',
     measure_fifth_force (dolfin := two_vertex) 0 2 4 two_vertex_solver []
     = (Ok (5 - 0, (0, 0, 0), two_vertex_solver), tr')) /\
  (exists tr',
     measure_fifth_force (dolfin := two_vertex_lifted) 0 2 4
       first_call_solver []
     = (Ok (0 / 1 + 5 - 0, (0, 0, 0),
            set_field_grad_mag (Some [0 / 1]) first_call_solver), tr')).
Proof.
  split.
  - destruct (measure_fifth_force_maximum (dolfin := two_vertex)
                two_vertex_solver two_vertex_solver 0 2 4 [5] [v1; v2]
                (fun v => 5 - Point.x v) [] [] eq_refl eq_refl eq_refl)
      as (q & tr' & Hin & _ & Hmax & Hrun).
    + intros v _ _; reflexivity.
    + exists v1; split; [now left|].
      split; [apply v1_in_wide_band; reflexivity | simpl; lra].
    + exists tr'. rewrite Hrun.
      destruct Hin as [<-|[<-|[]]]; [reflexivity|].
      exfalso.
      pose proof (Hmax v1 (or_introl eq_refl)
                    (v1_in_wide_band two_vertex eq_refl)) as Hle.
      simpl in Hle. lra.
  - destruct (measure_fifth_force_maximum (dolfin := two_vertex_lifted)
                first_call_solver
                (set_field_grad_mag (Some [0 / 1]) first_call_solver)
                0 2 4 [0 / 1] [v1; v2]
                (fun v => 0 / 1 + 5 - Point.x v) []
                ([] ++ [EvAssemble; EvSolve "cg" "jacobi"])
                (first_call_ensured []) eq_refl eq_refl)
      as (q & tr' & Hin & _ & Hmax & Hrun).
    + intros v _ _; reflexivity.
    + exists v1; split; [now left|].
      split; [apply v1_in_wide_band; reflexivity | simpl; lra].
    + exists tr'. rewrite Hrun.
      destruct Hin as [<-|[<-|[]]]; [reflexivity|].
      exfalso.
      pose proof (Hmax v1 (or_introl eq_refl)
                    (v1_in_wide_band two_vertex_lifted eq_refl)) as Hle.
      simpl in Hle. lra.
Defined.

(** Band of centre 2 and width 2: [v1] lies on its lower end, at distance
    1, and has the largest gradient magnitude of the half-open band, 5;
    the locator returns the value 4 found at [v2]. *)
Lemma measure_fifth_force_maximum_counterexample :
  in_half_open_band (dolfin := two_vertex) 0 2 2 v1 /\
  eval_at (Dolfin := two_vertex) [5] (Point.array v1) = Some (5 - 0) /\
  exists value tr',
    measure_fifth_force (dolfin := two_vertex) 0 2 2 two_vertex_solver []
    = (Ok (value, (1, 0, 0), two_vertex_solver), tr') /\
    value < 5 - 0.
Proof.
  split; [unfold in_half_open_band; simpl; lra|].
  split; [reflexivity|].
  rewrite (measure_fifth_force_cached (dolfin := two_vertex) two_vertex_solver
             0 2 2 [5] [v1; v2] [] eq_refl eq_refl).
  simpl scan_vertices. unfold call, bind, emit, ret. simpl.
  decide_tests.
  eexists; eexists; split; [reflexivity | lra].
Qed.

(** With the gradient magnitude in place, and on a first call. *)
Lemma measure_fifth_force_no_vertex_witness :
  measure_fifth_force (dolfin := two_vertex) 0 (5 / 4) (1 / 2)
    two_vertex_solver []
  = (Raise no_vertex_found, [] ++ [EvSubMesh 0]) /\
  measure_fifth_force (dolfin := two_vertex_lifted) 0 (5 / 4) (1 / 2)
    first_call_solver []
  = (Raise no_vertex_found,
     ([] ++ [EvAssemble; EvSolve "cg" "jacobi"]) ++ [EvSubMesh 0]).
Proof.
  split.
  - apply (proj1 (measure_fifth_force_no_vertex (dolfin := two_vertex)
                    two_vertex_solver two_vertex_solver 0 (5 / 4) (1 / 2)
                    [5] [v1; v2] [] [] eq_refl eq_refl eq_refl)).
    intros v [<-|[<-|[]]]; unfold qualifies; simpl; lra.
  - apply (proj1 (measure_fifth_force_no_vertex (dolfin := two_vertex_lifted)
                    first_call_solver
                    (set_field_grad_mag (Some [0 / 1]) first_call_solver)
                    0 (5 / 4) (1 / 2) [0 / 1] [v1; v2] []
                    ([] ++ [EvAssemble; EvSolve "cg" "jacobi"])
                    (first_call_ensured []) eq_refl eq_refl)).
    intros v [<-|[<-|[]]]; unfold qualifies; simpl; lra.
Defined.

(** Band of centre 5/4 and width 1/2: [v1], at distance 1, lies on its
    lower end and so in the half-open band, with gradient magnitude 5;
    the locator raises its no-vertex exception. *)
Lemma measure_fifth_force_no_vertex_counterexample :
  (exists v, In v [v1; v2] /\
     in_half_open_band (dolfin := two_vertex) 0 (5 / 4) (1 / 2) v) /\
  fst (measure_fifth_force (dolfin := two_vertex) 0 (5 / 4) (1 / 2)
         two_vertex_solver [])
  = Raise no_vertex_found.
Proof.
  split.
  - exists v1; split; [now left|]. unfold in_half_open_band; simpl; lra.
  - rewrite (measure_fifth_force_cached (dolfin := two_vertex)
               two_vertex_solver 0 (5 / 4) (1 / 2) [5] [v1; v2] []
               eq_refl eq_refl).
    simpl scan_vertices. unfold call, bind, emit, ret. simpl.
    decide_tests. reflexivity.
Qed.

(** ** Setup *)

Lemma div_run (a b : R) (tr : log) :
  b <> 0 -> div_ a b tr = (Ok (a / b), tr).
Proof. intros Hb. unfold div_. destruct (Req_dec_T b 0); [contradiction | reflexivity]. Qed.

Lemma div_zero (a : R) (tr : log) : div_ a 0 tr = (Raise ZeroDivisionError, tr).
Proof. unfold div_. destruct (Req_dec_T 0 0); [reflexivity | contradiction]. Qed.

Lemma pow_positive (x y : R) (tr : log) :
  0 < x -> pow_ x y tr = (Ok (Rpower x y), tr).
Proof. intros Hx. unfold pow_. destruct (Rlt_dec 0 x); [reflexivity | contradiction]. Qed.

Lemma pow_zero_negative (y : R) (tr : log) :
  y < 0 -> pow_ 0 y tr = (Raise ZeroDivisionError, tr).
Proof.
  intros Hy. unfold pow_.
  destruct (Rlt_dec 0 0) as [H|_]; [lra|].
  destruct (Req_dec_T 0 0) as [_|H]; [|contradiction].
  destruct (Rlt_dec y 0); [reflexivity | contradiction].
Qed.

(** [pow] prints nothing and calls nothing. *)
Lemma pow_log (x y : R) (tr : log) : pow_ x y tr = (fst (pow_ x y []), tr).
Proof.
  unfold pow_.
  destruct (Rlt_dec 0 x); [reflexivity|].
  destruct (Req_dec_T x 0);
    [destruct (Rlt_dec y 0); [reflexivity|];
     destruct (Req_dec_T y 0); reflexivity|].
  destruct (Req_dec_T (frac_part y) 0); reflexivity.
Qed.

(** The only exception of [pow] is ZeroDivisionError. *)
Lemma pow_raises (x y : R) (e : exn) :
  fst (pow_ x y []) = Raise e -> e = ZeroDivisionError.
Proof.
  unfold pow_.
  destruct (Rlt_dec 0 x); [discriminate|].
  destruct (Req_dec_T x 0);
    [destruct (Rlt_dec y 0); [simpl; congruence|];
     destruct (Req_dec_T y 0); discriminate|].
  destruct (Req_dec_T (frac_part y) 0); discriminate.
Qed.

Lemma exponent_defined (n : Z) : n <> (-1)%Z -> IZR (n + 1) <> 0.
Proof. intros Hn H. apply eq_IZR in H. lia. Qed.

Lemma exponent_negative (n : Z) : (0 <= n)%Z -> -1 / IZR (n + 1) < 0.
Proof.
  intros Hn. assert (H : 0 < IZR (n + 1)) by (apply IZR_lt; lia).
  pose proof (Rinv_0_lt_compat _ H). unfold Rdiv. lra.
Qed.

Section Setup.
Context {dolfin : Dolfin}.

(** Line 84, [self.field_min = pow(self.density_max, -1/(self.n+1))], when
    it goes through. *)
Lemma field_min_run {B} (x : R) (n : Z) (k : R -> M B) (tr : log) :
  n <> (-1)%Z -> 0 < x ->
  (exponent <- div_ (-1) (IZR (n + 1)) ;;
   field_min <- pow_ x exponent ;;
   k field_min) tr
  = k (Rpower x (-1 / IZR (n + 1))) tr.
Proof.
  intros Hn Hx. unfold bind.
  rewrite (div_run _ _ _ (exponent_defined _ Hn)).
  now rewrite (pow_positive _ _ _ Hx).
Qed.

(** The constructor on a 3-D mesh or a 2-D cylinder slice, after the
    symmetry test. *)
Lemma init_weight_one (alpha : R) (n : Z) (density_profile : DensityProfile)
    (deg_V : Z) (tr : log) :
  weight_one density_profile ->
  __init__ alpha n density_profile deg_V tr
  = (density_projection <- interpolate_ (Density density_profile) ;;
     exponent <- div_ (-1) (IZR (n + 1)) ;;
     field_min <- pow_ (vec_max density_projection) exponent ;;
     P <- assemble_ (L_density density_profile ConstantOne) ;;
     A <- assemble_matrix_ (B_mass ConstantOne) ;;
     ret (mkFieldSolver alpha n density_profile deg_V
            (topology_dim density_profile) (symmetry density_profile)
            ConstantOne density_projection (vec_max density_projection)
            field_min None None None None None None None P A
            1 (1 / 10 ^ 14) (1 / 10 ^ 10) 1000))
      ((tr ++ [EvFunctionSpace]) ++ [EvFunctionSpace]).
Proof.
  intros [Hd|[Hd Hs]]; unfold __init__.
  - rewrite Hd. simpl Z.eqb. cbv iota. reflexivity.
  - rewrite Hd, Hs. simpl Z.eqb. cbv iota. reflexivity.
Qed.


Lemma init_weight_one_returns (alpha : R) (n : Z)
    (density_profile : DensityProfile) (deg_V : Z) (tr : log) :
  weight_one density_profile ->
  n <> (-1)%Z -> 0 < vec_max (interpolate (Density density_profile)) ->
  __init__ alpha n density_profile deg_V tr
  = (Ok (mkFieldSolver alpha n density_profile deg_V
           (topology_dim density_profile) (symmetry density_profile)
           ConstantOne (interpolate (Density density_profile))
           (vec_max (interpolate (Density density_profile)))
           (Rpower (vec_max (interpolate (Density density_profile)))
                   (-1 / IZR (n + 1)))
           None None None None None None None
           (assemble (L_density density_profile ConstantOne))
           (assemble_matrix (B_mass ConstantOne))
           1 (1 / 10 ^ 14) (1 / 10 ^ 10) 1000),
     tr ++ [EvFunctionSpace; EvFunctionSpace; EvInterpolate;
            EvAssemble; EvAssemble]).
Proof.
  intros Hw Hn Hx. rewrite (init_weight_one _ _ _ _ _ Hw).
  unfold bind at 1. unfold interpolate_ at 1, bind at 1, emit at 1, ret at 1.
  rewrite (field_min_run _ _ _ _ Hn Hx).
  cbv [bind assemble_ assemble_matrix_ emit ret].
  now rewrite <- !app_assoc.
Qed.

(** What the constructor builds when it returns. *)
Lemma init_inv alpha0 n0 (density_profile : DensityProfile) deg_V0 tr
    (self : FieldSolver) tr0 :
  __init__ alpha0 n0 density_profile deg_V0 tr = (Ok self, tr0) ->
  exists w c,
    n0 <> (-1)%Z /\
    fst (pow_ (vec_max (interpolate (Density density_profile)))
              (-1 / IZR (n0 + 1)) []) = Ok c /\
    (weight_one density_profile -> w = ConstantOne) /\
    self = mkFieldSolver alpha0 n0 density_profile deg_V0
             (topology_dim density_profile) (symmetry density_profile) w
             (interpolate (Density density_profile))
             (vec_max (interpolate (Density density_profile)))
             c
             None None None None None None None
             (assemble (L_density density_profile w))
             (assemble_matrix (B_mass w))
             1 (1 / 10 ^ 14) (1 / 10 ^ 10) 1000.
Proof.
  unfold __init__, weight_one.
  destruct (topology_dim density_profile =? 2)%Z eqn:E2;
    [destruct (symmetry density_profile =? "vertical axis-symmetry")%string eqn:Ev;
     [|destruct (symmetry density_profile =? "horizontal axis-symmetry")%string eqn:Eh;
       [|destruct (symmetry density_profile =? "cylinder slice")%string eqn:Ec]]
    |destruct (topology_dim density_profile =? 3)%Z eqn:E3];
    cbv [bind function_space interpolate_ assemble_ assemble_matrix_
      print emit ret raise div_];
    (destruct (Req_dec_T (IZR (n0 + 1)) 0) as [Hz|Hz]; [discriminate|]);
    rewrite 1?pow_log;
    (destruct (fst (pow_ (vec_max (interpolate (Density density_profile)))
                      (-1 / IZR (n0 + 1)) [])) as [c| |] eqn:Ep;
     try discriminate);
    intros Hr; try discriminate;
    injection Hr as <- _; eexists; exists c;
    (split; [intros ->; now apply Hz|]);
    (split; [reflexivity|]);
    (split; [|reflexivity]);
    try reflexivity.
  - apply String.eqb_eq in Ev. apply Z.eqb_eq in E2.
    intros [H|[_ H]]; [lia | rewrite H in Ev; discriminate].
  - apply String.eqb_eq in Eh. apply Z.eqb_eq in E2.
    intros [H|[_ H]]; [lia | rewrite H in Eh; discriminate].
Qed.

(** C9 (as amended).  On a 2-D mesh a symmetry tag other than the three
    the constructor knows ends setup with [sys.exit()] after the two
    message lines, before any function space is built and before any
    interpolation, assembly or solve.  On a 3-D mesh the tag is not looked
    at, and on a 3-D mesh or a 2-D cylinder slice setup does not end in
    [sys.exit()]: it builds the two function spaces and interpolates the
    density; then, with [n] other than -1 and a positive density maximum,
    it makes its two assemblies and returns, and with [n = -1], or with a
    density maximum of 0 and [n >= 0], it raises ZeroDivisionError at the
    minimum field value.  Whenever setup returns there, the symmetry
    weight, also in the two assembled integrals, is the constant 1. *)
Theorem init_symmetry (alpha : R) (n : Z) (density_profile : DensityProfile)
    (deg_V : Z) (tr : log) :
  (topology_dim density_profile = 2%Z ->
   symmetry density_profile <> "vertical axis-symmetry"%string ->
   symmetry density_profile <> "horizontal axis-symmetry"%string ->
   symmetry density_profile <> "cylinder slice"%string ->
   __init__ alpha n density_profile deg_V tr
   = (Raise SystemExit,
      tr ++ [EvPrint "Inputted mesh symmetry not recognised.";
             EvPrint "Terminated code prematurely."]))
  /\
  (weight_one density_profile ->
   fst (__init__ alpha n density_profile deg_V tr) <> Raise SystemExit /\
   (n <> (-1)%Z -> 0 < vec_max (interpolate (Density density_profile)) ->
    exists self,
      __init__ alpha n density_profile deg_V tr
      = (Ok self,
         tr ++ [EvFunctionSpace; EvFunctionSpace; EvInterpolate;
                EvAssemble; EvAssemble])) /\
   (n = (-1)%Z \/
    (vec_max (interpolate (Density density_profile)) = 0 /\ (0 <= n)%Z) ->
    __init__ alpha n density_profile deg_V tr
    = (Raise ZeroDivisionError,
       tr ++ [EvFunctionSpace; EvFunctionSpace; EvInterpolate])) /\
   (forall self tr',
      __init__ alpha n density_profile deg_V tr = (Ok self, tr') ->
      sym_factor self = ConstantOne /\
      P self = assemble (L_density density_profile ConstantOne) /\
      A self = assemble_matrix (B_mass ConstantOne))).
Proof.
  split.
  - intros Hd H1 H2 H3. unfold __init__. rewrite Hd. simpl Z.eqb. cbv iota.
    apply String.eqb_neq in H1, H2, H3. rewrite H1, H2, H3.
    unfold bind, print, emit, raise. simpl. now rewrite <- app_assoc.
  - intros Hw.
    assert (Hzero : n = (-1)%Z \/
              (vec_max (interpolate (Density density_profile)) = 0 /\
               (0 <= n)%Z) ->
              __init__ alpha n density_profile deg_V tr
              = (Raise ZeroDivisionError,
                 tr ++ [EvFunctionSpace; EvFunctionSpace; EvInterpolate])).
    { intros Hz. rewrite (init_weight_one _ _ _ _ _ Hw).
      unfold bind at 1. unfold interpolate_ at 1, bind at 1, emit at 1, ret at 1.
      unfold bind at 1.
      destruct Hz as [->|[Hx Hn]].
      - change (IZR (-1 + 1)) with 0. rewrite div_zero.
        now rewrite <- !app_assoc.
      - rewrite (div_run _ _ _ (exponent_defined n ltac:(lia))).
        unfold bind at 1. rewrite Hx.
        rewrite (pow_zero_negative _ _ (exponent_negative _ Hn)).
        now rewrite <- !app_assoc. }
    split; [|split; [|split]].
    + destruct (__init__ alpha n density_profile deg_V tr) as [r t] eqn:E.
      rewrite (init_weight_one _ _ _ _ _ Hw) in E.
      cbv [bind interpolate_ assemble_ assemble_matrix_ emit ret div_ raise]
        in E.
      destruct (Req_dec_T (IZR (n + 1)) 0);
        [injection E as <- _; simpl; discriminate|].
      rewrite pow_log in E.
      destruct (fst (pow_ _ _ [])) as [c|e|] eqn:Ep;
        injection E as <- _; simpl; try discriminate.
      rewrite (pow_raises _ _ _ Ep). discriminate.
    + intros Hn Hx. eexists.
      apply (init_weight_one_returns _ _ _ _ _ Hw Hn Hx).
    + exact Hzero.
    + intros self tr' Hi.
      destruct (init_inv _ _ _ _ _ _ _ Hi) as (w & c & _ & _ & Hone & ->).
      rewrite (Hone Hw). simpl. repeat split.
Qed.

End Setup.

Lemma Rpower_one (e : R) : Rpower 1 e = 1.
Proof. unfold Rpower. now rewrite ln_1, Rmult_0_r, exp_0. Qed.

Lemma unit_density_max (dim : Z) (tag : string) :
  vec_max (interpolate (Dolfin := Toy.plain) (Density (Toy.mkProfile dim tag 1)))
  = 1.
Proof. reflexivity. Qed.

(** [plain_solver] is the object the constructor builds. *)
Lemma init_solver2d :
  exists tr,
    __init__ (dolfin := Toy.plain) 1 0 Toy.unit_slice 1 [] = (Ok plain_solver, tr).
Proof.
  eexists.
  rewrite (init_weight_one_returns (dolfin := Toy.plain) 1 0 Toy.unit_slice 1 []);
    [| right; split; reflexivity | lia
     | change (0 < 1); lra].
  unfold plain_solver, Toy.solver2d. simpl. rewrite Rpower_one. reflexivity.
Qed.

(** A 2-D mesh tagged "none": setup exits.  A 3-D mesh with any tag and
    the unit density: setup returns for [n = 0] and raises
    ZeroDivisionError for [n = -1]. *)
Lemma init_symmetry_witness :
  __init__ (dolfin := Toy.plain) 1 0 (Toy.mkProfile 2 "none" 1) 1 []
  = (Raise SystemExit,
     [EvPrint "Inputted mesh symmetry not recognised.";
      EvPrint "Terminated code prematurely."]) /\
  (exists self,
     __init__ (dolfin := Toy.plain) 1 0 (Toy.mkProfile 3 "none" 1) 1 []
     = (Ok self,
        [EvFunctionSpace; EvFunctionSpace; EvInterpolate;
         EvAssemble; EvAssemble])) /\
  __init__ (dolfin := Toy.plain) 1 (-1) (Toy.mkProfile 3 "none" 1) 1 []
  = (Raise ZeroDivisionError,
     [EvFunctionSpace; EvFunctionSpace; EvInterpolate]).
Proof.
  split; [|split].
  - apply (proj1 (init_symmetry (dolfin := Toy.plain) 1 0
                    (Toy.mkProfile 2 "none" 1) 1 []));
      [reflexivity | discriminate | discriminate | discriminate].
  - apply (proj1 (proj2 (proj2 (init_symmetry (dolfin := Toy.plain) 1 0
                                  (Toy.mkProfile 3 "none" 1) 1 [])
                                (or_introl eq_refl)))).
    + lia.
    + rewrite unit_density_max; lra.
  - apply (proj1 (proj2 (proj2 (proj2 (init_symmetry (dolfin := Toy.plain)
                                         1 (-1)
                                         (Toy.mkProfile 3 "none" 1) 1 [])
                                       (or_introl eq_refl))))).
    left; reflexivity.
Defined.

(** A 3-D mesh with a tag outside the recognised set: setup succeeds. *)
Lemma init_symmetry_counterexample :
  let tag := "bogus"%string in
  tag <> "vertical axis-symmetry"%string /\
  tag <> "horizontal axis-symmetry"%string /\
  tag <> "cylinder slice"%string /\
  tag <> "none"%string /\
  exists self tr',
    __init__ (dolfin := Toy.plain) 1 0 (Toy.mkProfile 3 tag 1) 1 []
    = (Ok self, tr').
Proof.
  simpl. repeat split; try discriminate.
  eexists; eexists.
  apply (init_weight_one_returns (dolfin := Toy.plain) 1 0
           (Toy.mkProfile 3 "bogus" 1) 1 []);
    [left; reflexivity | lia | rewrite unit_density_max; lra].
Qed.

(** ** The outer iteration *)

Section Iteration.
Context {dolfin : Dolfin}.

Lemma iterations_app (tr1 tr2 : log) :
  iterations (tr1 ++ tr2) = (iterations tr1 + iterations tr2)%nat.
Proof. unfold iterations; now rewrite filter_app, length_app. Qed.

Lemma picard_loop_eq m pc prm A0 fuel i du_norm (self : FieldSolver) :
  picard_loop m pc prm A0 fuel i du_norm self =
  if Rgt_dec du_norm (tol_du self) then
    if Z_lt_dec i (maxiter self) then
      match fuel with
      | O => out_of_fuel
      | S fuel =>
          phi <- the_field self ;;
          A1 <- assemble_matrix_ (B_potential (n self) phi (sym_factor self)) ;;
          B <- assemble_ (L_picard (n self) phi (sym_factor self)) ;;
          u <- solve m pc prm
                 (mat_add (mat_scale (alpha self) A0) A1) (vsub B (P self)) ;;
          emit (EvIter (i + 1) (norm_linf (vsub u phi))) ;;;
          picard_loop m pc prm A0 fuel (i + 1) (norm_linf (vsub u phi))
            (set_field
               (Some (vadd (vscale (relaxation_parameter self) u)
                           (vscale (1 - relaxation_parameter self) phi)))
               self)
      end
    else ret (i, du_norm, self)
  else ret (i, du_norm, self).
Proof. destruct fuel; reflexivity. Qed.

Lemma newton_loop_eq m pc prm A0 fuel i du_norm (self : FieldSolver) :
  newton_loop m pc prm A0 fuel i du_norm self =
  if Rgt_dec du_norm (tol_du self) then
    if Z_lt_dec i (maxiter self) then
      match fuel with
      | O => out_of_fuel
      | S fuel =>
          phi <- the_field self ;;
          A1 <- assemble_matrix_ (B_potential (n self) phi (sym_factor self)) ;;
          B <- assemble_ (L_newton (alpha self) (n self) phi (sym_factor self)) ;;
          du <- solve m pc prm
                  (mat_add (mat_scale (alpha self) A0) A1) (vsub B (P self)) ;;
          emit (EvIter (i + 1) (norm_linf du)) ;;;
          newton_loop m pc prm A0 fuel (i + 1) (norm_linf du)
            (set_field
               (Some (vadd phi (vscale (relaxation_parameter self) du)))
               self)
      end
    else ret (i, du_norm, self)
  else ret (i, du_norm, self).
Proof. destruct fuel; reflexivity. Qed.

(** One round of either loop up to the linear solve. *)
Lemma solve_cases m pc prm K b tr :
  (exists u, krylov_solve m pc prm K b = Some u /\
     solve m pc prm K b tr = (Ok u, tr ++ [EvSolve m pc])) \/
  (krylov_solve m pc prm K b = None /\
   solve m pc prm K b tr
   = (Raise (RuntimeError "Unable to solve linear system"),
      tr ++ [EvSolve m pc])).
Proof.
  unfold solve, bind, emit, ret, raise; simpl.
  destruct (krylov_solve m pc prm K b) as [u|]; [left; eauto | right; auto].
Qed.

Lemma bounded_run_round (self0 : FieldSolver) m pc prm i tr tr1 out :
  (i < maxiter self0)%Z ->
  iterations tr1 = (iterations tr + 1)%nat ->
  solves tr1 = (solves tr + 1)%nat ->
  bounded_run self0 m pc prm (i + 1) tr1 out ->
  bounded_run self0 m pc prm i tr out.
Proof.
  unfold bounded_run. intros Hi Hit Hso (H1 & H2 & H3).
  repeat split; try lia.
  destruct (fst out) as [[[i' du'] self']|e|]; try assumption.
  destruct H3 as (F1 & F2 & F3 & F4 & F5).
  repeat split; try assumption; try lia.
Qed.

Lemma bounded_run_exit (self0 : FieldSolver) m pc prm i du_norm
    (self : FieldSolver) tr :
  field self <> None -> self = set_field (field self) self0 ->
  (du_norm > tol_du self0 -> (maxiter self0 <= i)%Z) ->
  bounded_run self0 m pc prm i tr (Ok (i, du_norm, self), tr).
Proof.
  intros Hf Hs Hex. unfold bounded_run; simpl.
  repeat split; try assumption; try lia.
Qed.

Lemma iterations_round tr m pc i du_norm :
  iterations ((((tr ++ [EvAssemble]) ++ [EvAssemble]) ++ [EvSolve m pc])
              ++ [EvIter i du_norm])
  = (iterations tr + 1)%nat /\
  solves ((((tr ++ [EvAssemble]) ++ [EvAssemble]) ++ [EvSolve m pc])
          ++ [EvIter i du_norm])
  = (solves tr + 1)%nat.
Proof.
  rewrite !iterations_app, !solves_app; unfold iterations, solves; simpl.
  split; lia.
Qed.

Lemma set_field_again (v : option Vec) (self self0 : FieldSolver) :
  self = set_field (field self) self0 ->
  set_field v self = set_field (field (set_field v self)) self0.
Proof. intros Hs; rewrite Hs; reflexivity. Qed.

Lemma set_field_config (self self0 : FieldSolver) :
  self = set_field (field self) self0 ->
  maxiter self = maxiter self0 /\ tol_du self = tol_du self0.
Proof. intros Hs; rewrite Hs; split; reflexivity. Qed.

Lemma picard_loop_bounded m pc prm A0 (self0 : FieldSolver) :
  forall fuel i du_norm (self : FieldSolver) tr,
    (Z.to_nat (maxiter self0 - i) <= fuel)%nat ->
    field self <> None -> self = set_field (field self) self0 ->
    bounded_run self0 m pc prm i tr
      (picard_loop m pc prm A0 fuel i du_norm self tr).
Proof.
  induction fuel as [|fuel IH]; intros i du_norm self tr Hfuel Hfield Hs;
    destruct (set_field_config _ _ Hs) as [Hm Ht];
    rewrite picard_loop_eq;
    (destruct (Rgt_dec du_norm (tol_du self)) as [Hgt|Hle];
     [destruct (Z_lt_dec i (maxiter self)) as [Hlt|Hge]|]);
    try (apply bounded_run_exit; try assumption; intros; lia || lra).
  - lia.
  - destruct (field self) as [phi|] eqn:Ephi; [clear Hfield|congruence].
    unfold the_field; rewrite Ephi.
    unfold bind, assemble_matrix_, assemble_, emit, ret. simpl.
    match goal with
    | |- context [solve m pc prm ?K ?b ?t] =>
        destruct (solve_cases m pc prm K b t) as [[u [Hk ->]]|[Hk ->]]
    end.
    + destruct (iterations_round tr m pc (i + 1) (norm_linf (vsub u phi)))
        as [Hit Hso].
      eapply bounded_run_round; [lia | exact Hit | exact Hso |].
      apply IH; [lia | discriminate |].
      apply set_field_again. now rewrite Ephi.
    + unfold bounded_run; simpl.
      rewrite !iterations_app, !solves_app; unfold iterations, solves; simpl.
      repeat split; try lia. eauto.
Qed.

Lemma newton_loop_bounded m pc prm A0 (self0 : FieldSolver) :
  forall fuel i du_norm (self : FieldSolver) tr,
    (Z.to_nat (maxiter self0 - i) <= fuel)%nat ->
    field self <> None -> self = set_field (field self) self0 ->
    bounded_run self0 m pc prm i tr
      (newton_loop m pc prm A0 fuel i du_norm self tr).
Proof.
  induction fuel as [|fuel IH]; intros i du_norm self tr Hfuel Hfield Hs;
    destruct (set_field_config _ _ Hs) as [Hm Ht];
    rewrite newton_loop_eq;
    (destruct (Rgt_dec du_norm (tol_du self)) as [Hgt|Hle];
     [destruct (Z_lt_dec i (maxiter self)) as [Hlt|Hge]|]);
    try (apply bounded_run_exit; try assumption; intros; lia || lra).
  - lia.
  - destruct (field self) as [phi|] eqn:Ephi; [clear Hfield|congruence].
    unfold the_field; rewrite Ephi.
    unfold bind, assemble_matrix_, assemble_, emit, ret. simpl.
    match goal with
    | |- context [solve m pc prm ?K ?b ?t] =>
        destruct (solve_cases m pc prm K b t) as [[u [Hk ->]]|[Hk ->]]
    end.
    + destruct (iterations_round tr m pc (i + 1) (norm_linf u)) as [Hit Hso].
      eapply bounded_run_round; [lia | exact Hit | exact Hso |].
      apply IH; [lia | discriminate |].
      apply set_field_again. now rewrite Ephi.
    + unfold bounded_run; simpl.
      rewrite !iterations_app, !solves_app; unfold iterations, solves; simpl.
      repeat split; try lia. eauto.
Qed.

Lemma picard_run_bounded m pc (self : FieldSolver) tr :
  bounded_run self m pc (solver_parameters self) 0 tr (picard_run m pc self tr).
Proof.
  unfold picard_run, bind, assemble_matrix_, interpolate_, emit, ret; simpl.
  pose proof (picard_loop_bounded m pc (solver_parameters self)
                (assemble_matrix (B_stiffness (sym_factor self)))
                self (Z.to_nat (maxiter self)) 0 1
                (set_field (Some (interpolate (Constant (field_min self)))) self)
                ((tr ++ [EvAssemble]) ++ [EvInterpolate])) as Hb.
  unfold bounded_run in *.
  rewrite !iterations_app, !solves_app in Hb; unfold iterations, solves in *;
    simpl in Hb.
  rewrite !Nat.add_0_r in Hb. apply Hb; try reflexivity; try discriminate.
  rewrite Z.sub_0_r; lia.
Qed.

Lemma newton_run_bounded m pc (self : FieldSolver) tr :
  bounded_run self m pc (solver_parameters self) 0 tr (newton_run m pc self tr).
Proof.
  unfold newton_run, bind, assemble_matrix_, interpolate_, emit, ret; simpl.
  pose proof (newton_loop_bounded m pc (solver_parameters self)
                (assemble_matrix (B_stiffness (sym_factor self)))
                self (Z.to_nat (maxiter self)) 0 1
                (set_field (Some (interpolate (Constant (field_min self)))) self)
                ((tr ++ [EvAssemble]) ++ [EvInterpolate])) as Hb.
  unfold bounded_run in *.
  rewrite !iterations_app, !solves_app in Hb; unfold iterations, solves in *;
    simpl in Hb.
  rewrite !Nat.add_0_r in Hb. apply Hb; try reflexivity; try discriminate.
  rewrite Z.sub_0_r; lia.
Qed.

Lemma picard_returned m pc (self : FieldSolver) tr :
  picard m pc self tr = returned_object (picard_run m pc self tr).
Proof.
  unfold picard, bind, returned_object, ret.
  destruct (picard_run m pc self tr) as [[r|e|] tr']; reflexivity.
Qed.

Lemma newton_returned m pc (self : FieldSolver) tr :
  newton m pc self tr = returned_object (newton_run m pc self tr).
Proof.
  unfold newton, bind, returned_object, ret.
  destruct (newton_run m pc self tr) as [[r|e|] tr']; reflexivity.
Qed.

(** C2.  For the Picard and for the Newton solve alike: the outer loop
    runs at most [maxiter] rounds (iteration lines printed, linear solves
    issued); the method never fails to terminate; it returns normally,
    with a field stored in the object, also when the count has reached
    [maxiter] with [du_norm] still above [tol_du]; and the only exception
    that can leave it is the one raised by a failed linear solve. *)
Theorem outer_loop_bounded (solver_method preconditioner : string)
    (self : FieldSolver) (tr : log) :
  bounded_run self solver_method preconditioner (solver_parameters self) 0 tr
    (picard_run solver_method preconditioner self tr) /\
  picard solver_method preconditioner self tr
  = returned_object (picard_run solver_method preconditioner self tr) /\
  bounded_run self solver_method preconditioner (solver_parameters self) 0 tr
    (newton_run solver_method preconditioner self tr) /\
  newton solver_method preconditioner self tr
  = returned_object (newton_run solver_method preconditioner self tr).
Proof.
  split; [apply picard_run_bounded|].
  split; [apply picard_returned|].
  split; [apply newton_run_bounded | apply newton_returned].
Qed.

End Iteration.

(** ** A run that stops at [maxiter] *)

Lemma picard_maxiter_one :
  exists du_norm self' tr',
    picard_run (dolfin := Toy.sloppy) "cg" "default" one_round_solver []
    = (Ok (1%Z, du_norm, self'), tr') /\
    du_norm > tol_du one_round_solver /\
    iterations tr' = 1%nat /\
    field self' <> None.
Proof.
  unfold picard_run, bind, assemble_matrix_, interpolate_, emit, ret. simpl.
  destruct (Rgt_dec 1 _) as [_|Hn]; [|exfalso; apply Hn; lra].
  unfold bind, the_field, assemble_matrix_, assemble_, solve, emit, ret. simpl.
  unfold Toy.coef; simpl. rewrite !Rpower_one.
  replace (Rmax _ 0) with 1.
  - destruct (Rgt_dec 1 _) as [_|_];
      (eexists; eexists; eexists; split; [reflexivity|];
       split; [lra|]; split; [reflexivity | discriminate]).
  - replace ((2 * 1 - 1) / (1 * 0 + 1 * 1) + 1 - 1) with 1 by field.
    rewrite Rabs_R1. rewrite Rmax_left; lra.
Qed.

(** ** The derived fields and the solve they may start *)

Section Derived.
Context {dolfin : Dolfin}.

(** A Picard solve that returns leaves a field, and nothing else of the
    object changes. *)
Lemma picard_leaves_field m pc (self self' : FieldSolver) tr tr' :
  picard m pc self tr = (Ok self', tr') ->
  field self' <> None /\ self' = set_field (field self') self.
Proof.
  rewrite picard_returned. intros Hp.
  pose proof (picard_run_bounded m pc self tr) as (_ & _ & Hb).
  destruct (picard_run m pc self tr) as [[[[i du] s]|e|] tr1];
    simpl in *; try discriminate.
  injection Hp as <- <-. tauto.
Qed.

Lemma ensure_field_present (self : FieldSolver) :
  field self <> None -> ensure_field self = ret self.
Proof. unfold ensure_field; destruct (field self); congruence. Qed.



End Derived.

(** ** Calling a derived-field operation again *)

Section Recompute.
Context {dolfin : Dolfin}.

Lemma set_field_same (self : FieldSolver) : self = set_field (field self) self.
Proof. destruct self; reflexivity. Qed.

Lemma ensure_field_ok (self s : FieldSolver) tr t :
  ensure_field self tr = (Ok s, t) ->
  field s <> None /\ s = set_field (field s) self.
Proof.
  unfold ensure_field. destruct (field self) as [phi|] eqn:Ef.
  - unfold ret; intros Hr; injection Hr as <- <-.
    split; [congruence | apply set_field_same].
  - apply picard_leaves_field.
Qed.

(** The operations once the slots they read are present. *)
Lemma calc_field_grad_vector_present m pc (self : FieldSolver) phi tr :
  field self = Some phi ->
  calc_field_grad_vector m pc self tr
  = project m pc (solver_parameters self) [EvAssemble; EvAssemble]
      (assemble_matrix (B_vector_mass (sym_factor self)))
      (assemble (L_grad phi (sym_factor self)))
      (fun g => set_field_grad (Some g) self) tr.
Proof.
  intros Hf. unfold calc_field_grad_vector, ensure_field, the_field, project.
  rewrite Hf. unfold assemble_matrix_, assemble_, solve, bind, emit, ret, raise.
  simpl. rewrite Hf.
  destruct (krylov_solve _ _ _ _ _); simpl; now rewrite <- !app_assoc.
Qed.

Lemma calc_field_grad_mag_present m pc (self : FieldSolver) phi tr :
  field self = Some phi ->
  calc_field_grad_mag m pc self tr
  = project m pc (solver_parameters self) [EvAssemble] (A self)
      (assemble (L_grad_mag phi (sym_factor self)))
      (fun g => set_field_grad_mag (Some g) self) tr.
Proof.
  intros Hf. unfold calc_field_grad_mag, ensure_field, the_field, project.
  rewrite Hf. unfold assemble_, solve, bind, emit, ret, raise.
  simpl. rewrite Hf.
  destruct (krylov_solve _ _ _ _ _); simpl; now rewrite <- !app_assoc.
Qed.

Lemma calc_field_residual_present m pc (self : FieldSolver) phi g tr :
  field self = Some phi -> field_grad self = Some g ->
  calc_field_residual m pc self tr
  = project m pc (solver_parameters self) [EvAssemble] (A self)
      (assemble (L_residual (alpha self) (n self) g phi (p self)
                   (sym_factor self)))
      (fun r => set_residual (Some r) self) tr.
Proof.
  intros Hf Hg.
  unfold calc_field_residual, ensure_field, ensure_field_grad, the_field,
    the_field_grad, project.
  rewrite Hf. unfold assemble_, solve, bind, emit, ret, raise.
  simpl. rewrite Hg. simpl. rewrite Hg, Hf.
  destruct (krylov_solve _ _ _ _ _); simpl; now rewrite <- !app_assoc.
Qed.

Lemma calc_laplacian_present m pc (self : FieldSolver) g tr :
  field_grad self = Some g ->
  calc_laplacian m pc self tr
  = project m pc (solver_parameters self) [EvAssemble] (A self)
      (assemble (L_laplacian g (sym_factor self)))
      (fun l => set_laplacian (Some l) self) tr.
Proof.
  intros Hg.
  unfold calc_laplacian, ensure_field_grad, the_field_grad, project.
  rewrite Hg. unfold assemble_, solve, bind, emit, ret, raise.
  simpl. rewrite Hg.
  destruct (krylov_solve _ _ _ _ _); simpl; now rewrite <- !app_assoc.
Qed.

Lemma calc_potential_derivative_present m pc (self : FieldSolver) phi tr :
  field self = Some phi ->
  calc_potential_derivative m pc self tr
  = project m pc (solver_parameters self) [EvAssemble] (A self)
      (assemble (L_potential (n self) phi (sym_factor self)))
      (fun d => set_potential_derivative (Some d) self) tr.
Proof.
  intros Hf. unfold calc_potential_derivative, ensure_field, the_field, project.
  rewrite Hf. unfold assemble_, solve, bind, emit, ret, raise.
  simpl. rewrite Hf.
  destruct (krylov_solve _ _ _ _ _); simpl; now rewrite <- !app_assoc.
Qed.

Lemma project_inv m pc prm pre K b store tr (s1 : FieldSolver) tr1 :
  project m pc prm pre K b store tr = (Ok s1, tr1) ->
  exists x,
    krylov_solve m pc prm K b = Some x /\ s1 = store x /\
    tr1 = tr ++ pre ++ [EvSolve m pc].
Proof.
  unfold project. destruct (krylov_solve m pc prm K b) as [x|];
    intros Hr; [|discriminate].
  injection Hr as <- <-. now exists x.
Qed.

Lemma project_run m pc prm pre K b store tr x :
  krylov_solve m pc prm K b = Some x ->
  project m pc prm pre K b store tr
  = (Ok (store x : FieldSolver), tr ++ pre ++ [EvSolve m pc]).
Proof. intros Hk; unfold project; now rewrite Hk. Qed.

Lemma ensure_field_grad_present (self : FieldSolver) :
  field_grad self <> None -> ensure_field_grad self = ret self.
Proof. unfold ensure_field_grad; destruct (field_grad self); congruence. Qed.

Lemma calc_field_grad_vector_ok m pc (self s : FieldSolver) tr t :
  calc_field_grad_vector m pc self tr = (Ok s, t) ->
  exists s0 t0 phi,
    ensure_field self tr = (Ok s0, t0) /\ field s0 = Some phi /\
    calc_field_grad_vector m pc s0 t0 = (Ok s, t).
Proof.
  intros Hr. unfold calc_field_grad_vector in Hr. unfold bind at 1 in Hr.
  destruct (ensure_field self tr) as [[s0|e|] t0] eqn:E0; try discriminate.
  destruct (ensure_field_ok _ _ _ _ E0) as [Hf _].
  destruct (field s0) as [phi|] eqn:Ef; [|congruence].
  exists s0, t0, phi; repeat split; try assumption.
  unfold calc_field_grad_vector. unfold bind at 1.
  rewrite ensure_field_present by congruence. exact Hr.
Qed.

Lemma ensure_field_grad_ok (self s : FieldSolver) tr t :
  ensure_field_grad self tr = (Ok s, t) ->
  field_grad s <> None /\ (field self <> None -> field s <> None).
Proof.
  unfold ensure_field_grad. destruct (field_grad self) as [g|] eqn:Eg.
  - unfold ret; intros Hr; injection Hr as <- <-. split; congruence.
  - intros Hr.
    destruct (calc_field_grad_vector_ok _ _ _ _ _ _ Hr)
      as (s0 & t0 & phi & _ & Hf & Hc).
    rewrite (calc_field_grad_vector_present _ _ _ _ _ Hf) in Hc.
    apply project_inv in Hc as (x & _ & -> & _). simpl.
    split; [discriminate | intros _; congruence].
Qed.

(** Each operation, called again on the object a first call returned,
    makes its linear solve once more and leaves the object as it is. *)
Lemma calc_field_grad_vector_again m pc (self s1 : FieldSolver) tr tr1 :
  calc_field_grad_vector m pc self tr = (Ok s1, tr1) ->
  calc_field_grad_vector m pc s1 tr1
  = (Ok s1, tr1 ++ [EvAssemble; EvAssemble; EvSolve m pc]).
Proof.
  intros Hr.
  destruct (calc_field_grad_vector_ok _ _ _ _ _ _ Hr)
    as (s0 & t0 & phi & _ & Hf & Hc).
  rewrite (calc_field_grad_vector_present _ _ _ _ _ Hf) in Hc.
  apply project_inv in Hc as (x & Hk & -> & _).
  rewrite (calc_field_grad_vector_present _ _ _ phi) by exact Hf.
  now rewrite (project_run _ _ _ _ _ _ _ _ x) by exact Hk.
Qed.

Lemma calc_field_grad_mag_again m pc (self s1 : FieldSolver) tr tr1 :
  calc_field_grad_mag m pc self tr = (Ok s1, tr1) ->
  calc_field_grad_mag m pc s1 tr1 = (Ok s1, tr1 ++ [EvAssemble; EvSolve m pc]).
Proof.
  intros Hr. unfold calc_field_grad_mag in Hr. unfold bind at 1 in Hr.
  destruct (ensure_field self tr) as [[s0|e|] t0] eqn:E0; try discriminate.
  destruct (ensure_field_ok _ _ _ _ E0) as [Hf _].
  destruct (field s0) as [phi|] eqn:Ef; [clear Hf|congruence].
  assert (Hc : calc_field_grad_mag m pc s0 t0 = (Ok s1, tr1)).
  { unfold calc_field_grad_mag. unfold bind at 1.
    rewrite ensure_field_present by congruence. exact Hr. }
  rewrite (calc_field_grad_mag_present _ _ _ _ _ Ef) in Hc.
  apply project_inv in Hc as (x & Hk & -> & _).
  rewrite (calc_field_grad_mag_present _ _ _ phi) by exact Ef.
  now rewrite (project_run _ _ _ _ _ _ _ _ x) by exact Hk.
Qed.

Lemma calc_potential_derivative_again m pc (self s1 : FieldSolver) tr tr1 :
  calc_potential_derivative m pc self tr = (Ok s1, tr1) ->
  calc_potential_derivative m pc s1 tr1
  = (Ok s1, tr1 ++ [EvAssemble; EvSolve m pc]).
Proof.
  intros Hr. unfold calc_potential_derivative in Hr. unfold bind at 1 in Hr.
  destruct (ensure_field self tr) as [[s0|e|] t0] eqn:E0; try discriminate.
  destruct (ensure_field_ok _ _ _ _ E0) as [Hf _].
  destruct (field s0) as [phi|] eqn:Ef; [clear Hf|congruence].
  assert (Hc : calc_potential_derivative m pc s0 t0 = (Ok s1, tr1)).
  { unfold calc_potential_derivative. unfold bind at 1.
    rewrite ensure_field_present by congruence. exact Hr. }
  rewrite (calc_potential_derivative_present _ _ _ _ _ Ef) in Hc.
  apply project_inv in Hc as (x & Hk & -> & _).
  rewrite (calc_potential_derivative_present _ _ _ phi) by exact Ef.
  now rewrite (project_run _ _ _ _ _ _ _ _ x) by exact Hk.
Qed.

Lemma calc_laplacian_again m pc (self s1 : FieldSolver) tr tr1 :
  calc_laplacian m pc self tr = (Ok s1, tr1) ->
  calc_laplacian m pc s1 tr1 = (Ok s1, tr1 ++ [EvAssemble; EvSolve m pc]).
Proof.
  intros Hr. unfold calc_laplacian in Hr. unfold bind at 1 in Hr.
  destruct (ensure_field_grad self tr) as [[s0|e|] t0] eqn:E0; try discriminate.
  destruct (ensure_field_grad_ok _ _ _ _ E0) as [Hg _].
  destruct (field_grad s0) as [g|] eqn:Eg; [clear Hg|congruence].
  assert (Hc : calc_laplacian m pc s0 t0 = (Ok s1, tr1)).
  { unfold calc_laplacian. unfold bind at 1.
    rewrite ensure_field_grad_present by congruence. exact Hr. }
  rewrite (calc_laplacian_present _ _ _ _ _ Eg) in Hc.
  apply project_inv in Hc as (x & Hk & -> & _).
  rewrite (calc_laplacian_present _ _ _ g) by exact Eg.
  now rewrite (project_run _ _ _ _ _ _ _ _ x) by exact Hk.
Qed.

Lemma calc_field_residual_again m pc (self s1 : FieldSolver) tr tr1 :
  calc_field_residual m pc self tr = (Ok s1, tr1) ->
  calc_field_residual m pc s1 tr1 = (Ok s1, tr1 ++ [EvAssemble; EvSolve m pc]).
Proof.
  intros Hr. unfold calc_field_residual in Hr. unfold bind at 1 in Hr.
  destruct (ensure_field self tr) as [[s0|e|] t0] eqn:E0; try discriminate.
  destruct (ensure_field_ok _ _ _ _ E0) as [Hf _].
  unfold bind at 1 in Hr.
  destruct (ensure_field_grad s0 t0) as [[s2|e|] t2] eqn:E2; try discriminate.
  destruct (ensure_field_grad_ok _ _ _ _ E2) as [Hg Hf2].
  specialize (Hf2 Hf).
  destruct (field s2) as [phi|] eqn:Ef; [clear Hf2|congruence].
  destruct (field_grad s2) as [g|] eqn:Eg; [clear Hg|congruence].
  assert (Hc : calc_field_residual m pc s2 t2 = (Ok s1, tr1)).
  { unfold calc_field_residual. unfold bind at 1.
    rewrite ensure_field_present by congruence. unfold ret at 1.
    unfold bind at 1.
    rewrite ensure_field_grad_present by congruence. exact Hr. }
  rewrite (calc_field_residual_present _ _ _ _ _ _ Ef Eg) in Hc.
  apply project_inv in Hc as (x & Hk & -> & _).
  rewrite (calc_field_residual_present _ _ _ phi g) by assumption.
  now rewrite (project_run _ _ _ _ _ _ _ _ x) by exact Hk.
Qed.

Lemma call_log function q tr :
  snd (call function q tr) = tr ++ [EvEval q].
Proof.
  unfold call, bind, emit, ret, raise; simpl.
  destruct (eval_at function q); reflexivity.
Qed.

Lemma scan_vertices_no_solve grad_mag subdomain boundary_distance tol :
  forall vertices m pp tr,
    solves (snd (scan_vertices grad_mag subdomain boundary_distance tol
                   vertices m pp tr))
    = solves tr.
Proof.
  induction vertices as [|v vertices IH]; intros m pp tr; simpl; [reflexivity|].
  destruct (Rgt_dec _ _); [|apply IH].
  destruct (Rlt_dec _ _); [|apply IH].
  unfold bind.
  pose proof (call_log grad_mag (Point.array v) tr) as Hl.
  destruct (call grad_mag (Point.array v) tr) as [[ff|e|] t]; simpl in Hl; subst t.
  - destruct (Rgt_dec ff m); rewrite IH, solves_app; unfold solves; simpl; lia.
  - simpl. rewrite solves_app; unfold solves; simpl; lia.
  - simpl. rewrite solves_app; unfold solves; simpl; lia.
Qed.

(** The locator with the gradient magnitude in place: no linear solve, and
    the object it gives back is the one it was given. *)
Lemma measure_fifth_force_no_solve (self : FieldSolver) subdomain
    boundary_distance tol grad_mag tr :
  field_grad_mag self = Some grad_mag ->
  solves (snd (measure_fifth_force subdomain boundary_distance tol self tr))
  = solves tr /\
  forall value point s',
    fst (measure_fifth_force subdomain boundary_distance tol self tr)
    = Ok (value, point, s') ->
    s' = self.
Proof.
  intros Hg.
  destruct (submesh_vertices subdomain) as [vertices|] eqn:Ev.
  - rewrite (measure_fifth_force_cached _ _ _ _ _ _ _ Hg Ev).
    pose proof (scan_vertices_no_solve grad_mag subdomain boundary_distance tol
                  vertices 0 None (tr ++ [EvSubMesh subdomain])) as Hs.
    destruct (scan_vertices _ _ _ _ _ _ _ _) as [[[m [q|]]|e|] t];
      simpl in *; rewrite Hs, solves_app; unfold solves; simpl;
      (split; [lia|]); intros value point s' Hr; try discriminate.
    congruence.
  - unfold measure_fifth_force, ensure_field_grad_mag. rewrite Hg.
    unfold bind, ret, emit, raise. simpl. rewrite Ev. simpl.
    rewrite solves_app; unfold solves; simpl.
    split; [lia | discriminate].
Qed.

(** C3 (as amended).  Each of the five projected slots (gradient field,
    gradient magnitude, residual, Laplacian, potential derivative): when
    the operation that computes it is invoked again on the object a first
    invocation returned, without an intervening solve, it recomputes the
    slot: it assembles its right-hand side and issues one more backend
    linear solve, and stores the same value again, so that the object is
    unchanged.  The density field is interpolated again, with no linear
    solve, and the object is unchanged.  The computation is skipped only
    by a caller that tests the slot: the locator, given an object whose
    gradient magnitude is not [None], issues no linear solve and leaves
    the object as it is. *)
Theorem derived_fields_recomputed (solver_method preconditioner : string)
    (self s1 : FieldSolver) (tr tr1 : log) :
  (calc_field_grad_vector solver_method preconditioner self tr = (Ok s1, tr1) ->
   calc_field_grad_vector solver_method preconditioner s1 tr1
   = (Ok s1, tr1 ++ [EvAssemble; EvAssemble;
                     EvSolve solver_method preconditioner])) /\
  (calc_field_grad_mag solver_method preconditioner self tr = (Ok s1, tr1) ->
   calc_field_grad_mag solver_method preconditioner s1 tr1
   = (Ok s1, tr1 ++ [EvAssemble; EvSolve solver_method preconditioner])) /\
  (calc_field_residual solver_method preconditioner self tr = (Ok s1, tr1) ->
   calc_field_residual solver_method preconditioner s1 tr1
   = (Ok s1, tr1 ++ [EvAssemble; EvSolve solver_method preconditioner])) /\
  (calc_laplacian solver_method preconditioner self tr = (Ok s1, tr1) ->
   calc_laplacian solver_method preconditioner s1 tr1
   = (Ok s1, tr1 ++ [EvAssemble; EvSolve solver_method preconditioner])) /\
  (calc_potential_derivative solver_method preconditioner self tr
   = (Ok s1, tr1) ->
   calc_potential_derivative solver_method preconditioner s1 tr1
   = (Ok s1, tr1 ++ [EvAssemble; EvSolve solver_method preconditioner])) /\
  (calc_density_field self tr = (Ok s1, tr1) ->
   calc_density_field s1 tr1 = (Ok s1, tr1 ++ [EvInterpolate])) /\
  (forall subdomain boundary_distance tol,
     field_grad_mag self <> None ->
     solves (snd (measure_fifth_force subdomain boundary_distance tol self tr))
     = solves tr /\
     forall value point s',
       fst (measure_fifth_force subdomain boundary_distance tol self tr)
       = Ok (value, point, s') ->
       s' = self).
Proof.
  split; [apply calc_field_grad_vector_again|].
  split; [apply calc_field_grad_mag_again|].
  split; [apply calc_field_residual_again|].
  split; [apply calc_laplacian_again|].
  split; [apply calc_potential_derivative_again|].
  split.
  - unfold calc_density_field, interpolate_, bind, emit, ret; simpl.
    intros Hr; injection Hr as <- <-. reflexivity.
  - intros subdomain boundary_distance tol Hg.
    destruct (field_grad_mag self) as [g|] eqn:Eg; [|congruence].
    now apply (measure_fifth_force_no_solve _ _ _ _ g).
Qed.

End Recompute.

(** ** Derived fields on an object without a field *)

Section DerivedStart.
Context {dolfin : Dolfin}.









End DerivedStart.




(** ** Calling the gradient magnitude twice *)

Lemma calc_field_grad_mag_solved tr :
  calc_field_grad_mag (dolfin := Toy.plain) "cg" "jacobi" solved_solver tr
  = (Ok solved_solver, tr ++ [EvAssemble; EvSolve "cg" "jacobi"]).
Proof.
  rewrite (calc_field_grad_mag_present (dolfin := Toy.plain) _ _ _ [1])
    by reflexivity.
  unfold project. simpl. rewrite toy_solve_one. reflexivity.
Qed.

Lemma derived_fields_recomputed_witness :
  calc_field_grad_mag (dolfin := Toy.plain) "cg" "jacobi" solved_solver
    [EvAssemble; EvSolve "cg" "jacobi"]
  = (Ok solved_solver,
     [EvAssemble; EvSolve "cg" "jacobi"] ++ [EvAssemble; EvSolve "cg" "jacobi"]).
Proof.
  apply (proj1 (proj2 (derived_fields_recomputed (dolfin := Toy.plain)
                         "cg" "jacobi" solved_solver solved_solver [] _))).
  apply (calc_field_grad_mag_solved []).
Defined.

(** The gradient-magnitude slot is not [None], and invoking the operation
    that computes it issues a new backend linear solve. *)
Lemma derived_fields_recomputed_counterexample :
  field_grad_mag solved_solver <> None /\
  solves (snd (calc_field_grad_mag (dolfin := Toy.plain) "cg" "jacobi"
                 solved_solver []))
  <> solves [].
Proof.
  split; [discriminate|].
  rewrite calc_field_grad_mag_solved. simpl. discriminate.
Qed.

(** ** A constant density *)

Lemma vscale_repeat (a c : R) (N : nat) :
  vscale a (repeat c N) = repeat (a * c) N.
Proof. unfold vscale; apply map_repeat. Qed.

Lemma vadd_repeat (a b : R) (N : nat) :
  vadd (repeat a N) (repeat b N) = repeat (a + b) N.
Proof. induction N as [|N IH]; simpl; [reflexivity|]. unfold vadd in *; simpl; now rewrite IH. Qed.

Lemma vsub_repeat (a b : R) (N : nat) :
  vsub (repeat a N) (repeat b N) = repeat (a - b) N.
Proof. induction N as [|N IH]; simpl; [reflexivity|]. unfold vsub in *; simpl; now rewrite IH. Qed.

Lemma vadd_zeros_l (y : Vec) : vadd (repeat 0 (List.length y)) y = y.
Proof.
  induction y as [|a y IH]; simpl; [reflexivity|].
  unfold vadd in *; simpl; rewrite IH; f_equal; lra.
Qed.

Lemma vadd_zeros_len (N : nat) (y : Vec) :
  List.length y = N -> vadd (repeat 0 N) y = y.
Proof. intros <-; apply vadd_zeros_l. Qed.

Lemma vscale_length (a : R) (y : Vec) :
  List.length (vscale a y) = List.length y.
Proof. apply length_map. Qed.

Lemma vscale_vscale (a b : R) (y : Vec) :
  vscale a (vscale b y) = vscale (a * b) y.
Proof.
  unfold vscale; rewrite map_map; apply map_ext; intros; ring.
Qed.

Lemma vsub_vscale (a b : R) (y : Vec) :
  vsub (vscale a y) (vscale b y) = vscale (a - b) y.
Proof.
  induction y as [|c y IH]; simpl; [reflexivity|].
  unfold vsub, vscale in *; simpl; rewrite IH; f_equal; ring.
Qed.

Lemma vscale_zero (y : Vec) : vscale 0 y = repeat 0 (List.length y).
Proof.
  induction y as [|c y IH]; simpl; [reflexivity|].
  unfold vscale in *; simpl; rewrite IH; f_equal; ring.
Qed.

Lemma norm_linf_zeros (N : nat) : norm_linf (repeat 0 N) = 0.
Proof.
  induction N as [|N IH]; simpl; [reflexivity|].
  unfold norm_linf in *; simpl; rewrite IH, Rabs_R0. apply Rmax_left; lra.
Qed.

Lemma vec_max_repeat (c : R) (N : nat) : (0 < N)%nat -> vec_max (repeat c N) = c.
Proof.
  destruct N as [|N]; [lia|intros _].
  induction N as [|N IH]; [reflexivity|].
  change (vec_max (repeat c (S (S N))))
    with (Rmax c (vec_max (repeat c (S N)))).
  rewrite IH. apply Rmax_left; lra.
Qed.

(** The powers of the initial guess. *)
Lemma guess_pos (rho0 e : R) : 0 < Rpower rho0 e.
Proof. apply exp_pos. Qed.

Lemma guess_potential (rho0 : R) (n : Z) :
  0 < rho0 -> (0 <= n)%Z ->
  Rpower (Rpower rho0 (-1 / IZR (n + 1))) (IZR (- n - 1)) = rho0.
Proof.
  intros Hr Hn. rewrite Rpower_mult.
  assert (Hpos : 0 < IZR (n + 1)) by (apply IZR_lt; lia).
  replace (- n - 1)%Z with (- (n + 1))%Z by lia. rewrite opp_IZR.
  replace (-1 / IZR (n + 1) * - IZR (n + 1)) with 1 by (field; lra).
  now apply Rpower_1.
Qed.

Lemma guess_mass (c : R) (n : Z) :
  0 < c -> Rpower c (IZR (- n - 2)) * c = Rpower c (IZR (- n - 1)).
Proof.
  intros Hc. rewrite <- (Rpower_1 c Hc) at 2. rewrite <- Rpower_plus.
  f_equal. replace (- n - 1)%Z with (- n - 2 + 1)%Z by lia.
  now rewrite plus_IZR.
Qed.

Section ConstantDensity.
Context {dolfin : Dolfin} {exact : Exact dolfin}.

Lemma load_length (w : weight) : List.length (load w) = ndofs.
Proof. unfold load. now rewrite mat_vec_length, repeat_length. Qed.

Lemma mass_constant (w : weight) (c : R) :
  mat_vec (assemble_matrix (B_mass w)) (repeat c ndofs) = vscale c (load w).
Proof.
  unfold load. rewrite <- mat_vec_linear, vscale_repeat.
  do 2 f_equal; ring.
Qed.

Section Rounds.
Variables (alpha0 rho0 : R) (n0 : Z) (density_profile : DensityProfile)
          (w : weight).
Hypotheses (Halpha : 0 < alpha0) (Hn : (0 <= n0)%Z) (Hrho : 0 < rho0)
           (Huni : uniform_density density_profile rho0).

Let c := Rpower rho0 (-1 / IZR (n0 + 1)).

Lemma system_matrix_constant :
  let K := mat_add (mat_scale alpha0 (assemble_matrix (B_stiffness w)))
                   (assemble_matrix (B_potential n0 (repeat c ndofs) w)) in
  nonsingular K /\
  forall a, mat_vec K (repeat a ndofs)
            = vscale (IZR (n0 + 1) * Rpower c (IZR (- n0 - 2)) * a) (load w).
Proof.
  assert (Hc : 0 < c) by apply guess_pos.
  assert (Hk : 0 < IZR (n0 + 1) * Rpower c (IZR (- n0 - 2))).
  { apply Rmult_lt_0_compat; [apply IZR_lt; lia | apply guess_pos]. }
  simpl. rewrite (potential_constant n0 c w Hc). split.
  - now apply system_nonsingular.
  - intros a. rewrite mat_vec_add, !mat_vec_scale, stiffness_constant,
      mass_constant, vscale_repeat, vscale_vscale, Rmult_0_r.
    apply vadd_zeros_len. rewrite vscale_length. apply load_length.
Qed.

(** The linear system of a Picard round at the initial guess has the
    initial guess as its solution. *)
Lemma picard_solve_constant m pc prm :
  krylov_solve m pc prm
    (mat_add (mat_scale alpha0 (assemble_matrix (B_stiffness w)))
             (assemble_matrix (B_potential n0 (repeat c ndofs) w)))
    (vsub (assemble (L_picard n0 (repeat c ndofs) w))
          (assemble (L_density density_profile w)))
  = Some (repeat c ndofs).
Proof.
  assert (Hc : 0 < c) by apply guess_pos.
  destruct system_matrix_constant as [Hns Hmv].
  apply krylov_exact; [exact Hns|].
  rewrite Hmv, (picard_rhs_constant n0 c w Hc), (proj2 Huni w), vsub_vscale.
  f_equal. rewrite Rmult_assoc, (guess_mass c n0 Hc).
  unfold c. rewrite (guess_potential rho0 n0 Hrho Hn).
  replace (n0 + 2)%Z with (n0 + 1 + 1)%Z by lia. rewrite (plus_IZR (n0 + 1) 1).
  ring.
Qed.

(** The linear system of a Newton round at the initial guess has the zero
    increment as its solution. *)
Lemma newton_solve_constant m pc prm :
  krylov_solve m pc prm
    (mat_add (mat_scale alpha0 (assemble_matrix (B_stiffness w)))
             (assemble_matrix (B_potential n0 (repeat c ndofs) w)))
    (vsub (assemble (L_newton alpha0 n0 (repeat c ndofs) w))
          (assemble (L_density density_profile w)))
  = Some (repeat 0 ndofs).
Proof.
  assert (Hc : 0 < c) by apply guess_pos.
  destruct system_matrix_constant as [Hns Hmv].
  apply krylov_exact; [exact Hns|].
  rewrite Hmv, (newton_rhs_constant alpha0 n0 c w Hc), (proj2 Huni w),
    stiffness_constant, vscale_repeat, !Rmult_0_r.
  rewrite vadd_zeros_len by (rewrite vscale_length; apply load_length).
  rewrite vsub_vscale.
  f_equal. unfold c. rewrite (guess_potential rho0 n0 Hrho Hn). ring.
Qed.

End Rounds.

Lemma solve_run m pc prm K b u tr :
  krylov_solve m pc prm K b = Some u ->
  solve m pc prm K b tr = (Ok u, tr ++ [EvSolve m pc]).
Proof.
  intros Hk. unfold solve, bind, emit, ret; simpl. now rewrite Hk.
Qed.

Lemma set_field_id (self : FieldSolver) (v : option Vec) :
  field self = v -> set_field v self = self.
Proof. intros <-; destruct self; reflexivity. Qed.

(** Started at the initial guess, the Picard loop leaves the object as it
    is, and every round it makes ends with [du_norm = 0]. *)
Lemma picard_loop_constant m pc prm rho0 :
  forall fuel i du_norm (self : FieldSolver) tr,
    at_fixed_point rho0 self ->
    field self = Some (repeat (field_min self) ndofs) ->
    (Z.to_nat (maxiter self - i) <= fuel)%nat ->
    exists i' du' tr',
      picard_loop m pc prm (assemble_matrix (B_stiffness (sym_factor self)))
        fuel i du_norm self tr
      = (Ok (i', du', self), tr') /\
      ((i' = i /\ du' = du_norm) \/ du' = 0).
Proof.
  induction fuel as [|fuel IH]; intros i du_norm self tr Hfix Hfield Hfuel;
    rewrite picard_loop_eq;
    (destruct (Rgt_dec du_norm (tol_du self)) as [Hgt|Hle];
     [destruct (Z_lt_dec i (maxiter self)) as [Hlt|Hge]|]);
    try (exists i, du_norm, tr; split; [reflexivity | now left]).
  - lia.
  - pose proof Hfix as (Ha & Hn & Hr & Hu & HP & Hm).
    unfold the_field; rewrite Hfield.
    unfold assemble_matrix_, assemble_, bind, emit, ret. simpl.
    rewrite HP, Hm.
    rewrite (solve_run _ _ _ _ _ (repeat (Rpower rho0 (-1 / IZR (n self + 1))) ndofs))
      by (now apply picard_solve_constant).
    rewrite vsub_repeat, !vscale_repeat, vadd_repeat.
    replace (Rpower rho0 (-1 / IZR (n self + 1))
             - Rpower rho0 (-1 / IZR (n self + 1))) with 0 by ring.
    replace (relaxation_parameter self * Rpower rho0 (-1 / IZR (n self + 1))
             + (1 - relaxation_parameter self)
               * Rpower rho0 (-1 / IZR (n self + 1)))
      with (Rpower rho0 (-1 / IZR (n self + 1))) by ring.
    rewrite norm_linf_zeros, <- Hm.
    replace (set_field (Some (repeat (field_min self) ndofs)) self) with self
      by (symmetry; apply set_field_id; exact Hfield).
    destruct (IH (i + 1)%Z 0 self
                ((((tr ++ [EvAssemble]) ++ [EvAssemble]) ++ [EvSolve m pc])
                 ++ [EvIter (i + 1) 0]))
      as (i' & du' & tr' & Hrun & Hend);
      [exact Hfix | exact Hfield | lia |].
    exists i', du', tr'; split; [exact Hrun|].
    right. destruct Hend as [[_ ->]| ->]; reflexivity.
Qed.

Lemma newton_loop_constant m pc prm rho0 :
  forall fuel i du_norm (self : FieldSolver) tr,
    at_fixed_point rho0 self ->
    field self = Some (repeat (field_min self) ndofs) ->
    (Z.to_nat (maxiter self - i) <= fuel)%nat ->
    exists i' du' tr',
      newton_loop m pc prm (assemble_matrix (B_stiffness (sym_factor self)))
        fuel i du_norm self tr
      = (Ok (i', du', self), tr') /\
      ((i' = i /\ du' = du_norm) \/ du' = 0).
Proof.
  induction fuel as [|fuel IH]; intros i du_norm self tr Hfix Hfield Hfuel;
    rewrite newton_loop_eq;
    (destruct (Rgt_dec du_norm (tol_du self)) as [Hgt|Hle];
     [destruct (Z_lt_dec i (maxiter self)) as [Hlt|Hge]|]);
    try (exists i, du_norm, tr; split; [reflexivity | now left]).
  - lia.
  - pose proof Hfix as (Ha & Hn & Hr & Hu & HP & Hm).
    unfold the_field; rewrite Hfield.
    unfold assemble_matrix_, assemble_, bind, emit, ret. simpl.
    rewrite HP, Hm.
    rewrite (solve_run _ _ _ _ _ (repeat 0 ndofs))
      by (now apply newton_solve_constant).
    rewrite !vscale_repeat, vadd_repeat.
    replace (Rpower rho0 (-1 / IZR (n self + 1))
             + relaxation_parameter self * 0)
      with (Rpower rho0 (-1 / IZR (n self + 1))) by ring.
    rewrite norm_linf_zeros, <- Hm.
    replace (set_field (Some (repeat (field_min self) ndofs)) self) with self
      by (symmetry; apply set_field_id; exact Hfield).
    destruct (IH (i + 1)%Z 0 self
                ((((tr ++ [EvAssemble]) ++ [EvAssemble]) ++ [EvSolve m pc])
                 ++ [EvIter (i + 1) 0]))
      as (i' & du' & tr' & Hrun & Hend);
      [exact Hfix | exact Hfield | lia |].
    exists i', du', tr'; split; [exact Hrun|].
    right. destruct Hend as [[_ ->]| ->]; reflexivity.
Qed.

Lemma init_fixed_point alpha0 n0 (density_profile : DensityProfile) deg_V0 tr
    (self : FieldSolver) tr0 rho0 theta tol rel maxit :
  0 < alpha0 -> (0 <= n0)%Z -> 0 < rho0 ->
  uniform_density density_profile rho0 ->
  __init__ alpha0 n0 density_profile deg_V0 tr = (Ok self, tr0) ->
  field_min self = Rpower rho0 (-1 / IZR (n0 + 1)) /\
  forall v, at_fixed_point rho0 (set_field v (configure theta tol rel maxit self)).
Proof.
  intros Ha Hn Hr Hu Hi.
  destruct (init_inv _ _ _ _ _ _ _ Hi) as (w & c & _ & Hc & _ & ->).
  assert (Hm : c = Rpower rho0 (-1 / IZR (n0 + 1))).
  { rewrite (proj1 Hu), (vec_max_repeat _ _ ndofs_pos) in Hc.
    rewrite (pow_positive _ _ _ Hr) in Hc. simpl in Hc. congruence. }
  subst c.
  split; [reflexivity|].
  intros v. unfold at_fixed_point; simpl. tauto.
Qed.

(** C1.  Exact arithmetic in the backend, [alpha > 0], [n >= 0] and a
    density that is the constant [rho0 > 0] over the whole mesh: the
    object the constructor returns has [field_min = rho0^(-1/(n+1))], and
    whatever the relaxation parameter, the tolerances and [maxiter] are
    set to, the Picard and the Newton solve both return, with the field
    whose coefficients all equal [rho0^(-1/(n+1))] stored in the object:
    the uniform initial guess is a fixed point of either iteration, and
    every round the loop makes ends with [du_norm = 0].  The field is
    within any [tol_du >= 0] of that value at every coefficient. *)
Theorem constant_density_fixed_point (alpha0 : R) (n0 : Z)
    (density_profile : DensityProfile) (deg_V0 : Z) (rho0 : R)
    (self : FieldSolver) (tr tr0 : log) :
  0 < alpha0 -> (0 <= n0)%Z -> 0 < rho0 ->
  uniform_density density_profile rho0 ->
  __init__ alpha0 n0 density_profile deg_V0 tr = (Ok self, tr0) ->
  let c := Rpower rho0 (-1 / IZR (n0 + 1)) in
  field_min self = c /\
  forall theta tol rel maxit solver_method preconditioner tr1,
    let self1 := configure theta tol rel maxit self in
    let solved := set_field (Some (repeat c ndofs)) self1 in
    (exists i du_norm tr2,
       picard_run solver_method preconditioner self1 tr1
       = (Ok (i, du_norm, solved), tr2) /\
       picard solver_method preconditioner self1 tr1 = (Ok solved, tr2) /\
       (i = 0%Z \/ du_norm = 0)) /\
    (exists i du_norm tr2,
       newton_run solver_method preconditioner self1 tr1
       = (Ok (i, du_norm, solved), tr2) /\
       newton solver_method preconditioner self1 tr1 = (Ok solved, tr2) /\
       (i = 0%Z \/ du_norm = 0)) /\
    (0 <= tol -> Forall (fun a => Rabs (a - c) <= tol_du solved)
                   (repeat c ndofs)).
Proof.
  intros Ha Hn Hr Hu Hi c.
  destruct (init_fixed_point _ _ _ _ _ _ _ rho0 1 1 1 1 Ha Hn Hr Hu Hi)
    as [Hm _].
  split; [exact Hm|].
  intros theta tol rel maxit m pc tr1 self1 solved.
  destruct (init_fixed_point _ _ _ _ _ _ _ rho0 theta tol rel maxit
              Ha Hn Hr Hu Hi) as [_ Hfix].
  assert (Hs : set_field (Some (interpolate (Constant (field_min self1)))) self1
               = solved).
  { unfold solved. rewrite interpolate_constant.
    change (field_min self1) with (field_min self). now rewrite Hm. }
  assert (Hf : field solved = Some (repeat (field_min solved) ndofs)).
  { unfold solved; simpl. now rewrite Hm. }
  assert (Hfuel : (Z.to_nat (maxiter solved - 0) <= Z.to_nat (maxiter self1))%nat)
    by (simpl; lia).
  split; [|split].
  - destruct (picard_loop_constant m pc (solver_parameters self1) rho0
                (Z.to_nat (maxiter self1)) 0%Z 1 solved
                ((tr1 ++ [EvAssemble]) ++ [EvInterpolate])
                (Hfix _) Hf Hfuel)
      as (i & du & tr2 & Hrun & Hend).
    assert (Hpr : picard_run m pc self1 tr1 = (Ok (i, du, solved), tr2)).
    { unfold picard_run, assemble_matrix_, interpolate_, bind, emit, ret.
      cbv beta iota zeta. rewrite Hs. exact Hrun. }
    exists i, du, tr2. split; [exact Hpr|]. split.
    + rewrite picard_returned, Hpr. reflexivity.
    + destruct Hend as [[-> _]|Hz]; [now left | now right].
  - destruct (newton_loop_constant m pc (solver_parameters self1) rho0
                (Z.to_nat (maxiter self1)) 0%Z 1 solved
                ((tr1 ++ [EvAssemble]) ++ [EvInterpolate])
                (Hfix _) Hf Hfuel)
      as (i & du & tr2 & Hrun & Hend).
    assert (Hpr : newton_run m pc self1 tr1 = (Ok (i, du, solved), tr2)).
    { unfold newton_run, assemble_matrix_, interpolate_, bind, emit, ret.
      cbv beta iota zeta. rewrite Hs. exact Hrun. }
    exists i, du, tr2. split; [exact Hpr|]. split.
    + rewrite newton_returned, Hpr. reflexivity.
    + destruct Hend as [[-> _]|Hz]; [now left | now right].
  - intros Htol. apply Forall_forall. intros a Hin.
    apply repeat_spec in Hin. subst a. simpl.
    replace (c - c) with 0 by ring. rewrite Rabs_R0. exact Htol.
Qed.

End ConstantDensity.

Lemma unit_slice_uniform :
  uniform_density (exact := plain_exact) Toy.unit_slice 1.
Proof.
  split; [reflexivity|]. intros w; simpl. f_equal; ring.
Qed.

(** The unit density on the 2-D slice, [alpha = 1], [n = 0]: both solves
    return the constant field [1^(-1/1)]. *)
Lemma constant_density_fixed_point_witness :
  let c := Rpower 1 (-1 / IZR (0 + 1)) in
  let self1 := configure 1 (1 / 10 ^ 14) (1 / 10 ^ 10) 1000 plain_solver in
  (exists tr2,
     picard (dolfin := Toy.plain) "cg" "default" self1 []
     = (Ok (set_field (Some [c]) self1), tr2)) /\
  (exists tr2,
     newton (dolfin := Toy.plain) "cg" "default" self1 []
     = (Ok (set_field (Some [c]) self1), tr2)).
Proof.
  destruct init_solver2d as [tr0 Hinit].
  destruct (constant_density_fixed_point (exact := plain_exact)
              1 0 Toy.unit_slice 1 1 plain_solver [] tr0)
    as [_ Hrun]; try lra; try lia;
    [exact unit_slice_uniform | exact Hinit |].
  destruct (Hrun 1 (1 / 10 ^ 14) (1 / 10 ^ 10) 1000%Z "cg"%string
              "default"%string [])
    as ((i & du & tr2 & _ & Hp & _) & (j & dv & tr3 & _ & Hn & _) & _).
  split; [exists tr2; exact Hp | exists tr3; exact Hn].
Defined.

(** ** Computations only append to the log *)

Lemma appends_ret {A} (a : A) : appends (ret a).
Proof. exists (Ok a), []; intros tr; unfold ret; now rewrite app_nil_r. Qed.

Lemma appends_raise {A} (e : exn) : appends (raise (A := A) e).
Proof. exists (Raise e), []; intros tr; unfold raise; now rewrite app_nil_r. Qed.

Lemma appends_out_of_fuel {A} : appends (out_of_fuel (A := A)).
Proof.
  exists OutOfFuel, []; intros tr; unfold out_of_fuel; now rewrite app_nil_r.
Qed.

Lemma appends_emit (e : event) : appends (emit e).
Proof. exists (Ok tt), [e]; reflexivity. Qed.

Lemma appends_bind {A B} (c : M A) (k : A -> M B) :
  appends c -> (forall a, appends (k a)) -> appends (bind c k).
Proof.
  intros (r & ev & Hc) Hk. destruct r as [a|e|].
  - destruct (Hk a) as (r' & ev' & Hka).
    exists r', (ev ++ ev'); intros tr; unfold bind.
    now rewrite Hc, Hka, app_assoc.
  - exists (Raise e), ev; intros tr; unfold bind; now rewrite Hc.
  - exists OutOfFuel, ev; intros tr; unfold bind; now rewrite Hc.
Qed.

Ltac appends_step :=
  first
    [ apply appends_ret | apply appends_raise | apply appends_out_of_fuel
    | apply appends_emit
    | apply appends_bind; [|intros]
    | match goal with
      | |- appends (match ?x with _ => _ end) => destruct x
      | |- appends (if ?x then _ else _) => destruct x
      | |- appends (let _ := _ in _) => cbv zeta
      end
    | assumption ].

Section Appends.
Context {dolfin : Dolfin}.

Lemma appends_solve m pc prm K b : appends (solve m pc prm K b).
Proof. unfold solve; repeat appends_step. Qed.

Lemma appends_call function q : appends (call function q).
Proof. unfold call; repeat appends_step. Qed.

Lemma appends_picard_loop m pc prm A0 :
  forall fuel i du_norm (self : FieldSolver),
    appends (picard_loop m pc prm A0 fuel i du_norm self).
Proof.
  induction fuel as [|fuel IH]; intros i du_norm self;
    rewrite picard_loop_eq;
    unfold the_field, assemble_matrix_, assemble_;
    repeat appends_step; try apply appends_solve; apply IH.
Qed.

End Appends.

(** ** More on the two solves *)

Section MoreSolver.
Context {dolfin : Dolfin}.

Lemma appends_newton_loop m pc prm A0 :
  forall fuel i du_norm (self : FieldSolver),
    appends (newton_loop m pc prm A0 fuel i du_norm self).
Proof.
  induction fuel as [|fuel IH]; intros i du_norm self;
    rewrite newton_loop_eq;
    unfold the_field, assemble_matrix_, assemble_;
    repeat appends_step; try apply appends_solve; apply IH.
Qed.

Lemma appends_picard m pc (self : FieldSolver) : appends (picard m pc self).
Proof.
  unfold picard, picard_run, assemble_matrix_, interpolate_;
    repeat appends_step; apply appends_picard_loop.
Qed.

Lemma appends_newton m pc (self : FieldSolver) : appends (newton m pc self).
Proof.
  unfold newton, newton_run, assemble_matrix_, interpolate_;
    repeat appends_step; apply appends_newton_loop.
Qed.

Lemma newton_leaves_field m pc (self self' : FieldSolver) tr tr' :
  newton m pc self tr = (Ok self', tr') ->
  field self' <> None /\ self' = set_field (field self') self.
Proof.
  rewrite newton_returned. intros Hp.
  pose proof (newton_run_bounded m pc self tr) as (_ & _ & Hb).
  destruct (newton_run m pc self tr) as [[[[i du] s]|e|] tr1];
    simpl in *; try discriminate.
  injection Hp as <- <-. tauto.
Qed.

Lemma solves_app_ge (tr ev : log) : (solves tr <= solves (tr ++ ev))%nat.
Proof. rewrite solves_app; lia. Qed.

Lemma no_round m pc (self : FieldSolver) tr :
  1 <= tol_du self \/ (maxiter self <= 0)%Z ->
  picard m pc self tr
  = (Ok (set_field (Some (interpolate (Constant (field_min self)))) self),
     tr ++ [EvAssemble; EvInterpolate]) /\
  newton m pc self tr
  = (Ok (set_field (Some (interpolate (Constant (field_min self)))) self),
     tr ++ [EvAssemble; EvInterpolate]).
Proof.
  intros Hno.
    unfold picard, newton, picard_run, newton_run, assemble_matrix_,
      interpolate_, bind, emit, ret; cbv beta iota zeta.
    rewrite picard_loop_eq, newton_loop_eq.
    change (tol_du (set_field (Some (interpolate (Constant (field_min self))))
                      self)) with (tol_du self).
    change (maxiter (set_field (Some (interpolate (Constant (field_min self))))
                       self)) with (maxiter self).
    destruct (Rgt_dec 1 (tol_du self)) as [Hgt|_];
      [destruct (Z_lt_dec 0 (maxiter self)) as [Hlt|_]|];
      try (destruct Hno; [lra|lia]);
      unfold ret; simpl; rewrite <- !app_assoc; split; reflexivity.
Qed.

(** X1.  The loop variable [du_norm] starts at 1 and the counter at 0: with a
    tolerance of 1 or more, or with [maxiter] not positive, neither solve
    makes a round: it returns the interpolated initial guess and issues no
    linear solve.  In every other case at least one linear solve is
    issued. *)
Theorem solve_without_rounds (solver_method preconditioner : string)
    (self : FieldSolver) (tr : log) :
  let start :=
    set_field (Some (interpolate (Constant (field_min self)))) self in
  (1 <= tol_du self \/ (maxiter self <= 0)%Z ->
   picard solver_method preconditioner self tr
   = (Ok start, tr ++ [EvAssemble; EvInterpolate]) /\
   newton solver_method preconditioner self tr
   = (Ok start, tr ++ [EvAssemble; EvInterpolate])) /\
  (tol_du self < 1 -> (0 < maxiter self)%Z ->
   (solves tr < solves (snd (picard solver_method preconditioner self tr)))%nat /\
   (solves tr < solves (snd (newton solver_method preconditioner self tr)))%nat).
Proof.
  intros start; split.
  - apply no_round.
  - intros Htol Hmax.
    assert (Hfuel : exists fuel, Z.to_nat (maxiter self) = S fuel)
      by (exists (Z.to_nat (maxiter self) - 1)%nat; lia).
    destruct Hfuel as [fuel Hfuel].
    unfold picard, newton, picard_run, newton_run, assemble_matrix_,
      interpolate_, bind, emit, ret; cbv beta iota zeta.
    change (maxiter (set_field (Some (interpolate (Constant (field_min self))))
                       self)) with (maxiter self).
    rewrite Hfuel, picard_loop_eq, newton_loop_eq.
    change (tol_du (set_field (Some (interpolate (Constant (field_min self))))
                      self)) with (tol_du self).
    change (maxiter (set_field (Some (interpolate (Constant (field_min self))))
                       self)) with (maxiter self).
    destruct (Rgt_dec 1 (tol_du self)) as [_|Hn]; [|lra].
    destruct (Z_lt_dec 0 (maxiter self)) as [_|Hn]; [|lia].
    unfold the_field, assemble_matrix_, assemble_, bind, emit, ret; simpl.
    split.
    + match goal with
      | |- context [solve ?m ?pc ?prm ?K ?b ?t] =>
          destruct (solve_cases m pc prm K b t) as [[u [Hk ->]]|[Hk ->]]
      end.
      * match goal with
        | |- context [picard_loop ?a ?b ?c ?d ?e ?f ?g ?h ?t] =>
            destruct (appends_picard_loop a b c d e f g h) as (r & ev & Hr);
            rewrite (Hr t)
        end.
        destruct r as [[[i du] s]|e|]; simpl;
          rewrite !solves_app; unfold solves; simpl; lia.
      * simpl. rewrite !solves_app; unfold solves; simpl; lia.
    + match goal with
      | |- context [solve ?m ?pc ?prm ?K ?b ?t] =>
          destruct (solve_cases m pc prm K b t) as [[u [Hk ->]]|[Hk ->]]
      end.
      * match goal with
        | |- context [newton_loop ?a ?b ?c ?d ?e ?f ?g ?h ?t] =>
            destruct (appends_newton_loop a b c d e f g h) as (r & ev & Hr);
            rewrite (Hr t)
        end.
        destruct r as [[[i du] s]|e|]; simpl;
          rewrite !solves_app; unfold solves; simpl; lia.
      * simpl. rewrite !solves_app; unfold solves; simpl; lia.
Qed.

(** X2.  A solve that returns has replaced the field and nothing else: the
    derived slots keep the values computed from an earlier field, and the
    configuration is as it was. *)
Theorem solve_changes_field_only (solver_method preconditioner : string)
    (self s' : FieldSolver) (tr tr' : log) :
  picard solver_method preconditioner self tr = (Ok s', tr') \/
  newton solver_method preconditioner self tr = (Ok s', tr') ->
  field s' <> None /\
  s' = set_field (field s') self /\
  field_grad s' = field_grad self /\
  field_grad_mag s' = field_grad_mag self /\
  residual s' = residual self /\
  laplacian s' = laplacian self /\
  potential_derivative s' = potential_derivative self /\
  p_field s' = p_field self.
Proof.
  intros Hr.
  assert (H : field s' <> None /\ s' = set_field (field s') self).
  { destruct Hr as [Hr|Hr];
      [apply (picard_leaves_field _ _ _ _ _ _ Hr)
      |apply (newton_leaves_field _ _ _ _ _ _ Hr)]. }
  destruct H as [Hf Hs]. split; [exact Hf|]. split; [exact Hs|].
  rewrite Hs; repeat split; reflexivity.
Qed.

(** X3.  Every solve starts from the initial guess: the field the object holds
    when a solve is called has no influence, so neither solve warm-starts
    from the other; and a solve repeated on the object it returned returns
    that object again, after the same calls to the backend. *)
Theorem solve_from_scratch (solver_method preconditioner : string)
    (self : FieldSolver) (tr : log) :
  (forall v,
     picard solver_method preconditioner (set_field v self) tr
     = picard solver_method preconditioner self tr /\
     newton solver_method preconditioner (set_field v self) tr
     = newton solver_method preconditioner self tr) /\
  (forall s1 tr1,
     picard solver_method preconditioner self tr = (Ok s1, tr1) ->
     exists ev, tr1 = tr ++ ev /\
       forall tr2,
         picard solver_method preconditioner s1 tr2 = (Ok s1, tr2 ++ ev)) /\
  (forall s1 tr1,
     newton solver_method preconditioner self tr = (Ok s1, tr1) ->
     exists ev, tr1 = tr ++ ev /\
       forall tr2,
         newton solver_method preconditioner s1 tr2 = (Ok s1, tr2 ++ ev)).
Proof.
  split; [intros v; split; reflexivity|]. split.
  - intros s1 tr1 Hr.
    destruct (appends_picard solver_method preconditioner self) as (r & ev & Ha).
    pose proof (picard_leaves_field _ _ _ _ _ _ Hr) as [_ Hs].
    rewrite Ha in Hr. injection Hr as -> <-.
    exists ev; split; [reflexivity|]. intros tr2.
    rewrite Hs.
    change (picard solver_method preconditioner self tr2
            = (Ok (set_field (field s1) self), tr2 ++ ev)).
    rewrite <- Hs. apply Ha.
  - intros s1 tr1 Hr.
    destruct (appends_newton solver_method preconditioner self) as (r & ev & Ha).
    pose proof (newton_leaves_field _ _ _ _ _ _ Hr) as [_ Hs].
    rewrite Ha in Hr. injection Hr as -> <-.
    exists ev; split; [reflexivity|]. intros tr2.
    rewrite Hs.
    change (newton solver_method preconditioner self tr2
            = (Ok (set_field (field s1) self), tr2 ++ ev)).
    rewrite <- Hs. apply Ha.
Qed.

(** The constructor on a mesh whose dimension is neither 2 nor 3, after
    the symmetry test and the interpolation of the density. *)
Lemma init_no_weight (alpha0 : R) (n0 : Z)
    (density_profile : DensityProfile) (deg_V0 : Z) (tr : log) :
  topology_dim density_profile <> 2%Z ->
  topology_dim density_profile <> 3%Z ->
  __init__ alpha0 n0 density_profile deg_V0 tr
  = (exponent <- div_ (-1) (IZR (n0 + 1)) ;;
     field_min <- pow_ (vec_max (interpolate (Density density_profile)))
                    exponent ;;
     raise (AttributeError "sym_factor"))
      (tr ++ [EvFunctionSpace; EvFunctionSpace; EvInterpolate]).
Proof.
  intros H2 H3. unfold __init__.
  apply Z.eqb_neq in H2, H3. rewrite H2, H3.
  cbv [function_space interpolate_ bind emit ret].
  now rewrite <- !app_assoc.
Qed.

(** X4.  A mesh whose dimension is neither 2 nor 3 is not rejected by the
    symmetry test: the constructor goes on to build the function spaces
    and to interpolate the density, and does nothing more that is logged.
    With [n] other than -1 and a positive density maximum it fails at the
    first assembly, on the weight that no branch has set, whatever the
    symmetry tag; with [n = -1], or with a density maximum of 0 and
    [n >= 0], it raises ZeroDivisionError at the minimum field value, the
    line before.  It never returns an object. *)
Theorem init_other_dimension (alpha0 : R) (n0 : Z)
    (density_profile : DensityProfile) (deg_V0 : Z) (tr : log) :
  topology_dim density_profile <> 2%Z ->
  topology_dim density_profile <> 3%Z ->
  (n0 <> (-1)%Z -> 0 < vec_max (interpolate (Density density_profile)) ->
   __init__ alpha0 n0 density_profile deg_V0 tr
   = (Raise (AttributeError "sym_factor"),
      tr ++ [EvFunctionSpace; EvFunctionSpace; EvInterpolate])) /\
  (n0 = (-1)%Z \/
   (vec_max (interpolate (Density density_profile)) = 0 /\ (0 <= n0)%Z) ->
   __init__ alpha0 n0 density_profile deg_V0 tr
   = (Raise ZeroDivisionError,
      tr ++ [EvFunctionSpace; EvFunctionSpace; EvInterpolate])) /\
  (forall self tr',
     __init__ alpha0 n0 density_profile deg_V0 tr <> (Ok self, tr')) /\
  snd (__init__ alpha0 n0 density_profile deg_V0 tr)
  = tr ++ [EvFunctionSpace; EvFunctionSpace; EvInterpolate].
Proof.
  intros H2 H3. rewrite (init_no_weight _ _ _ _ _ H2 H3).
  split; [|split; [|split]].
  - intros Hn Hx. now rewrite (field_min_run _ _ _ _ Hn Hx).
  - intros [->|[Hx Hn]]; unfold bind at 1.
    + change (IZR (-1 + 1)) with 0. now rewrite div_zero.
    + rewrite (div_run _ _ _ (exponent_defined n0 ltac:(lia))).
      unfold bind at 1. rewrite Hx.
      now rewrite (pow_zero_negative _ _ (exponent_negative _ Hn)).
  - intros self tr'. cbv [bind div_ raise ret].
    destruct (Req_dec_T (IZR (n0 + 1)) 0); [discriminate|].
    rewrite pow_log. destruct (fst (pow_ _ _ [])); discriminate.
  - cbv [bind div_ raise ret].
    destruct (Req_dec_T (IZR (n0 + 1)) 0); [reflexivity|].
    rewrite pow_log. destruct (fst (pow_ _ _ [])); reflexivity.
Qed.

End MoreSolver.

Lemma solve_without_rounds_witness :
  picard (dolfin := Toy.plain) "cg" "default" (set_tol_du 1 plain_solver) []
  = (Ok (set_field (Some [1]) (set_tol_du 1 plain_solver)),
     [EvAssemble; EvInterpolate]) /\
  (solves [] < solves (snd (picard (dolfin := Toy.plain) "cg" "default"
                              plain_solver [])))%nat.
Proof.
  split.
  - apply (proj1 (solve_without_rounds (dolfin := Toy.plain) "cg" "default"
                    (set_tol_du 1 plain_solver) [])).
    left; simpl; lra.
  - apply (proj2 (solve_without_rounds (dolfin := Toy.plain) "cg" "default"
                    plain_solver [])).
    + simpl; lra.
    + simpl; lia.
Defined.

Lemma solve_changes_field_only_witness :
  field_grad_mag (set_field (Some [1]) (set_tol_du 1 solved_solver))
  = field_grad_mag (set_tol_du 1 solved_solver).
Proof.
  apply (solve_changes_field_only (dolfin := Toy.plain) "cg" "default"
           (set_tol_du 1 solved_solver) _ [] [EvAssemble; EvInterpolate]).
  left.
  apply (no_round (dolfin := Toy.plain) "cg" "default"
           (set_tol_du 1 solved_solver) []).
  left; simpl; lra.
Defined.

Lemma solve_from_scratch_witness :
  exists ev,
    forall tr2,
      picard (dolfin := Toy.plain) "cg" "default"
        (set_field (Some [1]) (set_tol_du 1 plain_solver)) tr2
      = (Ok (set_field (Some [1]) (set_tol_du 1 plain_solver)), tr2 ++ ev).
Proof.
  destruct (proj1 (proj2 (solve_from_scratch (dolfin := Toy.plain)
                            "cg" "default" (set_tol_du 1 plain_solver) []))
              (set_field (Some [1]) (set_tol_du 1 plain_solver))
              [EvAssemble; EvInterpolate]) as (ev & _ & Hev).
  - apply (no_round (dolfin := Toy.plain) "cg" "default"
             (set_tol_du 1 plain_solver) []).
    left; simpl; lra.
  - exists ev; exact Hev.
Defined.

Lemma init_other_dimension_witness :
  __init__ (dolfin := Toy.plain) 1 0 (Toy.mkProfile 1 "cylinder slice" 1) 1 []
  = (Raise (AttributeError "sym_factor"),
     [EvFunctionSpace; EvFunctionSpace; EvInterpolate]) /\
  __init__ (dolfin := Toy.plain) 1 (-1) (Toy.mkProfile 1 "cylinder slice" 1)
    1 []
  = (Raise ZeroDivisionError,
     [EvFunctionSpace; EvFunctionSpace; EvInterpolate]).
Proof.
  split.
  - apply (proj1 (init_other_dimension (dolfin := Toy.plain) 1 0
                    (Toy.mkProfile 1 "cylinder slice" 1) 1 []
                    ltac:(simpl; lia) ltac:(simpl; lia))).
    + lia.
    + change (0 < 1); lra.
  - apply (proj1 (proj2 (init_other_dimension (dolfin := Toy.plain) 1 (-1)
                           (Toy.mkProfile 1 "cylinder slice" 1) 1 []
                           ltac:(simpl; lia) ltac:(simpl; lia)))).
    left; reflexivity.
Defined.

(** ** More on the locator *)

Section MoreLocator.
Context {dolfin : Dolfin}.

Lemma in_band_qualifies subdomain boundary_distance tol v :
  in_band subdomain boundary_distance tol v = true <->
  qualifies subdomain boundary_distance tol v.
Proof.
  unfold in_band, qualifies.
  destruct (Rgt_dec _ _) as [H1|H1]; [destruct (Rlt_dec _ _) as [H2|H2]|];
    split; intros H; try discriminate; try tauto; try (split; assumption);
    destruct H; contradiction.
Qed.

(** The vertex loop evaluates the gradient magnitude at the vertices in
    the band, once each and in mesh order, and ends with the start value
    kept, when no vertex beats it, or with the first vertex that attains
    the largest value. *)
Lemma scan_vertices_first_max (grad_mag : Vec) (subdomain : Z)
    (boundary_distance tol : R) (g : Point.t -> R) :
  forall vertices m pp tr,
    (forall v, In v vertices ->
       qualifies subdomain boundary_distance tol v ->
       eval_at grad_mag (Point.array v) = Some (g v)) ->
    exists m' pp',
      scan_vertices grad_mag subdomain boundary_distance tol vertices m pp tr
      = (Ok (m', pp'),
         tr ++ map EvEval
                 (map Point.array
                    (filter (in_band subdomain boundary_distance tol)
                       vertices))) /\
      ((m' = m /\ pp' = pp /\
        forall v, In v vertices ->
          qualifies subdomain boundary_distance tol v -> g v <= m) \/
       (exists l1 q l2,
          vertices = l1 ++ q :: l2 /\
          qualifies subdomain boundary_distance tol q /\
          g q = m' /\ pp' = Some q /\ m < m' /\
          (forall v, In v l1 ->
             qualifies subdomain boundary_distance tol v -> g v < m') /\
          (forall v, In v l2 ->
             qualifies subdomain boundary_distance tol v -> g v <= m'))).
Proof.
  induction vertices as [|v vertices IH]; intros m pp tr Hev.
  - exists m, pp; simpl; unfold ret; rewrite app_nil_r.
    split; [reflexivity|]. left; repeat split; intros v [].
  - assert (Hev' : forall u, In u vertices ->
              qualifies subdomain boundary_distance tol u ->
              eval_at grad_mag (Point.array u) = Some (g u))
      by (intros u Hu; apply Hev; now right).
    simpl scan_vertices. simpl filter.
    destruct (in_band subdomain boundary_distance tol v) eqn:Eb.
    + pose proof (proj1 (in_band_qualifies _ _ _ _) Eb) as Hq.
      unfold in_band in Eb.
      destruct (Rgt_dec (closest_distance subdomain v)
                  (boundary_distance - tol / 2)); [|discriminate].
      destruct (Rlt_dec (closest_distance subdomain v)
                  (boundary_distance + tol / 2)); [|discriminate].
      unfold bind at 1.
      rewrite (call_defined _ _ _ _ (Hev v (or_introl eq_refl) Hq)).
      destruct (Rgt_dec (g v) m) as [Hgt|Hle].
      * destruct (IH (g v) (Some v) (tr ++ [EvEval (Point.array v)]) Hev')
          as (m' & pp' & Hr & Hc).
        exists m', pp'. split; [rewrite Hr; simpl; now rewrite <- app_assoc|].
        right. destruct Hc as [(-> & -> & Hmax)|(l1 & q & l2 & -> & Hqq & Hg & Hp & Hlt & H1 & H2)].
        -- exists [], v, vertices. repeat split; auto; try apply Hq.
           intros u [].
        -- exists (v :: l1), q, l2. repeat split; auto; try apply Hqq;
             try lra.
           intros u [<-|Hu] Hqu; [lra | now apply H1].
      * destruct (IH m pp (tr ++ [EvEval (Point.array v)]) Hev')
          as (m' & pp' & Hr & Hc).
        exists m', pp'. split; [rewrite Hr; simpl; now rewrite <- app_assoc|].
        destruct Hc as [(-> & -> & Hmax)|(l1 & q & l2 & -> & Hqq & Hg & Hp & Hlt & H1 & H2)].
        -- left. repeat split. intros u [<-|Hu] Hqu; [lra | now apply Hmax].
        -- right. exists (v :: l1), q, l2. repeat split; auto; try apply Hqq.
           intros u [<-|Hu] Hqu; [lra | now apply H1].
    + assert (Hnq : ~ qualifies subdomain boundary_distance tol v).
      { intros Hq. apply in_band_qualifies in Hq. congruence. }
      assert (Hskip :
        scan_vertices grad_mag subdomain boundary_distance tol (v :: vertices)
          m pp tr
        = scan_vertices grad_mag subdomain boundary_distance tol vertices
            m pp tr).
      { simpl. unfold in_band in Eb.
        destruct (Rgt_dec _ _); [|reflexivity].
        destruct (Rlt_dec _ _); [discriminate | reflexivity]. }
      simpl scan_vertices in Hskip. rewrite Hskip.
      destruct (IH m pp tr Hev') as (m' & pp' & Hr & Hc).
      exists m', pp'. split; [exact Hr|].
      destruct Hc as [(-> & -> & Hmax)|(l1 & q & l2 & -> & Hqq & Hg & Hp & Hlt & H1 & H2)].
      * left. repeat split. intros u [<-|Hu] Hqu; [contradiction | now apply Hmax].
      * right. exists (v :: l1), q, l2. repeat split; auto; try apply Hqq.
        intros u [<-|Hu] Hqu; [contradiction | now apply H1].
Qed.

(** X5.  The locator first computes the gradient magnitude when it is missing;
    [s] and [t] are the object and the log once that guard has returned
    (the object and the log of the call when the gradient magnitude was in
    place).  When some vertex in the band has a positive gradient
    magnitude, the locator returns the value and the coordinates of the
    first vertex, in mesh order, that attains the largest value over the
    band, together with the object [s]; the value is positive; and after
    the guard the gradient magnitude has been evaluated at the vertices in
    the band only, once each and in mesh order. *)
Theorem measure_fifth_force_first_maximum (self s : FieldSolver)
    (subdomain : Z) (boundary_distance tol : R) (grad_mag : Vec)
    (vertices : list Point.t) (g : Point.t -> R) (tr t : log) :
  ensure_field_grad_mag self tr = (Ok s, t) ->
  field_grad_mag s = Some grad_mag ->
  submesh_vertices subdomain = Some vertices ->
  (forall v, In v vertices ->
     qualifies subdomain boundary_distance tol v ->
     eval_at grad_mag (Point.array v) = Some (g v)) ->
  (exists v, In v vertices /\
     qualifies subdomain boundary_distance tol v /\ 0 < g v) ->
  exists l1 q l2,
    vertices = l1 ++ q :: l2 /\
    qualifies subdomain boundary_distance tol q /\
    0 < g q /\
    (forall v, In v l1 ->
       qualifies subdomain boundary_distance tol v -> g v < g q) /\
    (forall v, In v l2 ->
       qualifies subdomain boundary_distance tol v -> g v <= g q) /\
    measure_fifth_force subdomain boundary_distance tol self tr
    = (Ok (g q, (Point.x q, Point.y q, Point.z q), s),
       (t ++ [EvSubMesh subdomain])
       ++ map EvEval
            (map Point.array
               (filter (in_band subdomain boundary_distance tol) vertices))).
Proof.
  intros He Hgm Hvs Hev (v & Hv & Hq & Hpos).
  rewrite (measure_fifth_force_ensured _ _ _ _ _ _ _ _ _ He Hgm Hvs).
  destruct (scan_vertices_first_max grad_mag subdomain boundary_distance tol g
              vertices 0 None (t ++ [EvSubMesh subdomain]) Hev)
    as (m' & pp' & Hr & Hc).
  rewrite Hr.
  destruct Hc as [(-> & -> & Hmax)|(l1 & q & l2 & Hl & Hqq & Hg & -> & Hlt & H1 & H2)].
  - pose proof (Hmax v Hv Hq). lra.
  - exists l1, q, l2. subst m'. repeat split; auto; apply Hqq.
Qed.

(** X6.  The locator first computes the gradient magnitude when it is missing;
    [s] and [t] are the object and the log once that guard has returned.
    When every vertex in the band has a gradient magnitude that is zero
    or negative, the locator raises its no-vertex exception, also when
    the band is not empty: the running maximum starts at 0.0 and only a
    larger value replaces it. *)
Theorem measure_fifth_force_nonpositive (self s : FieldSolver)
    (subdomain : Z) (boundary_distance tol : R) (grad_mag : Vec)
    (vertices : list Point.t) (g : Point.t -> R) (tr t : log) :
  ensure_field_grad_mag self tr = (Ok s, t) ->
  field_grad_mag s = Some grad_mag ->
  submesh_vertices subdomain = Some vertices ->
  (forall v, In v vertices ->
     qualifies subdomain boundary_distance tol v ->
     eval_at grad_mag (Point.array v) = Some (g v)) ->
  (forall v, In v vertices ->
     qualifies subdomain boundary_distance tol v -> g v <= 0) ->
  measure_fifth_force subdomain boundary_distance tol self tr
  = (Raise no_vertex_found,
     (t ++ [EvSubMesh subdomain])
     ++ map EvEval
          (map Point.array
             (filter (in_band subdomain boundary_distance tol) vertices))).
Proof.
  intros He Hgm Hvs Hev Hneg.
  rewrite (measure_fifth_force_ensured _ _ _ _ _ _ _ _ _ He Hgm Hvs).
  destruct (scan_vertices_first_max grad_mag subdomain boundary_distance tol g
              vertices 0 None (t ++ [EvSubMesh subdomain]) Hev)
    as (m' & pp' & Hr & Hc).
  rewrite Hr.
  destruct Hc as [(-> & -> & Hmax)|(l1 & q & l2 & Hl & Hqq & Hg & -> & Hlt & H1 & H2)].
  - reflexivity.
  - assert (Hin : In q vertices) by (rewrite Hl; apply in_elt).
    pose proof (Hneg q Hin Hqq). lra.
Qed.

Lemma appends_ensure_field (self : FieldSolver) : appends (ensure_field self).
Proof.
  unfold ensure_field; destruct (field self);
    [apply appends_ret | apply appends_picard].
Qed.

(** A gradient-magnitude computation that returns has filled its slot and
    issued at least one linear solve. *)
Lemma calc_field_grad_mag_ok m pc (self s : FieldSolver) tr t :
  calc_field_grad_mag m pc self tr = (Ok s, t) ->
  field_grad_mag s <> None /\ (solves tr < solves t)%nat.
Proof.
  intros Hr. unfold calc_field_grad_mag in Hr. unfold bind at 1 in Hr.
  destruct (appends_ensure_field self) as (r & ev & Ha).
  rewrite Ha in Hr. destruct r as [s0|e|]; try discriminate.
  pose proof (ensure_field_ok self s0 tr (tr ++ ev) (Ha tr)) as [Hf _].
  destruct (field s0) as [phi|] eqn:Ef; [clear Hf|congruence].
  assert (Hc : calc_field_grad_mag m pc s0 (tr ++ ev) = (Ok s, t)).
  { unfold calc_field_grad_mag. unfold bind at 1.
    rewrite ensure_field_present by congruence. exact Hr. }
  rewrite (calc_field_grad_mag_present _ _ _ _ _ Ef) in Hc.
  apply project_inv in Hc as (x & _ & -> & ->). simpl.
  split; [discriminate|].
  rewrite !solves_app; unfold solves; simpl; lia.
Qed.

(** The guard of the locator, when it returns, leaves a gradient
    magnitude in place. *)
Lemma ensure_field_grad_mag_ok (self s : FieldSolver) tr t :
  ensure_field_grad_mag self tr = (Ok s, t) -> field_grad_mag s <> None.
Proof.
  unfold ensure_field_grad_mag.
  destruct (field_grad_mag self) as [g|] eqn:Eg.
  - intros Hr; injection Hr as <- _. congruence.
  - intros Hr. apply (calc_field_grad_mag_ok _ _ _ _ _ _ Hr).
Qed.

(** X7.  A sub-mesh that cannot be built is noticed only after the gradient
    magnitude is in place: with the slot filled the locator raises at
    once; with the slot empty it first computes the gradient magnitude,
    linear solves included, and raises then.  No vertex is evaluated. *)
Theorem measure_fifth_force_bad_subdomain (self : FieldSolver)
    (subdomain : Z) (boundary_distance tol : R) (tr : log) :
  submesh_vertices subdomain = None ->
  (field_grad_mag self <> None ->
   measure_fifth_force subdomain boundary_distance tol self tr
   = (Raise bad_subdomain, tr ++ [EvSubMesh subdomain])) /\
  (field_grad_mag self = None ->
   forall s t,
     calc_field_grad_mag "cg" "jacobi" self tr = (Ok s, t) ->
     measure_fifth_force subdomain boundary_distance tol self tr
     = (Raise bad_subdomain, t ++ [EvSubMesh subdomain]) /\
     (solves tr < solves t)%nat).
Proof.
  intros Hvs; split.
  - intros Hg. unfold measure_fifth_force, ensure_field_grad_mag.
    destruct (field_grad_mag self) as [g|]; [|congruence].
    unfold bind, ret, emit, raise; simpl. now rewrite Hvs.
  - intros Hg s t Hc.
    destruct (calc_field_grad_mag_ok _ _ _ _ _ _ Hc) as [Hs Hlt].
    split; [|exact Hlt].
    unfold measure_fifth_force, ensure_field_grad_mag. rewrite Hg.
    unfold bind at 1. rewrite Hc.
    unfold bind, ret, emit, raise; simpl. now rewrite Hvs.
Qed.

End MoreLocator.

(** With the gradient magnitude in place, and on a first call. *)
Lemma measure_fifth_force_first_maximum_witness :
  measure_fifth_force (dolfin := two_vertex) 0 2 4 two_vertex_solver []
  = (Ok (5 - 0, (0, 0, 0), two_vertex_solver),
     [EvSubMesh 0; EvEval [0; 0; 0]; EvEval [1; 0; 0]]) /\
  measure_fifth_force (dolfin := two_vertex_lifted) 0 2 4 first_call_solver []
  = (Ok (0 / 1 + 5 - 0, (0, 0, 0),
         set_field_grad_mag (Some [0 / 1]) first_call_solver),
     [EvAssemble; EvSolve "cg" "jacobi"; EvSubMesh 0;
      EvEval [0; 0; 0]; EvEval [1; 0; 0]]).
Proof.
  assert (Hband : forall d : Dolfin,
            (forall v, closest_distance (Dolfin := d) 0 v = 1 + Point.x v) ->
            filter (in_band (dolfin := d) 0 2 4) [v1; v2] = [v1; v2]).
  { intros d Hd. unfold in_band. simpl. rewrite !Hd. simpl.
    repeat (destruct (Rgt_dec _ _) as [_|Hc]; [|exfalso; apply Hc; lra]).
    repeat (destruct (Rlt_dec _ _) as [_|Hc]; [|exfalso; apply Hc; lra]).
    reflexivity. }
  split.
  - destruct (measure_fifth_force_first_maximum (dolfin := two_vertex)
                two_vertex_solver two_vertex_solver 0 2 4 [5] [v1; v2]
                (fun v => 5 - Point.x v) [] [] eq_refl eq_refl eq_refl)
      as (l1 & q & l2 & Hl & _ & _ & H1 & _ & Hrun).
    + intros v _ _; reflexivity.
    + exists v1; split; [now left|].
      split; [apply v1_in_wide_band; reflexivity | simpl; lra].
    + rewrite Hrun, (Hband two_vertex (fun v => eq_refl)).
      destruct l1 as [|a l1]; simpl in Hl.
      * injection Hl as Hq _. subst q. reflexivity.
      * injection Hl as Ha Hrest. subst a. exfalso.
        pose proof (H1 v1 (or_introl eq_refl)
                      (v1_in_wide_band two_vertex eq_refl)) as Hlt.
        destruct l1 as [|b l1]; simpl in Hrest;
          [|destruct l1; discriminate].
        injection Hrest as Hq _. subst q. simpl in Hlt. lra.
  - destruct (measure_fifth_force_first_maximum (dolfin := two_vertex_lifted)
                first_call_solver
                (set_field_grad_mag (Some [0 / 1]) first_call_solver)
                0 2 4 [0 / 1] [v1; v2]
                (fun v => 0 / 1 + 5 - Point.x v) []
                ([] ++ [EvAssemble; EvSolve "cg" "jacobi"])
                (first_call_ensured []) eq_refl eq_refl)
      as (l1 & q & l2 & Hl & _ & _ & H1 & _ & Hrun).
    + intros v _ _; reflexivity.
    + exists v1; split; [now left|].
      split; [apply v1_in_wide_band; reflexivity | simpl; lra].
    + rewrite Hrun, (Hband two_vertex_lifted (fun v => eq_refl)).
      destruct l1 as [|a l1]; simpl in Hl.
      * injection Hl as Hq _. subst q. reflexivity.
      * injection Hl as Ha Hrest. subst a. exfalso.
        pose proof (H1 v1 (or_introl eq_refl)
                      (v1_in_wide_band two_vertex_lifted eq_refl)) as Hlt.
        destruct l1 as [|b l1]; simpl in Hrest;
          [|destruct l1; discriminate].
        injection Hrest as Hq _. subst q. simpl in Hlt. lra.
Defined.

(** On a first call over [two_vertex], where the gradient magnitude the
    backend computes is 0 at [v1] and -1 at [v2]; and with a gradient
    magnitude of coefficient 0 in place. *)
Lemma measure_fifth_force_nonpositive_witness :
  (exists s t tr',
     ensure_field_grad_mag (dolfin := two_vertex)
       (set_field_grad_mag None two_vertex_solver) [] = (Ok s, t) /\
     t = [EvAssemble; EvSolve "cg" "jacobi"] /\
     measure_fifth_force (dolfin := two_vertex) 0 2 4
       (set_field_grad_mag None two_vertex_solver) []
     = (Raise no_vertex_found, (t ++ [EvSubMesh 0]) ++ tr')) /\
  (exists tr',
     measure_fifth_force (dolfin := two_vertex) 0 2 4
       (Toy.solver2d two_vertex Toy.unit_slice 1 (Some [1]) (Some [0])) []
     = (Raise no_vertex_found, tr')).
Proof.
  assert (He : ensure_field_grad_mag (dolfin := two_vertex)
                 (set_field_grad_mag None two_vertex_solver) []
               = (Ok (set_field_grad_mag (Some [0 / 1]) two_vertex_solver),
                  [EvAssemble; EvSolve "cg" "jacobi"])).
  { unfold ensure_field_grad_mag, calc_field_grad_mag, ensure_field,
      the_field, assemble_, solve.
    cbv [bind emit ret two_vertex_solver Toy.solver2d field field_grad_mag
         set_field_grad_mag krylov_solve two_vertex Toy.backend A].
    rewrite toy_solve_one. reflexivity. }
  split.
  - eexists; eexists; eexists. split; [exact He|]. split; [reflexivity|].
    apply (measure_fifth_force_nonpositive (dolfin := two_vertex)
             (set_field_grad_mag None two_vertex_solver)
             (set_field_grad_mag (Some [0 / 1]) two_vertex_solver)
             0 2 4 [0 / 1] [v1; v2] (fun v => 0 / 1 - Point.x v) []
             [EvAssemble; EvSolve "cg" "jacobi"] He eq_refl eq_refl).
    + intros v _ _; reflexivity.
    + intros v [<-|[<-|[]]] _; simpl; lra.
  - eexists.
    apply (measure_fifth_force_nonpositive (dolfin := two_vertex)
             (Toy.solver2d two_vertex Toy.unit_slice 1 (Some [1]) (Some [0]))
             (Toy.solver2d two_vertex Toy.unit_slice 1 (Some [1]) (Some [0]))
             0 2 4 [0] [v1; v2] (fun v => 0 - Point.x v) [] []
             eq_refl eq_refl eq_refl).
    + intros v _ _; reflexivity.
    + intros v [<-|[<-|[]]] _; simpl; lra.
Defined.

Lemma calc_field_grad_mag_first tr :
  calc_field_grad_mag (dolfin := Toy.plain) "cg" "jacobi"
    (set_field_grad_mag None solved_solver) tr
  = (Ok solved_solver, tr ++ [EvAssemble; EvSolve "cg" "jacobi"]).
Proof.
  rewrite (calc_field_grad_mag_present (dolfin := Toy.plain) _ _ _ [1])
    by reflexivity.
  unfold project. simpl. rewrite toy_solve_one. reflexivity.
Qed.

Lemma measure_fifth_force_bad_subdomain_witness :
  measure_fifth_force (dolfin := Toy.plain) 7 2 4 solved_solver []
  = (Raise bad_subdomain, [EvSubMesh 7]) /\
  measure_fifth_force (dolfin := Toy.plain) 7 2 4
    (set_field_grad_mag None solved_solver) []
  = (Raise bad_subdomain,
     ([] ++ [EvAssemble; EvSolve "cg" "jacobi"]) ++ [EvSubMesh 7]).
Proof.
  split.
  - apply (proj1 (measure_fifth_force_bad_subdomain (dolfin := Toy.plain)
                    solved_solver 7 2 4 [] eq_refl)).
    discriminate.
  - apply (proj2 (measure_fifth_force_bad_subdomain (dolfin := Toy.plain)
                    (set_field_grad_mag None solved_solver) 7 2 4 [] eq_refl)
             eq_refl solved_solver).
    apply calc_field_grad_mag_first.
Defined.

(** ** More on the prober *)

Section MoreProber.
Context {dolfin : Dolfin}.

Lemma sample_length function pts : forall vals,
  sample function pts = Some vals -> List.length vals = List.length pts.
Proof.
  induction pts as [|q pts IH]; intros vals Hs; simpl in Hs.
  - now injection Hs as <-.
  - destruct (eval_at function q); [|discriminate].
    destruct (sample function pts) as [l|]; [|discriminate].
    injection Hs as <-. simpl. now rewrite (IH l).
Qed.

Lemma points_length (gv origin : list R) k n :
  List.length (points gv origin k n) = n.
Proof. unfold points; now rewrite length_map, length_seq. Qed.

(** What a run of the loop that returns has done. *)
Lemma probe_loop_inv function gv origin limit :
  forall fuel k radius values out tr tr',
    probe_loop function gv origin limit fuel radius k values
      (path_point gv origin k) tr = (Ok out, tr') ->
    exists n vals,
      (n <= fuel)%nat /\
      out = values ++ vals /\
      tr' = tr ++ map EvEval (points gv origin k n) /\
      sample function (points gv origin k n) = Some vals /\
      match n with
      | O => ~ radius < limit
      | S m =>
          radius < limit /\
          (forall j, (k < j <= k + m)%nat ->
             linalg_norm (path_point gv origin j) < limit) /\
          linalg_norm (path_point gv origin (k + S m)) >= limit
      end.
Proof.
  induction fuel as [|fuel IH]; intros k radius values out tr tr' Hr;
    rewrite probe_loop_eq in Hr;
    destruct (Rlt_dec radius limit) as [Hlt|Hge].
  - discriminate.
  - injection Hr as <- <-. exists 0%nat, []. rewrite !app_nil_r.
    repeat split; auto.
  - unfold bind at 1 in Hr.
    destruct (eval_at function (path_point gv origin k)) as [a|] eqn:Ea.
    + rewrite (call_defined _ _ _ _ Ea) in Hr.
      apply IH in Hr as (n & vals & Hn & -> & -> & Hs & Hc).
      exists (S n), (a :: vals). rewrite points_S, sample_cons, Ea, Hs.
      simpl map. rewrite <- !app_assoc. simpl.
      repeat split; auto; try lia.
      * intros j Hj. destruct n as [|m].
        -- lia.
        -- destruct Hc as (H1 & H2 & _).
           destruct (Nat.eq_dec j (S k)) as [->|Hne]; [exact H1|].
           apply H2; lia.
      * destruct n as [|m].
        -- replace (k + 1)%nat with (S k) by lia. lra.
        -- destruct Hc as (_ & _ & H3).
           replace (k + S (S m))%nat with (S k + S m)%nat by lia. exact H3.
    + destruct (call_undefined _ _ tr Ea) as [e He]. rewrite He in Hr.
      discriminate.
  - injection Hr as <- <-. exists 0%nat, []. rewrite !app_nil_r.
    repeat split; auto. lia.
Qed.

(** The loop entered at step [k] with the test passing, when the function
    is defined at the [j] points from step [k] on, which stay inside, and
    is not defined at the next one: the exception of that evaluation ends
    the loop. *)
Lemma probe_loop_aborts function gv origin limit :
  forall j fuel k radius values vals tr,
    (j < fuel)%nat ->
    radius < limit ->
    (forall i, (k < i <= k + j)%nat ->
       linalg_norm (path_point gv origin i) < limit) ->
    sample function (points gv origin k j) = Some vals ->
    eval_at function (path_point gv origin (k + j)) = None ->
    probe_loop function gv origin limit fuel radius k values
      (path_point gv origin k) tr
    = (Raise (RuntimeError "Unable to evaluate function at point"),
       tr ++ map EvEval (points gv origin k (S j))).
Proof.
  induction j as [|j IH]; intros fuel k radius values vals tr Hf Hr Hin Hs Hu;
    rewrite probe_loop_eq; destruct (Rlt_dec radius limit) as [_|]; try lra;
    destruct fuel as [|fuel]; try lia; unfold bind at 1.
  - replace (k + 0)%nat with k in Hu by lia.
    unfold call, bind, emit, raise; simpl. rewrite Hu. reflexivity.
  - rewrite points_S, sample_cons in Hs.
    destruct (eval_at function (path_point gv origin k)) as [a|] eqn:Ea;
      [|discriminate].
    destruct (sample function (points gv origin (S k) j)) as [l|] eqn:El;
      [|discriminate].
    rewrite (call_defined _ _ _ _ Ea).
    rewrite (IH fuel (S k) _ (values ++ [a]) l).
    + rewrite (points_S gv origin k (S j)). simpl map.
      rewrite <- !app_assoc. reflexivity.
    + lia.
    + apply Hin; lia.
    + intros i Hi; apply Hin; lia.
    + exact El.
    + replace (S k + j)%nat with (k + S j)%nat by lia. exact Hu.
Qed.

(** The run of the prober when the first step from 1 on that is outside
    the ball is known. *)
Lemma probe_function_exit (self : FieldSolver) function
    (gv origin : list R) limit K fuel vals tr :
  dimensions_match gv origin self ->
  0 < limit ->
  (1 <= K)%nat ->
  exit_step gv origin limit K ->
  (K <= fuel)%nat ->
  sample function (points gv origin 0 K) = Some vals ->
  probe_function fuel function gv origin limit self tr
  = (Ok (Some vals), tr ++ map EvEval (points gv origin 0 K)).
Proof.
  intros Hd Hl HK [Hout Hin] Hf Hs.
  rewrite probe_function_matching by exact Hd.
  destruct K as [|K]; [lia|].
  rewrite (probe_loop_exact function gv origin limit K fuel 0 0 [] vals tr);
    try assumption; try lia.
  - reflexivity.
  - intros j Hj. apply Hin. lia.
Qed.

Lemma sum_sq_vscale (a : R) (v : list R) :
  sum_sq (vscale a v) = a * a * sum_sq v.
Proof.
  unfold vscale; induction v as [|c v IH]; simpl; [ring|].
  rewrite IH. ring.
Qed.

Lemma linalg_norm_vscale (a : R) (v : list R) :
  0 <= a -> linalg_norm (vscale a v) = a * linalg_norm v.
Proof.
  intros Ha. unfold linalg_norm. rewrite sum_sq_vscale.
  rewrite sqrt_mult; [|nra|apply sum_sq_nonneg].
  now rewrite sqrt_square.
Qed.

Lemma vadd_zeros_r (a b : Vec) :
  List.length a = List.length b -> Forall (fun c => c = 0) b -> vadd a b = a.
Proof.
  intros Hl Hz; revert a Hl; induction Hz as [|c b Hc _ IH];
    intros [|e a] Hl; simpl in *; try reflexivity; try discriminate.
  unfold vadd in *; simpl. f_equal; [lra | apply IH; lia].
Qed.

(** From the coordinate origin, step [k] is at distance [k] times the
    length of the step. *)
Lemma path_point_norm (gv origin : list R) (k : nat) :
  List.length gv = List.length origin -> Forall (fun c => c = 0) origin ->
  linalg_norm (path_point gv origin k) = INR k * linalg_norm gv.
Proof.
  intros Hl Hz. unfold path_point.
  rewrite vadd_zeros_r; [|unfold vscale; now rewrite length_map|exact Hz].
  apply linalg_norm_vscale, pos_INR.
Qed.

Lemma linalg_norm_pos (v : list R) :
  (exists a, In a v /\ a <> 0) -> 0 < linalg_norm v.
Proof.
  induction v as [|c v IH]; intros [a [Hin Ha]]; simpl in Hin; [contradiction|].
  destruct Hin as [->|Hin].
  - pose proof (linalg_norm_cons_head a v). pose proof (Rabs_pos_lt a Ha). lra.
  - pose proof (linalg_norm_cons_tail c v).
    assert (0 < linalg_norm v) by (apply IH; now exists a). lra.
Qed.

(** The first step from 1 on that lies outside the ball exists when the
    step is not zero. *)
Lemma exit_step_exists (gv origin : list R) (limit : R) :
  List.length gv = List.length origin ->
  (exists a, In a gv /\ a <> 0) ->
  exists K, (1 <= K)%nat /\ exit_step gv origin limit K.
Proof.
  intros Hl Hnz.
  pose (Q := fun k => (1 <= k)%nat /\
                      linalg_norm (path_point gv origin k) >= limit).
  destruct (dec_inh_nat_subset_has_unique_least_element Q) as [K [[HQ Hmin] _]].
  - intros k; unfold Q.
    destruct (le_dec 1 k) as [Hk|Hk];
      destruct (Rge_dec (linalg_norm (path_point gv origin k)) limit);
      tauto.
  - now apply path_leaves_every_ball.
  - destruct HQ as [HK Hout]. exists K; split; [exact HK|].
    split; [exact Hout|]. intros k Hk.
    destruct (Rlt_dec (linalg_norm (path_point gv origin k)) limit) as [Hlt|Hge];
      [exact Hlt|].
    assert (HQk : Q k) by (split; [lia | lra]).
    apply Hmin in HQk. lia.
Qed.

(** X8.  An array returned by the prober tells everything about the run: the
    dimensions matched; with [N] the length of the array, the function
    was evaluated at the steps [0, ..., N - 1] and nowhere else, in this
    order, and the array holds these values; [N] is zero exactly when
    [radial_limit] is not positive, and otherwise step [N] is the first
    step from 1 on at distance [radial_limit] or more from the coordinate
    origin. *)
Theorem probe_function_returned (self : FieldSolver) (fuel : nat)
    (function : Vec) (gv origin : list R) (limit : R) (vals : list R)
    (tr tr' : log) :
  probe_function fuel function gv origin limit self tr
  = (Ok (Some vals), tr') ->
  dimensions_match gv origin self /\
  sample function (points gv origin 0 (List.length vals)) = Some vals /\
  tr' = tr ++ map EvEval (points gv origin 0 (List.length vals)) /\
  (List.length vals <= fuel)%nat /\
  (List.length vals = 0%nat <-> limit <= 0) /\
  ((1 <= List.length vals)%nat ->
   exit_step gv origin limit (List.length vals)).
Proof.
  intros Hr.
  assert (Hd : dimensions_match gv origin self).
  { unfold probe_function in Hr. unfold dimensions_match.
    destruct (Z.of_nat (List.length gv) =? mesh_dimension self)%Z eqn:E1;
      destruct (Z.of_nat (List.length origin) =? mesh_dimension self)%Z eqn:E2;
      simpl in Hr;
      try (unfold bind, print, emit, ret in Hr; simpl in Hr; discriminate).
    split; now apply Z.eqb_eq. }
  split; [exact Hd|].
  rewrite probe_function_matching in Hr by exact Hd.
  destruct (probe_loop function gv origin limit fuel 0 0 []
              (path_point gv origin 0) tr) as [[out|e|] t] eqn:El;
    try discriminate.
  injection Hr as <- <-.
  apply probe_loop_inv in El as (n & vs & Hn & -> & -> & Hs & Hc).
  simpl app. pose proof (sample_length _ _ _ Hs) as Hlen.
  rewrite points_length in Hlen. rewrite Hlen.
  repeat split; auto.
  - intros ->. lra.
  - intros Hl. destruct n as [|m]; [reflexivity|]. lra.
  - destruct n as [|m]; [lia|]. apply Rle_ge.
    destruct Hc as (_ & _ & H3). simpl in H3. lra.
  - intros k Hk. destruct n as [|m]; [lia|].
    destruct Hc as (_ & H2 & _). apply H2. lia.
Qed.

(** X9.  When the function cannot be evaluated at a point of the path that is
    reached before the path leaves the ball, the prober raises the
    evaluation's exception there: the values sampled so far are not
    returned, and the failing evaluation is the last one. *)
Theorem probe_function_undefined_point (self : FieldSolver) (fuel : nat)
    (function : Vec) (gv origin : list R) (limit : R) (j : nat)
    (vals : list R) (tr : log) :
  dimensions_match gv origin self ->
  0 < limit ->
  (forall k, (1 <= k <= j)%nat ->
     linalg_norm (path_point gv origin k) < limit) ->
  sample function (points gv origin 0 j) = Some vals ->
  eval_at function (path_point gv origin j) = None ->
  (j < fuel)%nat ->
  probe_function fuel function gv origin limit self tr
  = (Raise (RuntimeError "Unable to evaluate function at point"),
     tr ++ map EvEval (points gv origin 0 (S j))).
Proof.
  intros Hd Hl Hin Hs Hu Hf.
  rewrite probe_function_matching by exact Hd.
  rewrite (probe_loop_aborts function gv origin limit j fuel 0 0 [] vals tr);
    try assumption; reflexivity.
Qed.

(** X10.  Probing from the coordinate origin with a non-zero step and a
    positive [radial_limit] takes [N] samples, where [N] is the least
    whole number of steps that reaches [radial_limit]:
    [(N - 1) * |step| < radial_limit <= N * |step|]. *)
Theorem probe_function_sample_count (self : FieldSolver) (function : Vec)
    (gv origin : list R) (limit : R) :
  dimensions_match gv origin self ->
  Forall (fun c => c = 0) origin ->
  (exists a, In a gv /\ a <> 0) ->
  0 < limit ->
  exists N, (1 <= N)%nat /\
    INR (N - 1) * linalg_norm gv < limit <= INR N * linalg_norm gv /\
    forall fuel vals tr,
      (N <= fuel)%nat ->
      sample function (points gv origin 0 N) = Some vals ->
      probe_function fuel function gv origin limit self tr
      = (Ok (Some vals), tr ++ map EvEval (points gv origin 0 N)) /\
      List.length vals = N.
Proof.
  intros Hd Hz Hnz Hl.
  pose proof (dimensions_lengths _ _ _ Hd) as Hlen.
  destruct (exit_step_exists gv origin limit Hlen Hnz) as (K & HK & Hex).
  exists K. split; [exact HK|]. split.
  - destruct Hex as [Hout Hin]. split.
    + destruct (Nat.eq_dec K 1) as [->|Hne].
      * simpl. lra.
      * rewrite <- (path_point_norm gv origin) by assumption.
        apply Hin. lia.
    + rewrite <- (path_point_norm gv origin) by assumption. lra.
  - intros fuel vals tr Hf Hs. split.
    + now apply probe_function_exit.
    + rewrite (sample_length _ _ _ Hs). apply points_length.
Qed.

End MoreProber.

Lemma probe_tenths_run :
  probe_function (dolfin := Toy.plain) 3 [7] [1 / 10; 0] [0; 0] (1 / 4)
    plain_solver []
  = (Ok (Some [7; 7; 7]), [] ++ map EvEval (points [1 / 10; 0] [0; 0] 0 3)).
Proof.
  apply (probe_function_exit (dolfin := Toy.plain) plain_solver [7]
           [1 / 10; 0] [0; 0] (1 / 4) 3 3 [7; 7; 7] []).
  - split; reflexivity.
  - lra.
  - lia.
  - split.
    + rewrite ray_tenth_norm. simpl. lra.
    + intros k Hk. rewrite ray_tenth_norm.
      destruct k as [|[|[|k]]]; simpl; try lra; lia.
  - lia.
  - reflexivity.
Qed.

Lemma probe_function_returned_witness :
  sample (dolfin := Toy.plain) [7] (points [1 / 10; 0] [0; 0] 0 3)
  = Some [7; 7; 7] /\
  exit_step [1 / 10; 0] [0; 0] (1 / 4) 3.
Proof.
  destruct (probe_function_returned (dolfin := Toy.plain) plain_solver 3 [7]
              [1 / 10; 0] [0; 0] (1 / 4) [7; 7; 7] [] _ probe_tenths_run)
    as (_ & Hs & _ & _ & _ & Hex).
  split; [exact Hs | apply Hex; simpl; lia].
Defined.

Lemma probe_function_undefined_point_witness :
  probe_function (dolfin := strip) 3 [7] [1 / 10; 0] [0; 0] (1 / 4)
    strip_solver []
  = (Raise (RuntimeError "Unable to evaluate function at point"),
     map EvEval (points [1 / 10; 0] [0; 0] 0 2)).
Proof.
  apply (probe_function_undefined_point (dolfin := strip) strip_solver 3 [7]
           [1 / 10; 0] [0; 0] (1 / 4) 1 [7] []).
  - split; reflexivity.
  - lra.
  - intros k Hk. rewrite ray_tenth_norm.
    assert (k = 1%nat) as -> by lia. simpl. lra.
  - simpl. destruct (Rlt_dec (0 * (1 / 10) + 0) (1 / 20)) as [_|Hn];
      [reflexivity | exfalso; lra].
  - simpl. destruct (Rlt_dec (1 * (1 / 10) + 0) (1 / 20)) as [Hn|_];
      [exfalso; lra | reflexivity].
  - lia.
Defined.

Lemma probe_function_sample_count_witness :
  exists N, (1 <= N)%nat /\
    INR (N - 1) * linalg_norm [1 / 10; 0] < 1 / 4
      <= INR N * linalg_norm [1 / 10; 0] /\
    forall fuel vals tr,
      (N <= fuel)%nat ->
      sample (dolfin := Toy.plain) [7] (points [1 / 10; 0] [0; 0] 0 N)
      = Some vals ->
      probe_function (dolfin := Toy.plain) fuel [7] [1 / 10; 0] [0; 0]
        (1 / 4) plain_solver tr
      = (Ok (Some vals), tr ++ map EvEval (points [1 / 10; 0] [0; 0] 0 N)) /\
      List.length vals = N.
Proof.
  apply (probe_function_sample_count (dolfin := Toy.plain) plain_solver [7]
           [1 / 10; 0] [0; 0] (1 / 4)).
  - split; reflexivity.
  - repeat constructor.
  - exists (1 / 10); split; [left; reflexivity | lra].
  - lra.
Defined.

(** ** Saving and loading *)

Lemma append_cancel_l (p a b : string) :
  (p ++ a)%string = (p ++ b)%string -> a = b.
Proof.
  induction p as [|c p IH]; simpl; intros H; [exact H|].
  injection H as H. auto.
Qed.

Lemma slot_file_inj (filename : string) (a b : IO.slot) :
  IO.slot_file filename a = IO.slot_file filename b -> a = b.
Proof.
  unfold IO.slot_file. intros H.
  apply append_cancel_l, append_cancel_l in H.
  destruct a, b; try reflexivity; discriminate.
Qed.

Section Files.
Context {dolfin : Dolfin} {storage : IO.Storage}.

Lemma load_eq (filename : string) (self : FieldSolver) :
  IO.load filename self =
  IO.io_bind (IO.load_attribute (IO.slot_file filename IO.Field)
                (IO.slot_name IO.Field) set_field self)
  (fun self =>
  IO.io_bind (IO.load_attribute (IO.slot_file filename IO.FieldGradMag)
                (IO.slot_name IO.FieldGradMag) set_field_grad_mag self)
  (fun self =>
  IO.io_bind (IO.load_attribute (IO.slot_file filename IO.Residual)
                (IO.slot_name IO.Residual) set_residual self)
  (fun self =>
  IO.io_bind (IO.load_attribute (IO.slot_file filename IO.Laplacian)
                (IO.slot_name IO.Laplacian) set_laplacian self)
  (fun self =>
  IO.io_bind (IO.load_attribute (IO.slot_file filename IO.PotentialDerivative)
                (IO.slot_name IO.PotentialDerivative)
                set_potential_derivative self)
  (fun self =>
  IO.io_bind (IO.load_attribute (IO.slot_file filename IO.FieldGrad)
                (IO.slot_name IO.FieldGrad) set_field_grad self)
  (fun self =>
  IO.io_bind (IO.load_attribute (IO.slot_file filename IO.PField)
                (IO.slot_name IO.PField) set_p_field self)
  (fun self => IO.io_ret self))))))).
Proof. reflexivity. Qed.

Lemma save_solution_eq (filename : string) (self : FieldSolver) :
  IO.save_solution ("Saved Solutions/" ++ filename) self =
  IO.io_bind (IO.save_attribute (IO.get_slot IO.Field self)
                (IO.slot_file filename IO.Field) (IO.slot_name IO.Field))
  (fun _ =>
  IO.io_bind (IO.save_attribute (IO.get_slot IO.FieldGradMag self)
                (IO.slot_file filename IO.FieldGradMag)
                (IO.slot_name IO.FieldGradMag))
  (fun _ =>
  IO.io_bind (IO.save_attribute (IO.get_slot IO.Residual self)
                (IO.slot_file filename IO.Residual)
                (IO.slot_name IO.Residual))
  (fun _ =>
  IO.io_bind (IO.save_attribute (IO.get_slot IO.Laplacian self)
                (IO.slot_file filename IO.Laplacian)
                (IO.slot_name IO.Laplacian))
  (fun _ =>
  IO.io_bind (IO.save_attribute (IO.get_slot IO.PotentialDerivative self)
                (IO.slot_file filename IO.PotentialDerivative)
                (IO.slot_name IO.PotentialDerivative))
  (fun _ =>
  IO.io_bind (IO.save_attribute (IO.get_slot IO.FieldGrad self)
                (IO.slot_file filename IO.FieldGrad)
                (IO.slot_name IO.FieldGrad))
  (fun _ =>
  IO.save_attribute (IO.get_slot IO.PField self)
    (IO.slot_file filename IO.PField) (IO.slot_name IO.PField))))))).
Proof. reflexivity. Qed.

Lemma load_attribute_run (filename : string) (sl : IO.slot)
    (store : option Vec -> FieldSolver -> FieldSolver)
    (self : FieldSolver) (w : IO.world) :
  IO.load_attribute (IO.slot_file filename sl) (IO.slot_name sl) store self w
  = match IO.stored filename sl (IO.w_files w) with
    | None => (IO.Done self, w)
    | Some (Some v) => (IO.Done (store (Some v) self), w)
    | Some None =>
        (IO.Failed (IO.Solver (RuntimeError "Unable to read HDF5 file")), w)
    end.
Proof.
  unfold IO.load_attribute, IO.stored, IO.io_bind, IO.os_path_exists,
    IO.hdf5_read, IO.io_ret.
  destruct (IO.path_exists _ _); [|reflexivity].
  destruct (IO.h5_read _ _ _); reflexivity.
Qed.

Lemma with_slots_ext (f g : IO.slot -> option Vec) (self : FieldSolver) :
  (forall sl, f sl = g sl) -> IO.with_slots f self = IO.with_slots g self.
Proof. intros H; unfold IO.with_slots; now rewrite !H. Qed.

(** X11.  [load] replaces exactly the slots whose file exists by what the file
    holds; the other slots and every parameter of the object stay as they
    are, and nothing is written or printed.  In particular, for a name
    under which nothing was saved the object is returned as it is,
    without an error.  A file that exists and cannot be read ends the
    method with the exception of the read. *)
Theorem load_reads_what_exists (filename : string) (self : FieldSolver)
    (w : IO.world) :
  ((forall sl, IO.stored filename sl (IO.w_files w) <> Some None) ->
   IO.load filename self w
   = (IO.Done
        (IO.with_slots
           (fun sl =>
              match IO.stored filename sl (IO.w_files w) with
              | Some (Some v) => Some v
              | _ => IO.get_slot sl self
              end) self), w)) /\
  ((forall sl, IO.stored filename sl (IO.w_files w) = None) ->
   IO.load filename self w = (IO.Done self, w)) /\
  ((exists sl, IO.stored filename sl (IO.w_files w) = Some None) ->
   IO.load filename self w
   = (IO.Failed (IO.Solver (RuntimeError "Unable to read HDF5 file")), w)).
Proof.
  rewrite load_eq. unfold IO.io_bind, IO.io_ret.
  split; [|split].
  - intros Hr. unfold IO.with_slots; cbv beta.
    pose proof (Hr IO.Field) as H1. pose proof (Hr IO.FieldGradMag) as H2.
    pose proof (Hr IO.Residual) as H3. pose proof (Hr IO.Laplacian) as H4.
    pose proof (Hr IO.PotentialDerivative) as H5.
    pose proof (Hr IO.FieldGrad) as H6. pose proof (Hr IO.PField) as H7.
    rewrite !load_attribute_run.
    destruct (IO.stored filename IO.Field _) as [[v1|]|]; try congruence;
    rewrite !load_attribute_run;
    destruct (IO.stored filename IO.FieldGradMag _) as [[v2|]|];
      try congruence;
    rewrite !load_attribute_run;
    destruct (IO.stored filename IO.Residual _) as [[v3|]|]; try congruence;
    rewrite !load_attribute_run;
    destruct (IO.stored filename IO.Laplacian _) as [[v4|]|]; try congruence;
    rewrite !load_attribute_run;
    destruct (IO.stored filename IO.PotentialDerivative _) as [[v5|]|];
      try congruence;
    rewrite !load_attribute_run;
    destruct (IO.stored filename IO.FieldGrad _) as [[v6|]|]; try congruence;
    rewrite !load_attribute_run;
    destruct (IO.stored filename IO.PField _) as [[v7|]|]; try congruence;
    destruct self; reflexivity.
  - intros Hn. rewrite !load_attribute_run, !Hn.
    repeat (rewrite !load_attribute_run, !Hn). reflexivity.
  - intros [sl Hsl].
    rewrite !load_attribute_run.
    destruct (IO.stored filename IO.Field _) as [[v1|]|] eqn:E1;
      try reflexivity;
    rewrite !load_attribute_run;
    destruct (IO.stored filename IO.FieldGradMag _) as [[v2|]|] eqn:E2;
      try reflexivity;
    rewrite !load_attribute_run;
    destruct (IO.stored filename IO.Residual _) as [[v3|]|] eqn:E3;
      try reflexivity;
    rewrite !load_attribute_run;
    destruct (IO.stored filename IO.Laplacian _) as [[v4|]|] eqn:E4;
      try reflexivity;
    rewrite !load_attribute_run;
    destruct (IO.stored filename IO.PotentialDerivative _) as [[v5|]|] eqn:E5;
      try reflexivity;
    rewrite !load_attribute_run;
    destruct (IO.stored filename IO.FieldGrad _) as [[v6|]|] eqn:E6;
      try reflexivity;
    rewrite !load_attribute_run;
    destruct (IO.stored filename IO.PField _) as [[v7|]|] eqn:E7;
      try reflexivity;
    destruct sl; congruence.
Qed.

Lemma save_attribute_stored {laws : IO.StorageLaws storage}
    (filename : string) (sl : IO.slot) (a : option Vec) (w w' : IO.world) :
  IO.save_attribute a (IO.slot_file filename sl) (IO.slot_name sl) w
  = (IO.Done tt, w') ->
  IO.w_log w' = IO.w_log w /\ IO.w_plt w' = IO.w_plt w /\
  IO.w_stdin w' = IO.w_stdin w /\
  (forall sl', sl' <> sl ->
     IO.stored filename sl' (IO.w_files w')
     = IO.stored filename sl' (IO.w_files w)) /\
  IO.stored filename sl (IO.w_files w')
  = match a with
    | Some v => Some (Some v)
    | None => IO.stored filename sl (IO.w_files w)
    end.
Proof.
  unfold IO.save_attribute. destruct a as [v|].
  - unfold IO.hdf5_write.
    destruct (IO.h5_write _ _ v (IO.w_files w)) as [fs [|]] eqn:Ew;
      intros Hr; [|discriminate].
    injection Hr as <-. simpl.
    repeat split; try reflexivity.
    + intros sl' Hne. unfold IO.stored.
      destruct (IO.written_elsewhere _ _ _ _ _ (IO.slot_file filename sl') Ew)
        as [He Hrd].
      { intros Heq. apply slot_file_inj in Heq. contradiction. }
      now rewrite He, Hrd.
    + unfold IO.stored.
      destruct (IO.written_is_read _ _ _ _ _ Ew) as [Hrd He].
      now rewrite He, Hrd.
  - unfold IO.io_ret. intros Hr. injection Hr as <-. auto.
Qed.

(** What the files hold once the attributes have been written. *)
Lemma save_solution_stored {laws : IO.StorageLaws storage}
    (filename : string) (self : FieldSolver) (w w' : IO.world) :
  IO.save_solution ("Saved Solutions/" ++ filename) self w = (IO.Done tt, w') ->
  IO.w_log w' = IO.w_log w /\ IO.w_plt w' = IO.w_plt w /\
  IO.w_stdin w' = IO.w_stdin w /\
  forall sl,
    IO.stored filename sl (IO.w_files w')
    = match IO.get_slot sl self with
      | Some v => Some (Some v)
      | None => IO.stored filename sl (IO.w_files w)
      end.
Proof.
  rewrite save_solution_eq. unfold IO.io_bind. intros Hr.
  destruct (IO.save_attribute (IO.get_slot IO.Field self) _ _ w)
    as [[[]|e|] w1] eqn:E1; try discriminate.
  destruct (IO.save_attribute (IO.get_slot IO.FieldGradMag self) _ _ w1)
    as [[[]|e|] w2] eqn:E2; try discriminate.
  destruct (IO.save_attribute (IO.get_slot IO.Residual self) _ _ w2)
    as [[[]|e|] w3] eqn:E3; try discriminate.
  destruct (IO.save_attribute (IO.get_slot IO.Laplacian self) _ _ w3)
    as [[[]|e|] w4] eqn:E4; try discriminate.
  destruct (IO.save_attribute (IO.get_slot IO.PotentialDerivative self) _ _ w4)
    as [[[]|e|] w5] eqn:E5; try discriminate.
  destruct (IO.save_attribute (IO.get_slot IO.FieldGrad self) _ _ w5)
    as [[[]|e|] w6] eqn:E6; try discriminate.
  apply save_attribute_stored in E1 as (L1 & P1 & S1 & O1 & A1).
  apply save_attribute_stored in E2 as (L2 & P2 & S2 & O2 & A2).
  apply save_attribute_stored in E3 as (L3 & P3 & S3 & O3 & A3).
  apply save_attribute_stored in E4 as (L4 & P4 & S4 & O4 & A4).
  apply save_attribute_stored in E5 as (L5 & P5 & S5 & O5 & A5).
  apply save_attribute_stored in E6 as (L6 & P6 & S6 & O6 & A6).
  apply save_attribute_stored in Hr as (L7 & P7 & S7 & O7 & A7).
  repeat split; try congruence.
  intros sl; destruct sl.
  - rewrite O7, O6, O5, O4, O3, O2 by discriminate. exact A1.
  - rewrite O7, O6, O5, O4, O3 by discriminate. rewrite A2.
    now rewrite O1 by discriminate.
  - rewrite O7, O6, O5, O4 by discriminate. rewrite A3.
    now rewrite O2, O1 by discriminate.
  - rewrite O7, O6, O5 by discriminate. rewrite A4.
    now rewrite O3, O2, O1 by discriminate.
  - rewrite O7, O6 by discriminate. rewrite A5.
    now rewrite O4, O3, O2, O1 by discriminate.
  - rewrite O7 by discriminate. rewrite A6.
    now rewrite O5, O4, O3, O2, O1 by discriminate.
  - rewrite A7.
    now rewrite O6, O5, O4, O3, O2, O1 by discriminate.
Qed.

(** What [save] does once the directory is there. *)
Lemma save_created (filename : string) (auto_override : bool)
    (self : FieldSolver) (w : IO.world) (fs : IO.Files) :
  IO.makedirs ("Saved Solutions/" ++ filename) (IO.w_files w) = IO.Created fs ->
  IO.save filename auto_override self w
  = IO.save_solution ("Saved Solutions/" ++ filename) self
      (IO.mkWorld (IO.w_log w) (IO.w_plt w) fs (IO.w_stdin w)).
Proof.
  intros Hm. unfold IO.save, IO.io_bind, IO.makedirs_or. now rewrite Hm.
Qed.

Lemma save_override (filename : string) (self : FieldSolver) (w : IO.world) :
  IO.makedirs ("Saved Solutions/" ++ filename) (IO.w_files w)
  = IO.AlreadyExists ->
  IO.save filename true self w
  = IO.save_solution ("Saved Solutions/" ++ filename) self w.
Proof.
  intros Hm. unfold IO.save, IO.io_bind, IO.makedirs_or. now rewrite Hm.
Qed.

(** X12.  Saving into a directory that did not exist and loading under the same
    name, into any object: the slots that were filled when saving come
    back as they were saved, the slots that were empty stay as they are
    in the loading object, and so does every parameter of that object;
    the load changes nothing in the world.  *)
Theorem save_load_round_trip {laws : IO.StorageLaws storage}
    (filename : string) (auto_override : bool) (self other : FieldSolver)
    (w w' : IO.world) (fs : IO.Files) :
  IO.makedirs ("Saved Solutions/" ++ filename) (IO.w_files w) = IO.Created fs ->
  IO.save filename auto_override self w = (IO.Done tt, w') ->
  IO.load filename other w'
  = (IO.Done
       (IO.with_slots
          (fun sl =>
             match IO.get_slot sl self with
             | Some v => Some v
             | None => IO.get_slot sl other
             end) other), w').
Proof.
  intros Hm Hs. rewrite (save_created _ _ _ _ _ Hm) in Hs.
  apply save_solution_stored in Hs as (_ & _ & _ & Hst). simpl in Hst.
  assert (Hfresh : forall sl, IO.stored filename sl fs = None).
  { intros sl. unfold IO.stored.
    now rewrite (IO.created_is_empty _ _ _ sl Hm). }
  destruct (load_reads_what_exists filename other w') as [Hl _].
  rewrite Hl.
  - f_equal. f_equal. apply with_slots_ext. intros sl.
    rewrite Hst, Hfresh. now destruct (IO.get_slot sl self).
  - intros sl. rewrite Hst, Hfresh. now destruct (IO.get_slot sl self).
Qed.

(** X13.  Saving over a directory that exists does not remove or change the
    files of the slots that are empty in the saved object: a later load
    under the same name brings back the older functions for these slots,
    next to the new ones. *)
Theorem save_keeps_older_files {laws : IO.StorageLaws storage}
    (filename : string) (self : FieldSolver) (w w' : IO.world) :
  IO.makedirs ("Saved Solutions/" ++ filename) (IO.w_files w)
  = IO.AlreadyExists ->
  IO.save filename true self w = (IO.Done tt, w') ->
  (forall sl, IO.get_slot sl self = None ->
     IO.stored filename sl (IO.w_files w')
     = IO.stored filename sl (IO.w_files w)) /\
  forall other : FieldSolver,
    (forall sl, IO.get_slot sl self = None ->
       IO.stored filename sl (IO.w_files w) <> Some None) ->
    IO.load filename other w'
    = (IO.Done
         (IO.with_slots
            (fun sl =>
               match IO.get_slot sl self with
               | Some v => Some v
               | None =>
                   match IO.stored filename sl (IO.w_files w) with
                   | Some (Some v) => Some v
                   | _ => IO.get_slot sl other
                   end
               end) other), w').
Proof.
  intros Hm Hs. rewrite (save_override _ _ _ Hm) in Hs.
  apply save_solution_stored in Hs as (_ & _ & _ & Hst).
  split.
  - intros sl Hn. now rewrite Hst, Hn.
  - intros other Hold.
    destruct (load_reads_what_exists filename other w') as [Hl _].
    rewrite Hl.
    + f_equal. f_equal. apply with_slots_ext. intros sl.
      rewrite Hst. now destruct (IO.get_slot sl self).
    + intros sl. rewrite Hst.
      destruct (IO.get_slot sl self) eqn:Eg; [discriminate|].
      now apply Hold.
Qed.

Lemma ask_overwrite_run (path : string) (w : IO.world) :
  let asked :=
    IO.w_log w
    ++ [EvPrint ("Directory " ++ path ++ " already exists.");
        EvPrint "Overwrite files inside this directory? (y/n) "] in
  IO.ask_overwrite path false w
  = match IO.w_stdin w with
    | [] => (IO.Failed IO.EOFError,
             IO.mkWorld asked (IO.w_plt w) (IO.w_files w) [])
    | answer :: rest =>
        let w1 := IO.mkWorld asked (IO.w_plt w) (IO.w_files w) rest in
        if (IO.lower answer =? "y")%string then (IO.Done tt, w1)
        else if (IO.lower answer =? "n")%string
             then (IO.Failed (IO.Solver SystemExit), w1)
             else (IO.Failed (IO.Solver SystemExit),
                   IO.mkWorld (asked ++ [EvPrint "Invalid input."])
                     (IO.w_plt w) (IO.w_files w) rest)
    end.
Proof.
  intros asked. subst asked.
  unfold IO.ask_overwrite, IO.io_bind, IO.io_print, IO.lift, print, emit,
    IO.input, IO.sys_exit, IO.io_raise, IO.io_ret.
  cbn [IO.w_log IO.w_plt IO.w_files IO.w_stdin].
  destruct (IO.w_stdin w) as [|answer rest].
  - rewrite <- app_assoc. reflexivity.
  - cbn [IO.w_log IO.w_plt IO.w_files IO.w_stdin].
    rewrite <- !app_assoc.
    destruct (IO.lower answer =? "y")%string; [reflexivity|].
    destruct (IO.lower answer =? "n")%string; [reflexivity|].
    cbn [IO.w_log IO.w_plt IO.w_files IO.w_stdin].
    rewrite <- !app_assoc. reflexivity.
Qed.

(** X14.  When the directory exists and [auto_override] is off, [save] prints
    that the directory exists and asks; an answer that lowers to [y] lets
    the save go on as with [auto_override]; an answer that lowers to [n]
    ends the program; any other answer prints [Invalid input.] and ends
    the program as well; at the end of the input the question fails.
    Unless the answer is yes, no file is written. *)
Theorem save_asks_before_overwriting (filename : string)
    (self : FieldSolver) (w : IO.world) :
  let path := ("Saved Solutions/" ++ filename)%string in
  let asked :=
    IO.w_log w
    ++ [EvPrint ("Directory " ++ path ++ " already exists.");
        EvPrint "Overwrite files inside this directory? (y/n) "] in
  IO.makedirs path (IO.w_files w) = IO.AlreadyExists ->
  (IO.w_stdin w = [] ->
   IO.save filename false self w
   = (IO.Failed IO.EOFError,
      IO.mkWorld asked (IO.w_plt w) (IO.w_files w) [])) /\
  (forall answer rest, IO.w_stdin w = answer :: rest ->
     let w1 := IO.mkWorld asked (IO.w_plt w) (IO.w_files w) rest in
     (IO.lower answer = "y"%string ->
      IO.save filename false self w = IO.save filename true self w1) /\
     (IO.lower answer = "n"%string ->
      IO.save filename false self w = (IO.Failed (IO.Solver SystemExit), w1)) /\
     (IO.lower answer <> "y"%string -> IO.lower answer <> "n"%string ->
      IO.save filename false self w
      = (IO.Failed (IO.Solver SystemExit),
         IO.mkWorld (asked ++ [EvPrint "Invalid input."]) (IO.w_plt w)
           (IO.w_files w) rest))).
Proof.
  intros path asked Hm.
  assert (Hrun : IO.save filename false self w
                 = match IO.ask_overwrite path false w with
                   | (IO.Done _, w1) => IO.save_solution path self w1
                   | (IO.Failed e, w1) => (IO.Failed e, w1)
                   | (IO.Unfinished, w1) => (IO.Unfinished, w1)
                   end).
  { unfold IO.save, IO.io_bind, IO.makedirs_or. fold path. rewrite Hm.
    reflexivity. }
  rewrite Hrun, ask_overwrite_run. fold asked. split.
  - intros ->. reflexivity.
  - intros answer rest -> w1.
    assert (Hw1 : IO.makedirs ("Saved Solutions/" ++ filename)
                    (IO.w_files w1) = IO.AlreadyExists) by exact Hm.
    rewrite (save_override filename self w1 Hw1). fold path.
    repeat split.
    + intros ->. reflexivity.
    + intros ->. reflexivity.
    + intros Hy Hn.
      apply String.eqb_neq in Hy, Hn. now rewrite Hy, Hn.
Qed.

End Files.

(** ** The files in memory obey the laws *)

Lemma prefix_append (p x : string) : String.prefix p (p ++ x) = true.
Proof.
  induction p as [|c p IH]; simpl; [destruct x; reflexivity|].
  destruct (Ascii.ascii_dec c c); [exact IH | congruence].
Qed.

Lemma string_app_assoc (a b c : string) :
  ((a ++ b) ++ c)%string = (a ++ (b ++ c))%string.
Proof. induction a as [|x a IH]; simpl; [reflexivity | now rewrite IH]. Qed.

Lemma append_nil_r (p : string) : (p ++ EmptyString)%string = p.
Proof. induction p as [|c p IH]; simpl; [reflexivity | now rewrite IH]. Qed.

Lemma lookup_beneath (P q : string) (l : list (string * (string * Vec))) :
  existsb (String.prefix P) (map fst l) = false ->
  String.prefix P q = true ->
  IO.lookup q l = None.
Proof.
  induction l as [|[q' c] l IH]; simpl; intros He Hp; [reflexivity|].
  apply orb_false_iff in He as [H1 H2].
  destruct (q' =? q)%string eqn:E.
  - apply String.eqb_eq in E. subst q'. congruence.
  - now apply IH.
Qed.

Lemma dirs_beneath (P q : string) (l : list string) :
  existsb (String.prefix P) l = false ->
  String.prefix P q = true ->
  existsb (String.eqb q) l = false.
Proof.
  induction l as [|q' l IH]; simpl; intros He Hp; [reflexivity|].
  apply orb_false_iff in He as [H1 H2].
  rewrite (IH H2 Hp), orb_false_r.
  apply String.eqb_neq. intros ->. congruence.
Qed.

Lemma memory_laws : IO.StorageLaws IO.memory.
Proof.
  constructor.
  - intros path name v d d' Hw. simpl in *. unfold IO.disk_write in Hw.
    injection Hw as <-.
    unfold IO.disk_read, IO.disk_exists; simpl.
    rewrite !String.eqb_refl. split; [reflexivity | apply orb_true_r].
  - intros path name v d d' other Hw Hne. simpl in *.
    unfold IO.disk_write in Hw. injection Hw as <-.
    unfold IO.disk_read, IO.disk_exists; simpl.
    assert (E : (path =? other)%string = false)
      by (apply String.eqb_neq; congruence).
    rewrite E. split; reflexivity.
  - intros filename d d' sl Hm.
    change (IO.disk_makedirs ("Saved Solutions/" ++ filename) d
            = IO.Created d') in Hm.
    change (IO.disk_exists (IO.slot_file filename sl) d' = false).
    assert (Hsf : IO.slot_file filename sl
                  = ((("Saved Solutions/" ++ filename) ++ "/")
                     ++ IO.slot_name sl ++ ".h5")%string)
      by (unfold IO.slot_file; now rewrite !string_app_assoc).
    assert (Hne : IO.slot_file filename sl
                  <> ("Saved Solutions/" ++ filename)%string).
    { intros Heq. unfold IO.slot_file in Heq.
      rewrite <- (append_nil_r filename) in Heq at 2.
      apply append_cancel_l, append_cancel_l in Heq. discriminate. }
    revert Hm Hsf Hne.
    generalize (IO.slot_file filename sl) as file.
    generalize ("Saved Solutions/" ++ filename)%string as path.
    intros path file Hm Hsf Hne.
    unfold IO.disk_makedirs in Hm.
    destruct (IO.disk_exists path d) eqn:Ex; [discriminate|].
    destruct (existsb _ _) eqn:Eb; [discriminate|].
    injection Hm as <-.
    rewrite existsb_app in Eb. apply orb_false_iff in Eb as [Ed Ef].
    assert (Hp : String.prefix (path ++ "/") file = true)
      by (rewrite Hsf; apply prefix_append).
    unfold IO.disk_exists. cbn [IO.dirs IO.files existsb].
    rewrite (lookup_beneath _ _ _ Ef Hp), (dirs_beneath _ _ _ Ed Hp).
    rewrite !orb_false_r.
    now apply String.eqb_neq.
Qed.

Lemma load_reads_what_exists_witness :
  IO.load (dolfin := Toy.plain) "nothing" solved_solver
    (IO.new_world IO.empty_disk [])
  = (IO.Done solved_solver, IO.new_world IO.empty_disk []) /\
  IO.load (dolfin := Toy.plain) "run" solved_solver
    (IO.new_world IO.used_disk [])
  = (IO.Done (set_residual (Some [3]) solved_solver),
     IO.new_world IO.used_disk []) /\
  IO.load (dolfin := Toy.plain) "run" solved_solver
    (IO.new_world IO.broken_disk [])
  = (IO.Failed (IO.Solver (RuntimeError "Unable to read HDF5 file")),
     IO.new_world IO.broken_disk []).
Proof.
  split; [|split].
  - apply (proj1 (proj2 (load_reads_what_exists (dolfin := Toy.plain)
                           (storage := IO.memory) "nothing" solved_solver
                           (IO.new_world IO.empty_disk [])))).
    intros sl; destruct sl; reflexivity.
  - rewrite (proj1 (load_reads_what_exists (dolfin := Toy.plain)
                      (storage := IO.memory) "run" solved_solver
                      (IO.new_world IO.used_disk []))); [reflexivity|].
    intros sl; destruct sl; vm_compute; discriminate.
  - apply (proj2 (proj2 (load_reads_what_exists (dolfin := Toy.plain)
                           (storage := IO.memory) "run" solved_solver
                           (IO.new_world IO.broken_disk [])))).
    exists IO.Field. reflexivity.
Defined.

Lemma save_load_round_trip_witness :
  let w' := snd (IO.save (dolfin := Toy.plain) "run" false solved_solver
                   (IO.new_world IO.empty_disk [])) in
  IO.load (dolfin := Toy.plain) "run" plain_solver w'
  = (IO.Done solved_solver, w').
Proof.
  intros w'.
  rewrite (save_load_round_trip (dolfin := Toy.plain) (laws := memory_laws)
             "run" false solved_solver plain_solver
             (IO.new_world IO.empty_disk []) w'
             (IO.mkDisk ["Saved Solutions/run"%string] []));
    reflexivity.
Defined.

Lemma save_keeps_older_files_witness :
  let w' := snd (IO.save (dolfin := Toy.plain) "run" true solved_solver
                   (IO.new_world IO.used_disk [])) in
  IO.load (dolfin := Toy.plain) "run" plain_solver w'
  = (IO.Done (set_residual (Some [3]) solved_solver), w').
Proof.
  intros w'.
  destruct (save_keeps_older_files (dolfin := Toy.plain) (laws := memory_laws)
              "run" solved_solver (IO.new_world IO.used_disk []) w'
              eq_refl eq_refl)
    as [_ Hl].
  rewrite (Hl plain_solver); [reflexivity|].
  intros sl _; destruct sl; vm_compute; discriminate.
Defined.

Lemma save_asks_before_overwriting_witness :
  let asked :=
    [EvPrint "Directory Saved Solutions/run already exists.";
     EvPrint "Overwrite files inside this directory? (y/n) "] in
  IO.save (dolfin := Toy.plain) "run" false solved_solver
    (IO.new_world IO.used_disk ["N"%string])
  = (IO.Failed (IO.Solver SystemExit),
     @IO.mkWorld IO.memory asked [] IO.used_disk []) /\
  IO.save (dolfin := Toy.plain) "run" false solved_solver
    (IO.new_world IO.used_disk ["Y"%string])
  = IO.save (dolfin := Toy.plain) "run" true solved_solver
      (@IO.mkWorld IO.memory asked [] IO.used_disk []) /\
  IO.save (dolfin := Toy.plain) "run" false solved_solver
    (IO.new_world IO.used_disk ["yes"%string])
  = (IO.Failed (IO.Solver SystemExit),
     @IO.mkWorld IO.memory (asked ++ [EvPrint "Invalid input."]) []
       IO.used_disk []) /\
  IO.save (dolfin := Toy.plain) "run" false solved_solver
    (IO.new_world IO.used_disk [])
  = (IO.Failed IO.EOFError, @IO.mkWorld IO.memory asked [] IO.used_disk []).
Proof.
  intros asked.
  assert (Hans : forall answer,
            _ /\ _ /\ _)
    by (intros answer;
        exact (proj2 (save_asks_before_overwriting (dolfin := Toy.plain)
                        (storage := IO.memory) "run" solved_solver
                        (IO.new_world IO.used_disk [answer]) eq_refl)
                 answer [] eq_refl)).
  split; [|split; [|split]].
  - apply (proj1 (proj2 (Hans "N"%string))). reflexivity.
  - apply (proj1 (Hans "Y"%string)). reflexivity.
  - apply (proj2 (proj2 (Hans "yes"%string))); simpl; discriminate.
  - apply (proj1 (save_asks_before_overwriting (dolfin := Toy.plain)
                    (storage := IO.memory) "run" solved_solver
                    (IO.new_world IO.used_disk []) eq_refl)).
    reflexivity.
Defined.

(** ** Plotting *)

Section Slots.
Context {dolfin : Dolfin}.

Lemma keeps_refl (self : FieldSolver) : IO.keeps self self.
Proof. intros sl v H; exact H. Qed.

Lemma keeps_trans (a b c : FieldSolver) :
  IO.keeps a b -> IO.keeps b c -> IO.keeps a c.
Proof. intros H1 H2 sl v H; apply H2, H1, H. Qed.

Lemma with_slots_twice (f g : IO.slot -> option Vec) (self : FieldSolver) :
  IO.with_slots f (IO.with_slots g self) = IO.with_slots f self.
Proof. reflexivity. Qed.

Lemma same_setup_refl (self : FieldSolver) : IO.same_setup self self.
Proof. unfold IO.same_setup; destruct self; reflexivity. Qed.

Lemma same_setup_trans (a b c : FieldSolver) :
  IO.same_setup a b -> IO.same_setup b c -> IO.same_setup a c.
Proof.
  unfold IO.same_setup. intros H1 H2.
  etransitivity; [exact H2|].
  generalize (fun sl => IO.get_slot sl c) as f. intros f.
  rewrite H1. apply with_slots_twice.
Qed.

Lemma same_setup_with_slots (f : IO.slot -> option Vec) (self : FieldSolver) :
  IO.same_setup self (IO.with_slots f self).
Proof. unfold IO.same_setup; destruct self; reflexivity. Qed.

Lemma same_setup_dimension (self s : FieldSolver) :
  IO.same_setup self s ->
  mesh_dimension s = mesh_dimension self /\ alpha s = alpha self.
Proof. unfold IO.same_setup; intros ->; split; reflexivity. Qed.

Ltac stored_keeps :=
  match goal with
  | |- IO.keeps _ _ =>
      let sl := fresh "sl" in let v := fresh "v" in let H := fresh "H" in
      intros sl v H; destruct sl; simpl in *; congruence
  | |- IO.same_setup ?a _ =>
      unfold IO.same_setup; destruct a; reflexivity
  end.

(** The guards and the operations they call fill their slot and leave
    the filled slots and the parameters as they are. *)
Lemma ensure_field_keeps (self s : FieldSolver) tr t :
  ensure_field self tr = (Ok s, t) ->
  field s <> None /\ s = set_field (field s) self /\
  IO.keeps self s /\ IO.same_setup self s.
Proof.
  intros Hr. pose proof (ensure_field_ok _ _ _ _ Hr) as [Hf Hs].
  split; [exact Hf|]. split; [exact Hs|].
  unfold ensure_field in Hr. destruct (field self) as [phi|] eqn:Ef.
  - unfold ret in Hr. injection Hr as <- <-.
    split; [apply keeps_refl | apply same_setup_refl].
  - rewrite Hs. split; stored_keeps.
Qed.

Lemma calc_field_grad_vector_keeps m pc (self s : FieldSolver) tr t :
  field_grad self = None ->
  calc_field_grad_vector m pc self tr = (Ok s, t) ->
  field s <> None /\ field_grad s <> None /\
  s = set_field_grad (field_grad s) (set_field (field s) self) /\
  IO.keeps self s /\ IO.same_setup self s.
Proof.
  intros Hn Hr.
  destruct (calc_field_grad_vector_ok _ _ _ _ _ _ Hr)
    as (s0 & t0 & phi & He & Hf & Hc).
  rewrite (calc_field_grad_vector_present _ _ _ _ _ Hf) in Hc.
  apply project_inv in Hc as (x & _ & -> & _).
  destruct (ensure_field_keeps _ _ _ _ He) as (_ & Hs0 & Hk & Hss).
  simpl. rewrite Hf. split; [discriminate|]. split; [discriminate|].
  split; [|split].
  - rewrite Hs0 at 1. rewrite Hf. destruct self; reflexivity.
  - apply (keeps_trans _ s0); [exact Hk|].
    assert (Hg : field_grad s0 = None) by (rewrite Hs0; exact Hn).
    stored_keeps.
  - apply (same_setup_trans _ s0); [exact Hss | stored_keeps].
Qed.

Lemma ensure_field_grad_keeps (self s : FieldSolver) tr t :
  ensure_field_grad self tr = (Ok s, t) ->
  field_grad s <> None /\ (field self <> None -> field s <> None) /\
  s = set_field_grad (field_grad s) (set_field (field s) self) /\
  IO.keeps self s /\ IO.same_setup self s.
Proof.
  intros Hr. pose proof (ensure_field_grad_ok _ _ _ _ Hr) as [Hg Hf].
  split; [exact Hg|]. split; [exact Hf|].
  unfold ensure_field_grad in Hr.
  destruct (field_grad self) as [g|] eqn:Eg.
  - unfold ret in Hr. injection Hr as <- <-.
    split; [destruct self; reflexivity|].
    split; [apply keeps_refl | apply same_setup_refl].
  - destruct (calc_field_grad_vector_keeps _ _ _ _ _ _ Eg Hr)
      as (_ & _ & Hs & Hk & Hss). auto.
Qed.

Lemma calc_field_grad_mag_keeps m pc (self s : FieldSolver) tr t :
  field_grad_mag self = None ->
  calc_field_grad_mag m pc self tr = (Ok s, t) ->
  field_grad_mag s <> None /\ IO.keeps self s /\ IO.same_setup self s.
Proof.
  intros Hn Hr. unfold calc_field_grad_mag in Hr. unfold bind at 1 in Hr.
  destruct (ensure_field self tr) as [[s0|e|] t0] eqn:E0; try discriminate.
  destruct (ensure_field_keeps _ _ _ _ E0) as (Hf & Hs0 & Hk & Hss).
  destruct (field s0) as [phi|] eqn:Ef; [clear Hf|congruence].
  assert (Hc : calc_field_grad_mag m pc s0 t0 = (Ok s, t)).
  { unfold calc_field_grad_mag. unfold bind at 1.
    rewrite ensure_field_present by congruence. exact Hr. }
  rewrite (calc_field_grad_mag_present _ _ _ _ _ Ef) in Hc.
  apply project_inv in Hc as (x & _ & -> & _).
  assert (Hg : field_grad_mag s0 = None) by (rewrite Hs0; exact Hn).
  split; [discriminate|]. split.
  - apply (keeps_trans _ s0); [exact Hk | stored_keeps].
  - apply (same_setup_trans _ s0); [exact Hss | stored_keeps].
Qed.

Lemma calc_potential_derivative_keeps m pc (self s : FieldSolver) tr t :
  potential_derivative self = None ->
  calc_potential_derivative m pc self tr = (Ok s, t) ->
  potential_derivative s <> None /\ IO.keeps self s /\ IO.same_setup self s.
Proof.
  intros Hn Hr. unfold calc_potential_derivative in Hr.
  unfold bind at 1 in Hr.
  destruct (ensure_field self tr) as [[s0|e|] t0] eqn:E0; try discriminate.
  destruct (ensure_field_keeps _ _ _ _ E0) as (Hf & Hs0 & Hk & Hss).
  destruct (field s0) as [phi|] eqn:Ef; [clear Hf|congruence].
  assert (Hc : calc_potential_derivative m pc s0 t0 = (Ok s, t)).
  { unfold calc_potential_derivative. unfold bind at 1.
    rewrite ensure_field_present by congruence. exact Hr. }
  rewrite (calc_potential_derivative_present _ _ _ _ _ Ef) in Hc.
  apply project_inv in Hc as (x & _ & -> & _).
  assert (Hg : potential_derivative s0 = None) by (rewrite Hs0; exact Hn).
  split; [discriminate|]. split.
  - apply (keeps_trans _ s0); [exact Hk | stored_keeps].
  - apply (same_setup_trans _ s0); [exact Hss | stored_keeps].
Qed.

Lemma calc_laplacian_keeps m pc (self s : FieldSolver) tr t :
  laplacian self = None ->
  calc_laplacian m pc self tr = (Ok s, t) ->
  laplacian s <> None /\ IO.keeps self s /\ IO.same_setup self s.
Proof.
  intros Hn Hr. unfold calc_laplacian in Hr. unfold bind at 1 in Hr.
  destruct (ensure_field_grad self tr) as [[s0|e|] t0] eqn:E0;
    try discriminate.
  destruct (ensure_field_grad_keeps _ _ _ _ E0) as (Hg & _ & Hs0 & Hk & Hss).
  destruct (field_grad s0) as [g|] eqn:Eg; [clear Hg|congruence].
  assert (Hc : calc_laplacian m pc s0 t0 = (Ok s, t)).
  { unfold calc_laplacian. unfold bind at 1.
    rewrite ensure_field_grad_present by congruence. exact Hr. }
  rewrite (calc_laplacian_present _ _ _ _ _ Eg) in Hc.
  apply project_inv in Hc as (x & _ & -> & _).
  assert (Hl : laplacian s0 = None) by (rewrite Hs0; exact Hn).
  split; [discriminate|]. split.
  - apply (keeps_trans _ s0); [exact Hk | stored_keeps].
  - apply (same_setup_trans _ s0); [exact Hss | stored_keeps].
Qed.

Lemma calc_field_residual_keeps m pc (self s : FieldSolver) tr t :
  residual self = None ->
  calc_field_residual m pc self tr = (Ok s, t) ->
  residual s <> None /\ IO.keeps self s /\ IO.same_setup self s.
Proof.
  intros Hn Hr. unfold calc_field_residual in Hr. unfold bind at 1 in Hr.
  destruct (ensure_field self tr) as [[s0|e|] t0] eqn:E0; try discriminate.
  destruct (ensure_field_keeps _ _ _ _ E0) as (Hf & Hs0 & Hk & Hss).
  unfold bind at 1 in Hr.
  destruct (ensure_field_grad s0 t0) as [[s2|e|] t2] eqn:E2; try discriminate.
  destruct (ensure_field_grad_keeps _ _ _ _ E2) as (Hg & Hf2 & Hs2 & Hk2 & Hss2).
  specialize (Hf2 Hf).
  destruct (field s2) as [phi|] eqn:Ef; [clear Hf2|congruence].
  destruct (field_grad s2) as [g|] eqn:Eg; [clear Hg|congruence].
  assert (Hc : calc_field_residual m pc s2 t2 = (Ok s, t)).
  { unfold calc_field_residual. unfold bind at 1.
    rewrite ensure_field_present by congruence. unfold ret at 1.
    unfold bind at 1.
    rewrite ensure_field_grad_present by congruence. exact Hr. }
  rewrite (calc_field_residual_present _ _ _ _ _ _ Ef Eg) in Hc.
  apply project_inv in Hc as (x & _ & -> & _).
  assert (Hres : residual s2 = None).
  { rewrite Hs2. simpl. rewrite Hs0. exact Hn. }
  split; [discriminate|]. split.
  - apply (keeps_trans _ s0); [exact Hk|].
    apply (keeps_trans _ s2); [exact Hk2 | stored_keeps].
  - apply (same_setup_trans _ s0); [exact Hss|].
    apply (same_setup_trans _ s2); [exact Hss2 | stored_keeps].
Qed.

Lemma calc_density_field_keeps (self s : FieldSolver) tr t :
  p_field self = None ->
  calc_density_field self tr = (Ok s, t) ->
  p_field s <> None /\ IO.keeps self s /\ IO.same_setup self s.
Proof.
  intros Hn Hr. unfold calc_density_field, interpolate_, bind, emit, ret in Hr.
  injection Hr as <- <-.
  split; [discriminate|]. split; stored_keeps.
Qed.

End Slots.

Section Plots.
Context {dolfin : Dolfin} {storage : IO.Storage}.

Lemma world_eta (w : IO.world) :
  IO.mkWorld (IO.w_log w) (IO.w_plt w) (IO.w_files w) (IO.w_stdin w) = w.
Proof. destruct w; reflexivity. Qed.

(** The figure of a block whose scale is neither [linear] nor [log]. *)
Lemma plot_attribute_invalid (scale : string) (a : option Vec)
    (dpi : option Z) (title ll lg : string) (lv : Vec -> Vec)
    (ext : option string) (arg : string) (w : IO.world) :
  IO.lower scale <> "linear"%string -> IO.lower scale <> "log"%string ->
  IO.plot_attribute scale a dpi title ll lg lv ext arg w
  = (IO.Done tt,
     IO.mkWorld
       (IO.w_log w
        ++ [EvPrint EmptyString;
            EvPrint (IO.quoted scale ++ " is not a valid argument for "
                     ++ arg ++ ".")])
       (IO.w_plt w
        ++ [IO.Figure None dpi; IO.Title title; IO.Ylabel "y"; IO.Xlabel "x"])
       (IO.w_files w) (IO.w_stdin w)).
Proof.
  intros H1 H2. apply String.eqb_neq in H1, H2.
  unfold IO.plot_attribute. rewrite H1, H2.
  unfold IO.io_bind, IO.plt, IO.io_print, IO.lift, print, emit.
  cbn [IO.w_log IO.w_plt IO.w_files IO.w_stdin].
  now rewrite <- !app_assoc.
Qed.

(** The figure of a block is the same every time: it depends on the
    scale and the function only, and uses the backend for nothing. *)
Lemma plot_attribute_run (scale : string) (f : Vec)
    (dpi : option Z) (title ll lg : string) (lv : Vec -> Vec)
    (ext : option string) (arg : string) :
  exists calls lines, forall w : IO.world,
    IO.plot_attribute scale (Some f) dpi title ll lg lv ext arg w
    = (IO.Done tt,
       IO.mkWorld (IO.w_log w ++ map EvPrint lines) (IO.w_plt w ++ calls)
         (IO.w_files w) (IO.w_stdin w)).
Proof.
  destruct (String.eqb (IO.lower scale) "linear") eqn:E1;
    [|destruct (String.eqb (IO.lower scale) "log") eqn:E2].
  - exists [IO.Figure None dpi; IO.Title title; IO.Ylabel "y"; IO.Xlabel "x";
            IO.DolfinPlot f ext; IO.Colorbar ll], [].
    intros w. unfold IO.plot_attribute. rewrite E1.
    unfold IO.io_bind, IO.plt, IO.the_function, IO.io_ret.
    cbn [IO.w_log IO.w_plt IO.w_files IO.w_stdin map].
    now rewrite <- !app_assoc, app_nil_r.
  - exists [IO.Figure None dpi; IO.Title title; IO.Ylabel "y"; IO.Xlabel "x";
            IO.DolfinPlot (lv f) ext; IO.Colorbar lg], [].
    intros w. unfold IO.plot_attribute. rewrite E1, E2.
    unfold IO.io_bind, IO.plt, IO.the_function, IO.io_ret.
    cbn [IO.w_log IO.w_plt IO.w_files IO.w_stdin map].
    now rewrite <- !app_assoc, app_nil_r.
  - exists [IO.Figure None dpi; IO.Title title; IO.Ylabel "y"; IO.Xlabel "x"],
      [EmptyString;
       (IO.quoted scale ++ " is not a valid argument for " ++ arg ++ ".")%string].
    intros w. apply String.eqb_neq in E1, E2.
    now rewrite plot_attribute_invalid.
Qed.

(** One block, and the same block on an object that keeps what the first
    run left. *)
Lemma plot_block_again (sl : IO.slot) (calc : FieldSolver -> M FieldSolver)
    (scale : option string) (dpi : option Z) (title ll lg : string)
    (lv : Vec -> Vec) (ext : option string) (arg : string)
    (self s1 : FieldSolver) (w w1 : IO.world) :
  (forall self s tr t,
     IO.get_slot sl self = None -> calc self tr = (Ok s, t) ->
     IO.get_slot sl s <> None /\ IO.keeps self s /\ IO.same_setup self s) ->
  IO.plot_block scale (IO.get_slot sl) calc dpi title ll lg lv ext arg self w
  = (IO.Done s1, w1) ->
  IO.keeps self s1 /\ IO.same_setup self s1 /\
  exists calls lines,
    IO.w_plt w1 = IO.w_plt w ++ calls /\
    forall (s2 : FieldSolver) (w2 : IO.world),
      IO.keeps s1 s2 ->
      IO.plot_block scale (IO.get_slot sl) calc dpi title ll lg lv ext arg
        s2 w2
      = (IO.Done s2,
         IO.mkWorld (IO.w_log w2 ++ map EvPrint lines) (IO.w_plt w2 ++ calls)
           (IO.w_files w2) (IO.w_stdin w2)).
Proof.
  intros Hcalc Hr. unfold IO.plot_block in *.
  destruct scale as [scale|].
  - unfold IO.io_bind at 1 in Hr.
    assert (Hguard : exists tr,
              (match IO.get_slot sl self with
               | None => calc self
               | Some _ => ret self
               end) (IO.w_log w) = (Ok s1, tr) /\
              exists v, IO.get_slot sl s1 = Some v /\
              IO.keeps self s1 /\ IO.same_setup self s1 /\
              IO.plot_attribute scale (Some v) dpi title ll lg lv ext arg
                (IO.mkWorld tr (IO.w_plt w) (IO.w_files w) (IO.w_stdin w))
              = (IO.Done tt, w1)).
    { unfold IO.lift in Hr.
      destruct ((match IO.get_slot sl self with
                 | None => calc self
                 | Some _ => ret self
                 end) (IO.w_log w)) as [[s|e|] tr] eqn:Eg; try discriminate.
      unfold IO.io_bind in Hr.
      destruct (IO.plot_attribute _ _ _ _ _ _ _ _ _ _) as [[[]|e|] w'] eqn:Ep;
        try discriminate.
      unfold IO.io_ret in Hr. injection Hr as <- <-.
      exists tr. split; [reflexivity|].
      destruct (IO.get_slot sl self) as [v|] eqn:Es.
      - unfold ret in Eg. injection Eg as <- <-.
        exists v. rewrite Es in Ep.
        repeat split; auto using keeps_refl, same_setup_refl.
      - destruct (Hcalc _ _ _ _ Es Eg) as (Hv & Hk & Hss).
        destruct (IO.get_slot sl s) as [v|] eqn:Es'; [|congruence].
        exists v. auto. }
    destruct Hguard as (tr & _ & v & Hv & Hk & Hss & Hp).
    split; [exact Hk|]. split; [exact Hss|].
    destruct (plot_attribute_run scale v dpi title ll lg lv ext arg)
      as (calls & lines & Hrun).
    exists calls, lines. split.
    + rewrite Hrun in Hp. injection Hp as <-. reflexivity.
    + intros s2 w2 Hk2.
      unfold IO.io_bind at 1. unfold IO.lift.
      rewrite (Hk2 _ _ Hv). unfold ret.
      cbn [IO.w_log IO.w_plt IO.w_files IO.w_stdin].
      unfold IO.io_bind. rewrite (Hk2 _ _ Hv), world_eta, Hrun. reflexivity.
  - unfold IO.io_ret in Hr. injection Hr as <- <-.
    split; [apply keeps_refl|]. split; [apply same_setup_refl|].
    exists [], []. split; [now rewrite app_nil_r|].
    intros s2 w2 _. unfold IO.io_ret. simpl.
    now rewrite !app_nil_r, world_eta.
Qed.

(** X15.  A call of [plot_results] that returns leaves an object on which the
    same call draws the same figures again and prints the same lines
    without any call to the backend: every attribute it needs is in
    place.  The call fills slots only: slots that were filled and the
    parameters are as before.  [field_scale] has no influence at all. *)
Theorem plot_results_again
    (field_scale grad_scale res_scale lapl_scale dpot_scale
       density_scale : option string)
    (self s : FieldSolver) (w w' : IO.world) :
  IO.plot_results field_scale grad_scale res_scale lapl_scale dpot_scale
    density_scale self w = (IO.Done s, w') ->
  IO.keeps self s /\ IO.same_setup self s /\
  exists calls lines,
    IO.w_plt w' = IO.w_plt w ++ calls /\
    forall (other_scale : option string) (w2 : IO.world),
      IO.plot_results other_scale grad_scale res_scale lapl_scale dpot_scale
        density_scale s w2
      = (IO.Done s,
         IO.mkWorld (IO.w_log w2 ++ map EvPrint lines) (IO.w_plt w2 ++ calls)
           (IO.w_files w2) (IO.w_stdin w2)).
Proof.
  intros Hr. unfold IO.plot_results in Hr.
  unfold IO.io_bind at 1 in Hr.
  destruct (IO.plot_block grad_scale _ _ _ _ _ _ _ _ _ self w)
    as [[s1|e|] w1] eqn:E1; try discriminate.
  unfold IO.io_bind at 1 in Hr.
  destruct (IO.plot_block res_scale _ _ _ _ _ _ _ _ _ s1 w1)
    as [[s2|e|] w2] eqn:E2; try discriminate.
  unfold IO.io_bind at 1 in Hr.
  destruct (IO.plot_block lapl_scale _ _ _ _ _ _ _ _ _ s2 w2)
    as [[s3|e|] w3] eqn:E3; try discriminate.
  unfold IO.io_bind at 1 in Hr.
  destruct (IO.plot_block dpot_scale _ _ _ _ _ _ _ _ _ s3 w3)
    as [[s4|e|] w4] eqn:E4; try discriminate.
  unfold IO.io_bind at 1 in Hr.
  destruct (IO.plot_block density_scale _ _ _ _ _ _ _ _ _ s4 w4)
    as [[s5|e|] w5] eqn:E5; try discriminate.
  unfold IO.io_ret in Hr. injection Hr as <- <-.
  destruct (plot_block_again IO.FieldGradMag _ _ _ _ _ _ _ _ _ _ _ _ _
              (calc_field_grad_mag_keeps "cg" "jacobi") E1)
    as (K1 & S1 & c1 & l1 & P1 & A1).
  destruct (plot_block_again IO.Residual _ _ _ _ _ _ _ _ _ _ _ _ _
              (calc_field_residual_keeps "richardson" "icc") E2)
    as (K2 & S2 & c2 & l2 & P2 & A2).
  destruct (plot_block_again IO.Laplacian _ _ _ _ _ _ _ _ _ _ _ _ _
              (calc_laplacian_keeps "richardson" "icc") E3)
    as (K3 & S3 & c3 & l3 & P3 & A3).
  destruct (plot_block_again IO.PotentialDerivative _ _ _ _ _ _ _ _ _ _ _ _ _
              (calc_potential_derivative_keeps "richardson" "icc") E4)
    as (K4 & S4 & c4 & l4 & P4 & A4).
  destruct (plot_block_again IO.PField _ _ _ _ _ _ _ _ _ _ _ _ _
              calc_density_field_keeps E5)
    as (K5 & S5 & c5 & l5 & P5 & A5).
  pose proof (keeps_trans _ _ _ K4 K5) as K45.
  pose proof (keeps_trans _ _ _ K3 K45) as K35.
  pose proof (keeps_trans _ _ _ K2 K35) as K25.
  split; [exact (keeps_trans _ _ _ K1 K25)|].
  split.
  { apply (same_setup_trans _ s1); [exact S1|].
    apply (same_setup_trans _ s2); [exact S2|].
    apply (same_setup_trans _ s3); [exact S3|].
    apply (same_setup_trans _ s4); [exact S4 | exact S5]. }
  exists (c1 ++ c2 ++ c3 ++ c4 ++ c5), (l1 ++ l2 ++ l3 ++ l4 ++ l5).
  split.
  - rewrite P5, P4, P3, P2, P1. now rewrite <- !app_assoc.
  - intros other_scale v. unfold IO.plot_results.
    unfold IO.io_bind at 1.
    change field_grad_mag with (IO.get_slot IO.FieldGradMag).
    rewrite (A1 s5 v K25).
    unfold IO.io_bind at 1.
    change residual with (IO.get_slot IO.Residual).
    rewrite (A2 s5 _ K35).
    unfold IO.io_bind at 1.
    change laplacian with (IO.get_slot IO.Laplacian).
    rewrite (A3 s5 _ K45).
    unfold IO.io_bind at 1.
    change potential_derivative with (IO.get_slot IO.PotentialDerivative).
    rewrite (A4 s5 _ K5).
    unfold IO.io_bind at 1.
    change p_field with (IO.get_slot IO.PField).
    rewrite (A5 s5 _ (keeps_refl s5)).
    unfold IO.io_ret.
    cbn [IO.w_log IO.w_plt IO.w_files IO.w_stdin].
    now rewrite !map_app, <- !app_assoc.
Qed.

(** X16.  A scale that is neither [linear] nor [log] in any spelling of the
    case is not rejected before the work is done: the attribute is
    computed when it is missing, a figure is opened, titled and
    labelled, and only then the message is printed over the empty
    figure; the method returns normally. *)
Theorem plot_results_invalid_scale (field_scale : option string)
    (scale : string) (self s : FieldSolver) (w : IO.world) (tr : log) :
  IO.lower scale <> "linear"%string -> IO.lower scale <> "log"%string ->
  (match residual self with
   | None => calc_field_residual "richardson" "icc" self
   | Some _ => ret self
   end) (IO.w_log w) = (Ok s, tr) ->
  IO.plot_results field_scale None (Some scale) None None None self w
  = (IO.Done s,
     IO.mkWorld
       (tr ++ [EvPrint EmptyString;
               EvPrint (IO.quoted scale
                        ++ " is not a valid argument for res_scale.")])
       (IO.w_plt w
        ++ [IO.Figure None (Some 150%Z); IO.Title "Field Residual";
            IO.Ylabel "y"; IO.Xlabel "x"])
       (IO.w_files w) (IO.w_stdin w)).
Proof.
  intros H1 H2 Hg.
  unfold IO.plot_results, IO.plot_block.
  unfold IO.io_bind at 1. unfold IO.io_ret at 1.
  unfold IO.io_bind at 1. unfold IO.io_bind at 1. unfold IO.lift.
  rewrite Hg. unfold IO.io_bind at 1.
  rewrite plot_attribute_invalid by assumption.
  reflexivity.
Qed.

End Plots.

Section Slice.
Context {dolfin : Dolfin} {storage : IO.Storage}.

Lemma residual_components_ok (self s : FieldSolver) tr t :
  IO.residual_components self tr = (Ok s, t) ->
  residual s <> None /\ laplacian s <> None /\
  potential_derivative s <> None /\ p_field s <> None /\
  IO.keeps self s /\ IO.same_setup self s.
Proof.
  intros Hr. unfold IO.residual_components in Hr.
  unfold bind at 1 in Hr.
  assert (G : forall (sl : IO.slot) (calc : FieldSolver -> M FieldSolver)
                (a b : FieldSolver) t1 t2,
             (forall self s tr t,
                IO.get_slot sl self = None -> calc self tr = (Ok s, t) ->
                IO.get_slot sl s <> None /\ IO.keeps self s /\
                IO.same_setup self s) ->
             (match IO.get_slot sl a with
              | None => calc a
              | Some _ => ret a
              end) t1 = (Ok b, t2) ->
             IO.get_slot sl b <> None /\ IO.keeps a b /\ IO.same_setup a b).
  { intros sl calc a b t1 t2 Hc Hg.
    destruct (IO.get_slot sl a) as [v|] eqn:Ea.
    - unfold ret in Hg. injection Hg as <- <-.
      split; [congruence|]. split; [apply keeps_refl | apply same_setup_refl].
    - eapply Hc; eauto. }
  destruct ((match residual self with
             | None => calc_field_residual "richardson" "icc" self
             | Some _ => ret self
             end) tr) as [[s1|e|] t1] eqn:E1; try discriminate.
  unfold bind at 1 in Hr.
  destruct ((match laplacian s1 with
             | None => calc_laplacian "richardson" "icc" s1
             | Some _ => ret s1
             end) t1) as [[s2|e|] t2] eqn:E2; try discriminate.
  unfold bind at 1 in Hr.
  destruct ((match potential_derivative s2 with
             | None => calc_potential_derivative "richardson" "icc" s2
             | Some _ => ret s2
             end) t2) as [[s3|e|] t3] eqn:E3; try discriminate.
  apply (G IO.Residual _ _ _ _ _
           (calc_field_residual_keeps "richardson" "icc")) in E1
    as (F1 & K1 & S1).
  apply (G IO.Laplacian _ _ _ _ _
           (calc_laplacian_keeps "richardson" "icc")) in E2
    as (F2 & K2 & S2).
  apply (G IO.PotentialDerivative _ _ _ _ _
           (calc_potential_derivative_keeps "richardson" "icc")) in E3
    as (F3 & K3 & S3).
  apply (G IO.PField _ _ _ _ _ calc_density_field_keeps) in Hr
    as (F4 & K4 & S4).
  simpl in F1, F2, F3, F4.
  assert (K : forall a b sl, IO.keeps a b ->
                IO.get_slot sl a <> None -> IO.get_slot sl b <> None).
  { intros a b sl Hk Ha. destruct (IO.get_slot sl a) as [v|] eqn:Ea;
      [|congruence]. rewrite (Hk _ _ Ea). discriminate. }
  repeat split.
  - apply (K s3 s IO.Residual K4), (K s2 s3 IO.Residual K3),
      (K s1 s2 IO.Residual K2), F1.
  - apply (K s3 s IO.Laplacian K4), (K s2 s3 IO.Laplacian K3), F2.
  - apply (K s3 s IO.PotentialDerivative K4), F3.
  - exact F4.
  - eauto using keeps_trans.
  - eauto using same_setup_trans.
Qed.

Lemma probe_attribute_some (fuel : nat) (f : Vec) (gv origin : list R)
    (limit : R) (self : FieldSolver) (w : IO.world) :
  IO.probe_attribute fuel (Some f) gv origin limit self w
  = IO.lift (probe_function fuel f gv origin limit self) w.
Proof. reflexivity. Qed.

Lemma probe_function_nonpositive (self : FieldSolver) fuel function
    (gv origin : list R) limit tr :
  dimensions_match gv origin self -> limit <= 0 ->
  probe_function fuel function gv origin limit self tr = (Ok (Some []), tr).
Proof.
  intros Hd Hl. rewrite probe_function_matching by exact Hd.
  rewrite probe_loop_eq. destruct (Rlt_dec 0 limit) as [Hlt|_]; [lra|].
  reflexivity.
Qed.

Lemma vec_max_ramp (ds : R) (n a : nat) :
  0 <= ds ->
  vec_max (map (fun k => INR k * ds) (seq a (S n))) = INR (a + n) * ds.
Proof.
  intros Hds. revert a. induction n as [|n IH]; intros a.
  - simpl. now rewrite Nat.add_0_r.
  - change (seq a (S (S n))) with (a :: seq (S a) (S n)).
    rewrite map_cons.
    assert (Hv : forall x l y, vec_max (x :: y :: l) = Rmax x (vec_max (y :: l)))
      by reflexivity.
    change (seq (S a) (S n)) with (S a :: seq (S (S a)) n) at 1.
    rewrite map_cons, Hv.
    change (INR (S a) * ds :: map (fun k => INR k * ds) (seq (S (S a)) n))
      with (map (fun k => INR k * ds) (seq (S a) (S n))).
    rewrite IH. replace (S a + n)%nat with (a + S n)%nat by lia.
    apply Rmax_right. apply Rmult_le_compat_r; [exact Hds|].
    apply le_INR. lia.
Qed.

Lemma probe_attribute_wrong (fuel : nat) (f : Vec) (gv origin : list R)
    (limit : R) (self : FieldSolver) (w : IO.world) :
  ~ dimensions_match gv origin self ->
  IO.probe_attribute fuel (Some f) gv origin limit self w
  = (IO.Done None,
     IO.mkWorld
       (IO.w_log w
        ++ [EvPrint "Vectors given have the wrong dimesion.";
            EvPrint "Mesh is %iD while 'gradient_vector' and 'origin' are dimension %i and %i, respectively."])
       (IO.w_plt w) (IO.w_files w) (IO.w_stdin w)).
Proof.
  intros Hd. rewrite probe_attribute_some. unfold IO.lift, probe_function.
  rewrite dimensions_test_fails.
  - unfold bind, print, emit, ret. now rewrite <- app_assoc.
  - unfold dimensions_match in Hd.
    destruct (Z.eq_dec (Z.of_nat (List.length gv)) (mesh_dimension self));
      [|now left].
    destruct (Z.eq_dec (Z.of_nat (List.length origin)) (mesh_dimension self));
      [|now right].
    tauto.
Qed.

Lemma probe_attribute_empty (fuel : nat) (f : Vec) (gv origin : list R)
    (limit : R) (self : FieldSolver) (w : IO.world) :
  dimensions_match gv origin self -> limit <= 0 ->
  IO.probe_attribute fuel (Some f) gv origin limit self w
  = (IO.Done (Some []), w).
Proof.
  intros Hd Hl. rewrite probe_attribute_some. unfold IO.lift.
  rewrite probe_function_nonpositive by assumption.
  now rewrite world_eta.
Qed.

Lemma probe_attribute_samples (fuel : nat) (f : Vec) (gv origin : list R)
    (limit : R) (K : nat) (vals : list R) (self : FieldSolver)
    (w : IO.world) :
  dimensions_match gv origin self -> 0 < limit -> (1 <= K)%nat ->
  exit_step gv origin limit K -> (K <= fuel)%nat ->
  sample f (points gv origin 0 K) = Some vals ->
  IO.probe_attribute fuel (Some f) gv origin limit self w
  = (IO.Done (Some vals),
     IO.mkWorld (IO.w_log w ++ map EvEval (points gv origin 0 K))
       (IO.w_plt w) (IO.w_files w) (IO.w_stdin w)).
Proof.
  intros Hd Hl HK Hex Hf Hs. rewrite probe_attribute_some. unfold IO.lift.
  now rewrite (probe_function_exit self f gv origin limit K fuel vals).
Qed.

Lemma dimensions_match_setup (gv origin : list R) (self s : FieldSolver) :
  IO.same_setup self s ->
  dimensions_match gv origin s <-> dimensions_match gv origin self.
Proof.
  intros Hs. unfold dimensions_match.
  now rewrite (proj1 (same_setup_dimension _ _ Hs)).
Qed.

(** X17.  With vectors of the wrong dimension the method does all the solver
    work first (the four attributes are computed when missing), then each
    of the four probes prints the two lines of the dimension message and
    returns [None], and the method ends with the [TypeError] of
    [len(None)]; nothing is drawn. *)
Theorem plot_residual_slice_wrong_dimension (fuel : nat)
    (gv origin : list R) (limit : R) (self s : FieldSolver) (w : IO.world)
    (tr : log) :
  let message :=
    [EvPrint "Vectors given have the wrong dimesion.";
     EvPrint "Mesh is %iD while 'gradient_vector' and 'origin' are dimension %i and %i, respectively."] in
  ~ dimensions_match gv origin self ->
  IO.residual_components self (IO.w_log w) = (Ok s, tr) ->
  IO.plot_residual_slice fuel gv origin limit self w
  = (IO.Failed (IO.Solver (TypeError "object of type 'NoneType' has no len()")),
     IO.mkWorld (tr ++ message ++ message ++ message ++ message)
       (IO.w_plt w) (IO.w_files w) (IO.w_stdin w)).
Proof.
  intros message Hd Hc.
  destruct (residual_components_ok _ _ _ _ Hc) as (R1 & R2 & R3 & R4 & _ & Hss).
  assert (Hd' : ~ dimensions_match gv origin s)
    by (now rewrite (dimensions_match_setup _ _ _ _ Hss)).
  unfold IO.plot_residual_slice.
  unfold IO.io_bind at 1. unfold IO.lift at 1. rewrite Hc.
  destruct (residual s) as [r|]; [|congruence].
  destruct (laplacian s) as [l|]; [|congruence].
  destruct (potential_derivative s) as [d|]; [|congruence].
  destruct (p_field s) as [pf|]; [|congruence].
  unfold IO.io_bind at 1. rewrite probe_attribute_wrong by exact Hd'.
  unfold IO.io_bind at 1. rewrite probe_attribute_wrong by exact Hd'.
  unfold IO.io_bind at 1. rewrite probe_attribute_wrong by exact Hd'.
  unfold IO.io_bind at 1. rewrite probe_attribute_wrong by exact Hd'.
  unfold IO.io_bind at 1. unfold IO.len, IO.io_raise.
  cbn [IO.w_log IO.w_plt IO.w_files IO.w_stdin].
  fold message. now rewrite <- !app_assoc.
Qed.

(** X18.  With a [radial_limit] that is not positive (and vectors of the right
    dimension) nothing is sampled, and the method fails on the maximum
    of the empty list of abscissae, with a [ValueError], after it has
    opened and titled the figure. *)
Theorem plot_residual_slice_empty (fuel : nat)
    (gv origin : list R) (limit : R) (self s : FieldSolver) (w : IO.world)
    (tr : log) :
  dimensions_match gv origin self ->
  limit <= 0 ->
  IO.residual_components self (IO.w_log w) = (Ok s, tr) ->
  IO.plot_residual_slice fuel gv origin limit self w
  = (IO.Failed (IO.ValueError "max() arg is an empty sequence"),
     IO.mkWorld tr
       (IO.w_plt w
        ++ [IO.Figure (Some (58 / 10, 4)) (Some 150%Z);
            IO.Title "Residual Components Vs Displacement Along Given Vector"])
       (IO.w_files w) (IO.w_stdin w)).
Proof.
  intros Hd Hl Hc.
  destruct (residual_components_ok _ _ _ _ Hc) as (R1 & R2 & R3 & R4 & _ & Hss).
  assert (Hd' : dimensions_match gv origin s)
    by (now rewrite (dimensions_match_setup _ _ _ _ Hss)).
  unfold IO.plot_residual_slice.
  unfold IO.io_bind at 1. unfold IO.lift at 1. rewrite Hc.
  destruct (residual s) as [r|]; [|congruence].
  destruct (laplacian s) as [l|]; [|congruence].
  destruct (potential_derivative s) as [d|]; [|congruence].
  destruct (p_field s) as [pf|]; [|congruence].
  unfold IO.io_bind at 1. rewrite probe_attribute_empty by assumption.
  unfold IO.io_bind at 1. rewrite probe_attribute_empty by assumption.
  unfold IO.io_bind at 1. rewrite probe_attribute_empty by assumption.
  unfold IO.io_bind at 1. rewrite probe_attribute_empty by assumption.
  unfold IO.io_bind, IO.len, IO.io_ret, IO.plt, IO.max_, IO.io_raise.
  cbn [IO.w_log IO.w_plt IO.w_files IO.w_stdin List.length seq map].
  now rewrite <- !app_assoc.
Qed.

(** X19.  The figure of a run that goes through: with [K] the first step from
    1 on that leaves the ball, the four attributes are sampled at the
    steps [0, ..., K - 1] and drawn over the abscissae [k * |step|]; the
    x axis runs from 0 to [(K - 1) * |step|]; the residual and the
    potential derivative are drawn in absolute value, the Laplacian in
    absolute value times [alpha], the density as it is. *)
Theorem plot_residual_slice_figure (fuel : nat)
    (gv origin : list R) (limit : R) (K : nat) (self s : FieldSolver)
    (w : IO.world) (tr : log) (r l d pf rv lv dv pv : list R) :
  dimensions_match gv origin self ->
  0 < limit -> (1 <= K)%nat -> exit_step gv origin limit K ->
  (K <= fuel)%nat ->
  IO.residual_components self (IO.w_log w) = (Ok s, tr) ->
  residual s = Some r -> laplacian s = Some l ->
  potential_derivative s = Some d -> p_field s = Some pf ->
  sample r (points gv origin 0 K) = Some rv ->
  sample l (points gv origin 0 K) = Some lv ->
  sample d (points gv origin 0 K) = Some dv ->
  sample pf (points gv origin 0 K) = Some pv ->
  let xs := map (fun k => INR k * linalg_norm gv) (seq 0 K) in
  let visited := map EvEval (points gv origin 0 K) in
  IO.plot_residual_slice fuel gv origin limit self w
  = (IO.Done s,
     IO.mkWorld (tr ++ visited ++ visited ++ visited ++ visited)
       (IO.w_plt w
        ++ [IO.Figure (Some (58 / 10, 4)) (Some 150%Z);
            IO.Title "Residual Components Vs Displacement Along Given Vector";
            IO.Xlim 0 (INR (K - 1) * linalg_norm gv);
            IO.Yscale "log";
            IO.Xlabel "$\hat{x}$";
            IO.Plot xs (map Rabs rv) "$\left|\hat{\varepsilon}\right|$";
            IO.Plot xs (map (Rmult (alpha self)) (map Rabs lv))
              "$\alpha \left|\nabla^2 \hat{\phi}\right|$";
            IO.Plot xs (map Rabs dv) "$\hat{\phi}^{-(n+1)}$";
            IO.Plot xs pv "$\left|-\hat{\rho}\right|$";
            IO.Legend])
       (IO.w_files w) (IO.w_stdin w)).
Proof.
  intros Hd Hl HK Hex Hf Hc Er El Ed Ep Sr Sl Sd Sp xs visited.
  destruct (residual_components_ok _ _ _ _ Hc) as (_ & _ & _ & _ & _ & Hss).
  assert (Hd' : dimensions_match gv origin s)
    by (now rewrite (dimensions_match_setup _ _ _ _ Hss)).
  assert (Ha : alpha s = alpha self) by apply (same_setup_dimension _ _ Hss).
  pose proof (sample_length _ _ _ Sr) as Lr.
  pose proof (sample_length _ _ _ Sl) as Ll.
  pose proof (sample_length _ _ _ Sd) as Ld.
  pose proof (sample_length _ _ _ Sp) as Lp.
  rewrite points_length in Lr, Ll, Ld, Lp.
  unfold IO.plot_residual_slice.
  unfold IO.io_bind at 1. unfold IO.lift at 1. rewrite Hc, Er, El, Ed, Ep.
  unfold IO.io_bind at 1.
  rewrite (probe_attribute_samples fuel r gv origin limit K rv) by assumption.
  unfold IO.io_bind at 1.
  rewrite (probe_attribute_samples fuel l gv origin limit K lv) by assumption.
  unfold IO.io_bind at 1.
  rewrite (probe_attribute_samples fuel d gv origin limit K dv) by assumption.
  unfold IO.io_bind at 1.
  rewrite (probe_attribute_samples fuel pf gv origin limit K pv) by assumption.
  unfold IO.io_bind at 1. unfold IO.len, IO.io_ret. rewrite Lr. fold xs.
  assert (Hmax : IO.max_ xs
                 = IO.io_ret (INR (K - 1) * linalg_norm gv)).
  { destruct K as [|n]; [lia|]. unfold xs.
    unfold IO.max_. change (seq 0 (S n)) with (0%nat :: seq 1 n).
    rewrite map_cons.
    change (INR 0 * linalg_norm gv
            :: map (fun k => INR k * linalg_norm gv) (seq 1 n))
      with (map (fun k => INR k * linalg_norm gv) (seq 0 (S n))).
    rewrite vec_max_ramp by apply linalg_norm_nonneg.
    now replace (S n - 1)%nat with (0 + n)%nat by lia. }
  assert (Hxs : List.length xs = K)
    by (unfold xs; now rewrite length_map, length_seq).
  assert (Hplot : forall ys label (v : IO.world),
            List.length ys = K ->
            IO.plt_plot xs ys label v
            = (IO.Done tt,
               IO.mkWorld (IO.w_log v) (IO.w_plt v ++ [IO.Plot xs ys label])
                 (IO.w_files v) (IO.w_stdin v))).
  { intros ys label v Hy. unfold IO.plt_plot.
    now rewrite Hxs, Hy, Nat.eqb_refl. }
  assert (Hstep : forall (A B : Type) (c : IO.IO A) (k : A -> IO.IO B)
                    (v v' : IO.world) (a : A),
            c v = (IO.Done a, v') -> IO.io_bind c k v = k a v').
  { intros A B c k v v' a Hc'. unfold IO.io_bind. now rewrite Hc'. }
  assert (Hplt : forall (c : IO.plt_call) (v : IO.world),
            IO.plt c v
            = (IO.Done tt,
               IO.mkWorld (IO.w_log v) (IO.w_plt v ++ [c]) (IO.w_files v)
                 (IO.w_stdin v))) by reflexivity.
  repeat (first
    [ erewrite Hstep by apply Hplt
    | erewrite Hstep by (apply Hplot; rewrite ?length_map; assumption)
    | erewrite Hstep by (rewrite Hmax; reflexivity)
    | erewrite Hstep by reflexivity ];
    cbn [IO.w_log IO.w_plt IO.w_files IO.w_stdin]).
  unfold IO.io_ret. rewrite Ha. fold visited.
  now rewrite <- !app_assoc.
Qed.

End Slice.

Lemma plot_results_again_witness :
  exists calls lines,
    forall (other_scale : option string) (w2 : @IO.world IO.memory),
      IO.plot_results (dolfin := Toy.plain) other_scale (Some "Linear"%string)
        None None None None solved_solver w2
      = (IO.Done solved_solver,
         IO.mkWorld (IO.w_log w2 ++ map EvPrint lines) (IO.w_plt w2 ++ calls)
           (IO.w_files w2) (IO.w_stdin w2)).
Proof.
  destruct (plot_results_again (dolfin := Toy.plain) (storage := IO.memory)
              None (Some "Linear"%string) None None None None
              solved_solver solved_solver (IO.new_world IO.empty_disk [])
              _ eq_refl)
    as (_ & _ & calls & lines & _ & H).
  exists calls, lines. exact H.
Defined.

Lemma plot_results_invalid_scale_witness :
  IO.plot_results (dolfin := Toy.plain) None None (Some "cubic"%string)
    None None None full_solver (IO.new_world IO.empty_disk [])
  = (IO.Done full_solver,
     @IO.mkWorld IO.memory
       [EvPrint EmptyString;
        EvPrint (IO.quoted "cubic"
                 ++ " is not a valid argument for res_scale.")]
       [IO.Figure None (Some 150%Z); IO.Title "Field Residual";
        IO.Ylabel "y"; IO.Xlabel "x"]
       IO.empty_disk []).
Proof.
  apply (plot_results_invalid_scale (dolfin := Toy.plain)
           (storage := IO.memory) None "cubic" full_solver full_solver
           (IO.new_world IO.empty_disk []) []).
  - simpl; discriminate.
  - simpl; discriminate.
  - reflexivity.
Defined.

Lemma plot_residual_slice_wrong_dimension_witness :
  fst (IO.plot_residual_slice (dolfin := Toy.plain) 1 [1; 0; 0] [0; 0] 1
         full_solver (IO.new_world IO.empty_disk []))
  = IO.Failed (IO.Solver (TypeError "object of type 'NoneType' has no len()")).
Proof.
  rewrite (plot_residual_slice_wrong_dimension (dolfin := Toy.plain)
             (storage := IO.memory) 1 [1; 0; 0] [0; 0] 1 full_solver
             full_solver (IO.new_world IO.empty_disk []) []).
  - reflexivity.
  - intros [H _]. simpl in H. discriminate.
  - reflexivity.
Defined.

Lemma plot_residual_slice_empty_witness :
  fst (IO.plot_residual_slice (dolfin := Toy.plain) 1 [1; 0] [0; 0] 0
         full_solver (IO.new_world IO.empty_disk []))
  = IO.Failed (IO.ValueError "max() arg is an empty sequence").
Proof.
  rewrite (plot_residual_slice_empty (dolfin := Toy.plain)
             (storage := IO.memory) 1 [1; 0] [0; 0] 0 full_solver
             full_solver (IO.new_world IO.empty_disk []) []).
  - reflexivity.
  - split; reflexivity.
  - lra.
  - reflexivity.
Defined.

Lemma plot_residual_slice_figure_witness :
  fst (IO.plot_residual_slice (dolfin := Toy.plain) 3 [1 / 10; 0] [0; 0]
         (1 / 4) full_solver (IO.new_world IO.empty_disk []))
  = IO.Done full_solver.
Proof.
  rewrite (plot_residual_slice_figure (dolfin := Toy.plain)
             (storage := IO.memory) 3 [1 / 10; 0] [0; 0] (1 / 4) 3
             full_solver full_solver (IO.new_world IO.empty_disk []) []
             [1] [1] [1] [1] [1; 1; 1] [1; 1; 1] [1; 1; 1] [1; 1; 1]);
    try reflexivity; try lia; try lra.
  - split; reflexivity.
  - split.
    + rewrite ray_tenth_norm. simpl. lra.
    + intros k Hk. rewrite ray_tenth_norm.
      destruct k as [|[|[|k]]]; simpl; try lra; lia.
Defined.

(** ** The rays of the example script *)

Section ExampleRays.
Context {dolfin : Dolfin}.

Lemma sample_defined (function : Vec) (pts : list (list R)) :
  (forall q, In q pts -> eval_at function q <> None) ->
  exists vals, sample function pts = Some vals.
Proof.
  induction pts as [|q pts IH]; intros Hd.
  - now exists [].
  - destruct IH as [vals Hv]; [intros q' Hq'; apply Hd; now right|].
    destruct (eval_at function q) as [a|] eqn:Ea.
    + exists (a :: vals). simpl. now rewrite Ea, Hv.
    + exfalso. apply (Hd q); [now left | exact Ea].
Qed.

Lemma dr_norm (t : R) : linalg_norm (Example.dr t) = Example.dx.
Proof.
  unfold linalg_norm, Example.dr, sum_sq; simpl.
  replace (Example.dx * cos t * (Example.dx * cos t)
           + (Example.dx * sin t * (Example.dx * sin t) + 0))
    with (Example.dx * Example.dx * ((sin t)² + (cos t)²))
    by (unfold Rsqr; ring).
  rewrite sin2_cos2, Rmult_1_r.
  apply sqrt_square. unfold Example.dx. lra.
Qed.

Lemma ray_norm (t : R) (k : nat) :
  linalg_norm (path_point (Example.dr t) [0; 0] k) = INR k / 100.
Proof.
  rewrite path_point_norm; [|reflexivity|repeat constructor].
  rewrite dr_norm. unfold Example.dx. lra.
Qed.

(** The specification's prober returns the samples of the steps
    [k, ..., k + len - 1] when the steps after [k] up to [k + len - 1] are
    inside the limit, step [k + len] is not, and the function is defined
    at the sampled points. *)
Lemma probe_steps_run (function : Vec) (gv origin : list R) (limit : R) :
  forall len k fuel vals,
    (0 < len)%nat -> (len <= fuel)%nat ->
    sample function (points gv origin k len) = Some vals ->
    (forall j, (k < j < k + len)%nat ->
       linalg_norm (path_point gv origin j) < limit) ->
    linalg_norm (path_point gv origin (k + len)) >= limit ->
    Example.probe_steps fuel function gv origin limit k
    = Example.Samples vals.
Proof.
  induction len as [|len IH]; intros k fuel vals Hpos Hfuel Hs Hin Hout;
    [lia|].
  destruct fuel as [|fuel]; [lia|].
  rewrite points_S, sample_cons in Hs.
  simpl Example.probe_steps.
  destruct (eval_at function (path_point gv origin k)) as [a|];
    [|discriminate].
  destruct (sample function (points gv origin (S k) len)) as [l|] eqn:El;
    [|discriminate].
  injection Hs as <-.
  destruct len as [|len].
  - replace (k + 1)%nat with (S k) in Hout by lia.
    destruct (Rge_dec _ _) as [_|Hc]; [|contradiction].
    simpl in El. now injection El as <-.
  - destruct (Rge_dec (linalg_norm (path_point gv origin (S k))) limit)
      as [Hc|_].
    + assert (Hlt := Hin (S k) ltac:(lia)). lra.
    + rewrite (IH (S k) fuel l); try lia; try assumption.
      * reflexivity.
      * intros j Hj. apply Hin. lia.
      * replace (S k + S len)%nat with (k + S (S len))%nat by lia.
        exact Hout.
Qed.

(** X20.  On a 2-D mesh that covers the sampled points, every ray of the
    example script, whatever its angle, gives exactly [N = 100] samples,
    one for each abscissa of [X]: the step has length [dx = 0.01], the
    99th step is still inside [R_max = 0.9999] and the 100th is not.  So
    the arrays plotted against [X] have the length of [X].  The prober
    is the specification's, the class the script imports not being among
    the sources. *)
Theorem example_ray_length (fuel : nat) (phi : Vec) (t : R)
    (s : FieldSolver) :
  mesh_dimension s = 2%Z ->
  (forall k, (k < Example.N)%nat ->
     eval_at phi (path_point (Example.dr t) [0; 0] k) <> None) ->
  (Example.N <= fuel)%nat ->
  exists vals,
    Example.probe_ray fuel phi t s = Example.Samples vals /\
    sample phi (points (Example.dr t) [0; 0] 0 Example.N) = Some vals /\
    List.length vals = List.length Example.X.
Proof.
  intros Hdim Hdef Hfuel.
  destruct (sample_defined phi (points (Example.dr t) [0; 0] 0 Example.N))
    as [vals Hv].
  { intros q Hq. unfold points in Hq. apply in_map_iff in Hq as (k & <- & Hk).
    apply in_seq in Hk. apply Hdef. lia. }
  exists vals. split; [|split; [exact Hv|]].
  - unfold Example.probe_ray, Example.probe. rewrite Hdim. simpl negb.
    simpl orb. cbv iota.
    apply (probe_steps_run phi (Example.dr t) [0; 0] Example.R_max
             Example.N 0 fuel vals); try assumption.
    + unfold Example.N. lia.
    + intros j Hj. rewrite ray_norm. unfold Example.R_max.
      assert (Hle : INR j <= 99).
      { replace 99 with (INR 99) by (simpl; lra).
        apply le_INR. unfold Example.N in Hj. lia. }
      lra.
    + rewrite ray_norm. unfold Example.R_max, Example.N.
      replace (INR (0 + 100)) with 100 by (simpl; lra). lra.
  - rewrite (sample_length _ _ _ Hv), points_length.
    unfold Example.X. now rewrite length_map, length_seq.
Qed.

End ExampleRays.

Lemma example_ray_length_witness :
  exists vals,
    Example.probe_ray (dolfin := Toy.plain) 100 [7] 0 plain_solver
    = Example.Samples vals /\
    sample (dolfin := Toy.plain) [7]
      (points (Example.dr 0) [0; 0] 0 Example.N) = Some vals /\
    List.length vals = List.length Example.X.
Proof.
  apply (example_ray_length (dolfin := Toy.plain) 100 [7] 0 plain_solver).
  - reflexivity.
  - intros k _. discriminate.
  - unfold Example.N. lia.
Defined.

(** ** Thinning a list of points *)

Lemma last_item_app {A : Type} (l : list A) (a : A) :
  Meshing.last_item (l ++ [a]) = Some a.
Proof.
  induction l as [|b l IH]; [reflexivity|].
  simpl. destruct (l ++ [a]) eqn:E; [now destruct l | exact IH].
Qed.

Lemma last_item_split {A : Type} (l : list A) (a : A) :
  Meshing.last_item l = Some a -> l = removelast l ++ [a].
Proof.
  induction l as [|b l IH]; [discriminate|].
  destruct l as [|c l].
  - simpl. now intros [= ->].
  - intros H. change (b :: removelast (c :: l) ++ [a] = b :: c :: l) || idtac.
    change (Meshing.last_item (c :: l) = Some a) in H.
    rewrite (IH H) at 1. reflexivity.
Qed.

Lemma last_item_none {A : Type} (l : list A) :
  Meshing.last_item l = None -> l = [].
Proof.
  induction l as [|b l IH]; [reflexivity|].
  destruct l as [|c l]; [discriminate|].
  intros H. change (Meshing.last_item (c :: l) = None) in H.
  apply IH in H. discriminate.
Qed.

Lemma select_app {A : Type} (l extra : list A) (index : list bool) :
  List.length index = List.length l ->
  Meshing.select (l ++ extra) index = Meshing.select l index.
Proof.
  revert index; induction l as [|q l IH]; intros [|k index] Hl;
    simpl in *; try discriminate.
  - now destruct extra.
  - destruct k; [f_equal|]; apply IH; lia.
Qed.

Lemma keep_flags_length (d : R) (p : Meshing.point) (l : list Meshing.point) :
  List.length (Meshing.keep_flags d p l) = List.length l.
Proof.
  revert p; induction l as [|q l IH]; intros p; simpl; [reflexivity|].
  destruct (Rlt_dec _ _); simpl; now rewrite IH.
Qed.

Lemma select_subsequence (d : R) (p : Meshing.point) (l : list Meshing.point) :
  Meshing.subsequence (Meshing.select l (Meshing.keep_flags d p l)) l.
Proof.
  revert p; induction l as [|q l IH]; intros p; simpl; [constructor|].
  destruct (Rlt_dec _ _); constructor; apply IH.
Qed.

Lemma select_spaced (d : R) (p : Meshing.point) (l : list Meshing.point) :
  Meshing.spaced d (p :: Meshing.select l (Meshing.keep_flags d p l)).
Proof.
  revert p; induction l as [|q l IH]; intros p; [exact I|].
  simpl Meshing.keep_flags. destruct (Rlt_dec _ _) as [Hlt|Hge].
  - apply IH.
  - change (Meshing.select (q :: l) (true :: Meshing.keep_flags d q l))
      with (q :: Meshing.select l (Meshing.keep_flags d q l)).
    split; [exact Hge | apply IH].
Qed.

Lemma spaced_tail (d : R) (p : Meshing.point) (l : list Meshing.point) :
  Meshing.spaced d (p :: l) -> Meshing.spaced d l.
Proof. destruct l; [intros; exact I | intros [_ H]; exact H]. Qed.

Lemma spaced_removelast (d : R) (l : list Meshing.point) :
  Meshing.spaced d l -> Meshing.spaced d (removelast l).
Proof.
  induction l as [|p l IH]; [intros; exact I|].
  destruct l as [|q l]; [intros; exact I|].
  intros [H1 H2]. specialize (IH H2).
  change (removelast (p :: q :: l)) with (p :: removelast (q :: l)).
  destruct l as [|r l]; [exact I|].
  change (removelast (q :: r :: l)) with (q :: removelast (r :: l)) in *.
  split; assumption.
Qed.

Lemma spaced_snoc (d : R) (l : list Meshing.point) (q a : Meshing.point) :
  Meshing.spaced d l -> Meshing.last_item l = Some q ->
  ~ Meshing.dist a q < d ->
  Meshing.spaced d (l ++ [a]).
Proof.
  induction l as [|p l IH]; [discriminate|].
  destruct l as [|r l].
  - intros _ [= ->] Hd. split; [exact Hd | exact I].
  - intros [H1 H2] Hl Hd.
    change (Meshing.last_item (r :: l) = Some q) in Hl.
    change ((p :: r :: l) ++ [a]) with (p :: (r :: l) ++ [a]).
    change ((r :: l) ++ [a]) with (r :: l ++ [a]) at 1.
    split; [exact H1|]. apply IH; assumption.
Qed.

Lemma subsequence_snoc {A : Type} (l l' : list A) (a : A) :
  Meshing.subsequence l l' -> Meshing.subsequence (l ++ [a]) (l' ++ [a]).
Proof.
  induction 1; simpl; repeat constructor; assumption.
Qed.

Lemma subsequence_removelast {A : Type} (l l' : list A) :
  Meshing.subsequence l l' -> Meshing.subsequence (removelast l) l'.
Proof.
  induction 1 as [|a l l' H IH|a l l' H IH].
  - constructor.
  - destruct l as [|b l].
    + simpl. constructor. exact IH.
    + change (removelast (a :: b :: l)) with (a :: removelast (b :: l)).
      constructor. exact IH.
  - constructor. exact IH.
Qed.

(** What the method computes, for a list with a last point. *)
Lemma constrain_distance_run (self : Meshing.MeshingTools)
    (body : list Meshing.point) (last_point : Meshing.point) :
  let kept :=
    Meshing.select body
      (Meshing.keep_flags (Meshing.Min_length self) last_point body) in
  Meshing.constrain_distance self (body ++ [last_point])
  = match Meshing.last_item kept with
    | Some q =>
        if Rlt_dec (Meshing.dist last_point q) (Meshing.Min_length self)
        then Meshing.Returns (removelast kept ++ [last_point])
        else Meshing.Returns (kept ++ [last_point])
    | None => Meshing.Returns (kept ++ [last_point])
    end.
Proof.
  intros kept. unfold Meshing.constrain_distance.
  rewrite last_item_app, removelast_last.
  rewrite select_app by apply keep_flags_length.
  reflexivity.
Qed.

(** X21.  The last point of the list is never removed: an empty list has no
    last point and the method fails on it; for any other list the method
    returns a list that ends with the last point of the input and is the
    input with some points left out, in the same order. *)
Theorem constrain_distance_keeps_last (self : Meshing.MeshingTools)
    (points_list : list Meshing.point) :
  (points_list = [] ->
   Meshing.constrain_distance self points_list = Meshing.IndexError) /\
  (points_list <> [] ->
   exists points_new,
     Meshing.constrain_distance self points_list
     = Meshing.Returns points_new /\
     Meshing.last_item points_new = Meshing.last_item points_list /\
     Meshing.subsequence points_new points_list).
Proof.
  split; [intros ->; reflexivity|].
  intros Hne.
  destruct (Meshing.last_item points_list) as [last_point|] eqn:El;
    [|apply last_item_none in El; contradiction].
  pose proof (last_item_split _ _ El) as Hs.
  remember (removelast points_list) as body eqn:Hb. clear Hb.
  rewrite Hs. clear Hs El Hne points_list.
  rewrite constrain_distance_run.
  pose proof (select_subsequence (Meshing.Min_length self) last_point body)
    as Hsub.
  set (kept := Meshing.select body _) in *.
  destruct (Meshing.last_item kept) as [q|];
    [destruct (Rlt_dec _ _)|];
    eexists; (split; [reflexivity|]); (split; [apply last_item_app|]);
    apply subsequence_snoc; auto using subsequence_removelast.
Qed.

(** X22.  The separation the method achieves: in the returned list every point
    up to the one before last is at [Min_length] or more from the point
    before it, and the first point is at [Min_length] or more from the
    last point of the input, as on a closed curve.  The last pair is not
    covered: when the last point kept is too close to the last point of
    the input, it is replaced by that point, and nothing is checked
    between the new last point and the point before it; for every
    positive [Min_length] there is an input for which the returned list
    ends with two points closer than [Min_length]. *)
Theorem constrain_distance_spacing (self : Meshing.MeshingTools) :
  (forall points_list points_new last_point,
     Meshing.constrain_distance self points_list
     = Meshing.Returns points_new ->
     Meshing.last_item points_list = Some last_point ->
     Meshing.spaced (Meshing.Min_length self) (removelast points_new) /\
     (forall first rest, points_new = first :: rest -> rest <> [] ->
        ~ Meshing.dist first last_point < Meshing.Min_length self)) /\
  (0 < Meshing.Min_length self ->
   exists points_list points_new,
     Meshing.constrain_distance self points_list
     = Meshing.Returns points_new /\
     ~ Meshing.spaced (Meshing.Min_length self) points_new).
Proof.
  split.
  - intros points_list points_new last_point Hr El.
    pose proof (last_item_split _ _ El) as Hs.
    remember (removelast points_list) as body eqn:Hb. clear Hb.
    rewrite Hs in Hr. clear Hs El points_list.
    rewrite constrain_distance_run in Hr.
    pose proof (select_spaced (Meshing.Min_length self) last_point body)
      as Hsp.
    set (kept := Meshing.select body _) in *.
    assert (Hk : Meshing.spaced (Meshing.Min_length self) kept)
      by (apply (spaced_tail _ last_point); exact Hsp).
    assert (Hfirst : forall first rest, kept = first :: rest ->
              ~ Meshing.dist first last_point < Meshing.Min_length self).
    { intros first rest E. rewrite E in Hsp. apply Hsp. }
    destruct (Meshing.last_item kept) as [q|] eqn:Eq;
      [destruct (Rlt_dec _ _)|]; injection Hr as <-;
      rewrite removelast_last; split;
      auto using spaced_removelast.
    + intros first rest E Hrest.
      destruct kept as [|k1 kept']; [discriminate|].
      destruct kept' as [|k2 kept''].
      * simpl in E. injection E as <- <-. contradiction.
      * change (removelast (k1 :: k2 :: kept''))
          with (k1 :: removelast (k2 :: kept'')) in E.
        injection E as <- _. eapply Hfirst; reflexivity.
    + intros first rest E Hrest.
      destruct kept as [|k1 kept']; [discriminate|].
      injection E as <- _. eapply Hfirst; reflexivity.
    + intros first rest E Hrest.
      apply last_item_none in Eq. rewrite Eq in E.
      injection E as _ <-. contradiction.
  - intros Hpos. set (m := Meshing.Min_length self) in *.
    assert (Hd : forall a b, Meshing.dist (a, 0, 0) (b, 0, 0) = Rabs (a - b)).
    { intros a b. unfold Meshing.dist.
      replace ((a - b) * (a - b) + (0 - 0) * (0 - 0) + (0 - 0) * (0 - 0))
        with ((a - b)²) by (unfold Rsqr; ring).
      apply sqrt_Rsqr_abs. }
    exists [(-5 * m, 0, 0); (0, 0, 0); (m, 0, 0); (m / 2, 0, 0)],
      [(-5 * m, 0, 0); (0, 0, 0); (m / 2, 0, 0)].
    split.
    + change [(-5 * m, 0, 0); (0, 0, 0); (m, 0, 0); (m / 2, 0, 0)]
        with ([(-5 * m, 0, 0); (0, 0, 0); (m, 0, 0)] ++ [(m / 2, 0, 0)]).
      rewrite constrain_distance_run. fold m.
      repeat (cbn [Meshing.keep_flags Meshing.select Meshing.last_item
                   removelast app];
              rewrite ?Hd;
              match goal with
              | |- context [Rlt_dec ?a ?b] =>
                  destruct (Rlt_dec a b) as [Hc|Hc];
                  try (exfalso; revert Hc; unfold Rabs;
                       destruct (Rcase_abs _); intros Hc; lra);
                  clear Hc
              end).
      reflexivity.
    + cbn [Meshing.spaced]. rewrite !Hd. intros (_ & H & _). apply H.
      unfold Rabs; destruct (Rcase_abs _); lra.
Qed.

(** ** The bookkeeping of the subdomains *)

(** X23.  The three lists of the object stay in step: after any number of
    calls of [create_subdomain] there is one list of boundaries and one
    refinement setting for each subdomain, no subdomain is empty, and
    the two counters are the numbers of shapes and of boundaries
    recorded so far.  A call that finds no new shape changes nothing. *)
Theorem create_subdomain_consistent (getEntities : Z -> list Meshing.shape)
    (CellSizeMin CellSizeMax DistMin DistMax : R) (NumPointsPerCurve : Z)
    (self : Meshing.MeshingTools) :
  (forall dimension, Meshing.consistent (Meshing.__init__ dimension)) /\
  (Meshing.consistent self ->
   Meshing.consistent
     (Meshing.create_subdomain getEntities CellSizeMin CellSizeMax DistMin
        DistMax NumPointsPerCurve self)) /\
  ((List.length (getEntities (Meshing.dim self))
    <= Meshing.source_number self)%nat ->
   Meshing.create_subdomain getEntities CellSizeMin CellSizeMax DistMin
     DistMax NumPointsPerCurve self = self).
Proof.
  split; [|split].
  - intros dimension. unfold Meshing.consistent; simpl.
    repeat split; constructor.
  - intros (H1 & H2 & H3 & H4 & H5).
    unfold Meshing.create_subdomain.
    destruct (skipn _ (getEntities (Meshing.dim self))) as [|s new] eqn:Es.
    + unfold Meshing.consistent; simpl.
      rewrite Nat.add_0_r. repeat split; assumption.
    + unfold Meshing.consistent; simpl.
      rewrite !length_app, !concat_app, !length_app; simpl.
      rewrite !app_nil_r.
      repeat split; try lia.
      apply Forall_app; split; [exact H5|].
      constructor; [discriminate | constructor].
  - intros Hle. unfold Meshing.create_subdomain.
    rewrite skipn_all2 by exact Hle. simpl.
    rewrite Nat.add_0_r. destruct self; reflexivity.
Qed.

(** X24.  When the shapes recorded so far are the first [source_number]
    shapes of the model, as they are while shapes are only added to the
    model, a call puts every shape that is not yet in a subdomain into
    the new one: afterwards the subdomains, one after the other, are the
    list of the shapes of the model, so each shape is in exactly one
    subdomain. *)
Theorem create_subdomain_covers (getEntities : Z -> list Meshing.shape)
    (CellSizeMin CellSizeMax DistMin DistMax : R) (NumPointsPerCurve : Z)
    (self : Meshing.MeshingTools) :
  List.concat (Meshing.source self)
  = firstn (Meshing.source_number self) (getEntities (Meshing.dim self)) ->
  let self' :=
    Meshing.create_subdomain getEntities CellSizeMin CellSizeMax DistMin
      DistMax NumPointsPerCurve self in
  List.concat (Meshing.source self') = getEntities (Meshing.dim self) /\
  (NoDup (getEntities (Meshing.dim self)) ->
   NoDup (List.concat (Meshing.source self'))).
Proof.
  intros Hrec self'.
  assert (Hc : List.concat (Meshing.source self')
               = getEntities (Meshing.dim self)).
  { unfold self', Meshing.create_subdomain.
    destruct (skipn _ (getEntities (Meshing.dim self))) as [|s new] eqn:Es;
      simpl.
    - rewrite Hrec.
      rewrite <- (firstn_skipn (Meshing.source_number self)
                    (getEntities (Meshing.dim self))) at 2.
      now rewrite Es, app_nil_r.
    - rewrite concat_app; simpl. rewrite app_nil_r, Hrec, <- Es.
      apply firstn_skipn. }
  split; [exact Hc | now rewrite Hc].
Qed.

(** ** Sorting the fragments of two groups of shapes *)

Lemma shape_eqb_eq (a b : Meshing.shape) :
  Meshing.shape_eqb a b = true <-> a = b.
Proof.
  destruct a as [a1 a2], b as [b1 b2]. unfold Meshing.shape_eqb; simpl.
  rewrite andb_true_iff, !Z.eqb_eq. split; [intros [-> ->] | intros [= -> ->]];
    auto.
Qed.

Lemma shape_eqb_refl (a : Meshing.shape) : Meshing.shape_eqb a a = true.
Proof. now apply shape_eqb_eq. Qed.

Lemma shape_eqb_neq (a b : Meshing.shape) :
  Meshing.shape_eqb a b = false <-> a <> b.
Proof.
  rewrite <- shape_eqb_eq. destruct (Meshing.shape_eqb a b); split;
    congruence.
Qed.

Lemma occurrences_cons (s a : Meshing.shape) (l : list Meshing.shape) :
  Meshing.occurrences s (a :: l)
  = ((if Meshing.shape_eqb s a then 1 else 0) + Meshing.occurrences s l)%nat.
Proof.
  unfold Meshing.occurrences; simpl. now destruct (Meshing.shape_eqb s a).
Qed.

Lemma occurrences_app (s : Meshing.shape) (l l' : list Meshing.shape) :
  Meshing.occurrences s (l ++ l')
  = (Meshing.occurrences s l + Meshing.occurrences s l')%nat.
Proof. unfold Meshing.occurrences. now rewrite filter_app, length_app. Qed.

Lemma occurrences_zero (s : Meshing.shape) (l : list Meshing.shape) :
  Meshing.occurrences s l = 0%nat <-> ~ In s l.
Proof.
  induction l as [|a l IH]; [simpl; tauto|].
  rewrite occurrences_cons. simpl.
  destruct (Meshing.shape_eqb s a) eqn:E.
  - apply shape_eqb_eq in E. subst. split; [lia | intros H; exfalso; auto].
  - apply shape_eqb_neq in E. simpl. rewrite IH. split.
    + intros H [Ha|Hi]; [congruence | auto].
    + intros H Hi; auto.
Qed.

(** A shape that occurs once splits the list around it. *)
Lemma occurrences_one (s : Meshing.shape) (l : list Meshing.shape) :
  Meshing.occurrences s l = 1%nat ->
  exists c1 c2, l = c1 ++ s :: c2 /\ ~ In s c1 /\ ~ In s c2.
Proof.
  induction l as [|a l IH]; [discriminate|].
  rewrite occurrences_cons.
  destruct (Meshing.shape_eqb s a) eqn:E.
  - apply shape_eqb_eq in E. subst a. intros H.
    exists [], l. repeat split; auto. apply occurrences_zero. lia.
  - intros H. destruct (IH H) as (c1 & c2 & -> & H1 & H2).
    apply shape_eqb_neq in E.
    exists (a :: c1), c2. repeat split; auto.
    intros [Ha|Hi]; [congruence | auto].
Qed.

Lemma pop_app {A : Type} (pre : list A) (x : A) (rest : list A) :
  Meshing.pop (List.length pre) (pre ++ x :: rest) = Some (x, pre ++ rest).
Proof.
  induction pre as [|a pre IH]; [reflexivity|].
  simpl. now rewrite IH.
Qed.

Lemma pop_none {A : Type} (k : nat) (l : list A) :
  (List.length l <= k)%nat -> Meshing.pop k l = None.
Proof.
  revert k; induction l as [|a l IH]; intros k Hk;
    [destruct k; reflexivity|].
  destruct k as [|k]; simpl in *; [lia|].
  now rewrite IH by lia.
Qed.

Lemma pop_some {A : Type} (k : nat) (l : list A) (x : A) (rest : list A) :
  Meshing.pop k l = Some (x, rest) ->
  (k < List.length l)%nat /\ S (List.length rest) = List.length l /\
  nth_error l k = Some x /\
  (forall a l', l = a :: l' -> (1 <= k)%nat -> exists r, rest = a :: r).
Proof.
  revert k x rest; induction l as [|a l IH]; intros k x rest Hp;
    [destruct k; discriminate|].
  destruct k as [|k]; simpl in Hp.
  - injection Hp as <- <-. simpl. repeat split; try lia.
  - destruct (Meshing.pop k l) as [[y r]|] eqn:E; [|discriminate].
    injection Hp as <- <-. destruct (IH _ _ _ E) as (H1 & H2 & H3 & _).
    simpl. repeat split; try lia; auto.
    intros a' l' [= <- <-] _. now exists r.
Qed.

(** The inner loop over a part of the slice without a copy of the head:
    nothing happens. *)
Lemma compare_head_none (head : Meshing.shape) :
  forall copy i rest to_remove in_overlap,
    ~ In head copy ->
    Meshing.compare_head copy i (head :: rest) to_remove in_overlap
    = Meshing.Returns (head :: rest, to_remove, in_overlap).
Proof.
  induction copy as [|s copy IH]; intros i rest rm ov Hn; [reflexivity|].
  simpl. destruct (Meshing.shape_eqb head s) eqn:E.
  - apply shape_eqb_eq in E. subst s. exfalso. apply Hn. now left.
  - apply IH. intros Hi. apply Hn. now right.
Qed.

(** The inner loop up to and including the first copy of the head in the
    slice, while the index [i] still points at the element it names: the
    copy is popped. *)
Lemma compare_head_first (head : Meshing.shape) :
  forall c1 i pre copy to_remove in_overlap,
    i = List.length pre ->
    ~ In head c1 ->
    Meshing.compare_head (c1 ++ head :: copy) i
      (head :: pre ++ c1 ++ head :: copy) to_remove in_overlap
    = Meshing.compare_head copy (S (i + List.length c1))
        (head :: pre ++ c1 ++ copy) (to_remove ++ [head]) true.
Proof.
  induction c1 as [|s c1 IH]; intros i pre copy rm ov Hi Hn.
  - cbn [app Meshing.compare_head]. rewrite shape_eqb_refl.
    cbn [Meshing.pop]. rewrite Hi, pop_app. simpl.
    now rewrite Nat.add_0_r.
  - cbn [app Meshing.compare_head].
    destruct (Meshing.shape_eqb head s) eqn:E.
    + apply shape_eqb_eq in E. subst s. exfalso. apply Hn. now left.
    + replace (pre ++ s :: c1 ++ head :: copy)
        with ((pre ++ [s]) ++ c1 ++ head :: copy)
        by (now rewrite <- app_assoc).
      rewrite (IH (S i) (pre ++ [s]) copy rm ov).
      * replace (S (S i + List.length c1))
          with (S (i + List.length (s :: c1))) by (simpl; lia).
        now rewrite <- app_assoc.
      * rewrite length_app. simpl. lia.
      * intros Hin. apply Hn. now right.
Qed.

(** After a first pop the index runs one ahead.  Up to and including the
    next copy of the head, the loop then pops the element that follows
    this copy. *)
Lemma compare_head_second (head x : Meshing.shape) :
  forall c2 i pre copy to_remove in_overlap,
    i = S (List.length pre) ->
    ~ In head c2 ->
    Meshing.compare_head (c2 ++ head :: x :: copy) i
      (head :: pre ++ c2 ++ head :: x :: copy) to_remove in_overlap
    = Meshing.compare_head (x :: copy) (S (i + List.length c2))
        (head :: pre ++ c2 ++ head :: copy) (to_remove ++ [x]) true.
Proof.
  induction c2 as [|s c2 IH]; intros i pre copy rm ov Hi Hn.
  - cbn [app Meshing.compare_head]. rewrite shape_eqb_refl.
    cbn [Meshing.pop]. rewrite Hi.
    replace (pre ++ head :: x :: copy) with ((pre ++ [head]) ++ x :: copy)
      by (now rewrite <- app_assoc).
    replace (S (List.length pre)) with (List.length (pre ++ [head]))
      by (rewrite length_app; simpl; lia).
    rewrite pop_app, <- app_assoc.
    cbn [app List.length]. rewrite length_app. cbn [List.length].
    now rewrite Nat.add_0_r, Nat.add_1_r.
  - cbn [app Meshing.compare_head].
    destruct (Meshing.shape_eqb head s) eqn:E.
    + apply shape_eqb_eq in E. subst s. exfalso. apply Hn. now left.
    + replace (pre ++ s :: c2 ++ head :: x :: copy)
        with ((pre ++ [s]) ++ c2 ++ head :: x :: copy)
        by (now rewrite <- app_assoc).
      rewrite (IH (S i) (pre ++ [s]) copy rm ov).
      * replace (S (S i + List.length c2))
          with (S (i + List.length (s :: c2))) by (simpl; lia).
        now rewrite <- app_assoc.
      * rewrite length_app. simpl. lia.
      * intros Hin. apply Hn. now right.
Qed.

(** Once the list is shorter than the slice it is compared with, a copy
    of the head at the end of the slice is popped from beyond the end of
    the list. *)
Lemma compare_head_beyond (head : Meshing.shape) :
  forall c i rest to_remove in_overlap,
    (S (List.length rest) <= i + S (List.length c))%nat ->
    Meshing.compare_head (c ++ [head]) i (head :: rest) to_remove in_overlap
    = Meshing.IndexError.
Proof.
  induction c as [|s c IH]; intros i rest rm ov Hl.
  - simpl in *. rewrite shape_eqb_refl.
    now rewrite pop_none by lia.
  - cbn [app Meshing.compare_head].
    destruct (Meshing.shape_eqb head s).
    + change (Meshing.pop (S i) (head :: rest))
        with (match Meshing.pop i rest with
              | Some (y, r) => Some (y, head :: r)
              | None => None
              end).
      destruct (Meshing.pop i rest) as [[y r]|] eqn:Ep; [|reflexivity].
      apply pop_some in Ep as (_ & Hr & _).
      apply IH. simpl in Hl. lia.
    + apply IH. simpl in Hl. lia.
Qed.

(** What the inner loop returns: the head is still the head, the list is
    not longer, and [to_remove] has only grown. *)
Lemma compare_head_returns (head : Meshing.shape) :
  forall copy i rest to_remove in_overlap sf rm ov,
    Meshing.compare_head copy i (head :: rest) to_remove in_overlap
    = Meshing.Returns (sf, rm, ov) ->
    exists rest' more,
      sf = head :: rest' /\
      (List.length rest' <= List.length rest)%nat /\
      rm = to_remove ++ more.
Proof.
  induction copy as [|s copy IH]; intros i rest rm0 ov0 sf rm ov Hr.
  - simpl in Hr. injection Hr as <- <- <-.
    exists rest, []. now rewrite app_nil_r.
  - cbn [Meshing.compare_head] in Hr.
    destruct (Meshing.shape_eqb head s).
    + change (Meshing.pop (S i) (head :: rest))
        with (match Meshing.pop i rest with
              | Some (y, r) => Some (y, head :: r)
              | None => None
              end) in Hr.
      destruct (Meshing.pop i rest) as [[y r]|] eqn:Ep; [|discriminate].
      apply pop_some in Ep as (_ & Hl & _).
      apply IH in Hr as (rest' & more & -> & Hlen & ->).
      exists rest', (y :: more). rewrite <- app_assoc. simpl.
      repeat split; auto. lia.
    + apply IH in Hr. exact Hr.
Qed.

Lemma compare_head_ends :
  forall copy i sf to_remove in_overlap,
    Meshing.compare_head copy i sf to_remove in_overlap
    <> Meshing.Unfinished.
Proof.
  induction copy as [|s copy IH]; intros i sf rm ov; [discriminate|].
  simpl. destruct sf as [|head rest]; [discriminate|].
  destruct (Meshing.shape_eqb head s); [|apply IH].
  destruct (match Meshing.pop i rest with
            | Some (x, rest0) => Some (x, head :: rest0)
            | None => None
            end) as [[x r]|]; [apply IH | discriminate].
Qed.

(** Every round of the [while] loop shortens the list: its length is
    fuel enough, and [to_remove] only grows. *)
Lemma sort_fragments_ends :
  forall fuel shape_fragments to_remove new_shapes,
    (List.length shape_fragments <= fuel)%nat ->
    Meshing.sort_fragments fuel shape_fragments to_remove new_shapes
    <> Meshing.Unfinished.
Proof.
  induction fuel as [|fuel IH]; intros sf rm new Hl.
  - destruct sf; [discriminate | simpl in Hl; lia].
  - destruct sf as [|head tail]; [discriminate|].
    cbn [Meshing.sort_fragments].
    destruct (Meshing.compare_head tail 0 (head :: tail) rm false)
      as [[[sf' rm'] ov]| |] eqn:Ec; try discriminate.
    + destruct (compare_head_returns _ _ _ _ _ _ _ _ _ Ec)
        as (rest' & more & -> & Hlen & ->).
      cbn [Meshing.pop]. simpl in Hl.
      destruct ov; apply IH; lia.
    + exfalso. eapply compare_head_ends; eauto.
Qed.

Lemma sort_fragments_grows :
  forall fuel shape_fragments to_remove new_shapes new rm,
    Meshing.sort_fragments fuel shape_fragments to_remove new_shapes
    = Meshing.Returns (new, rm) ->
    exists more, rm = to_remove ++ more.
Proof.
  induction fuel as [|fuel IH]; intros sf rm0 new0 new rm Hr.
  - destruct sf; [|discriminate]. simpl in Hr. injection Hr as <- <-.
    exists []. now rewrite app_nil_r.
  - destruct sf as [|head tail].
    + simpl in Hr. injection Hr as <- <-. exists []. now rewrite app_nil_r.
    + cbn [Meshing.sort_fragments] in Hr.
      destruct (Meshing.compare_head tail 0 (head :: tail) rm0 false)
        as [[[sf' rm'] ov]| |] eqn:Ec; try discriminate.
      destruct (compare_head_returns _ _ _ _ _ _ _ _ _ Ec)
        as (rest' & more & -> & Hlen & ->).
      cbn [Meshing.pop] in Hr.
      destruct ov; apply IH in Hr as (more' & ->);
        exists (more ++ more'); now rewrite app_assoc.
Qed.

Lemma occurrences_insert (s h : Meshing.shape) (c1 c2 : list Meshing.shape) :
  Meshing.occurrences s (c1 ++ h :: c2)
  = ((if Meshing.shape_eqb s h then 1 else 0)
     + Meshing.occurrences s (c1 ++ c2))%nat.
Proof.
  rewrite !occurrences_app, occurrences_cons. lia.
Qed.

Lemma filter_without (f : Meshing.shape -> bool) (h : Meshing.shape)
    (c1 c2 : list Meshing.shape) :
  f h = false -> filter f (c1 ++ h :: c2) = filter f (c1 ++ c2).
Proof. intros Hf. rewrite !filter_app. simpl. now rewrite Hf. Qed.

(** The [while] loop on a list in which no shape occurs more than
    twice. *)
Lemma sort_fragments_pairs :
  forall fuel l to_remove new_shapes,
    (List.length l <= fuel)%nat ->
    (forall s, (Meshing.occurrences s l <= 2)%nat) ->
    exists more,
      Meshing.sort_fragments fuel l to_remove new_shapes
      = Meshing.Returns
          (new_shapes
           ++ filter (fun s => (Meshing.occurrences s l =? 1)%nat) l,
           to_remove ++ more) /\
      NoDup more /\
      forall s, In s more <-> Meshing.occurrences s l = 2%nat.
Proof.
  induction fuel as [|fuel IH]; intros l rm new Hl Hocc.
  - destruct l; [|simpl in Hl; lia].
    exists []. simpl. rewrite !app_nil_r. split; [reflexivity|].
    split; [constructor|]. intros s; split; [contradiction | discriminate].
  - destruct l as [|h t].
    + exists []. simpl. rewrite !app_nil_r. split; [reflexivity|].
      split; [constructor|]. intros s; split; [contradiction | discriminate].
    + pose proof (Hocc h) as Hh. rewrite occurrences_cons, shape_eqb_refl in Hh.
      assert (Hsub : forall s, (Meshing.occurrences s t
                                <= Meshing.occurrences s (h :: t))%nat)
        by (intros s; rewrite occurrences_cons; lia).
      destruct (Meshing.occurrences h t) as [|[|k]] eqn:Eh; [| |lia].
      * (* the head occurs once *)
        pose proof (proj1 (occurrences_zero h t) Eh) as Hn.
        destruct (IH t rm (new ++ [h])) as (more & Hr & Hnd & Hin).
        { simpl in Hl. lia. }
        { intros s. specialize (Hocc s). specialize (Hsub s). lia. }
        assert (Hsame : forall s, In s t ->
                  Meshing.occurrences s (h :: t) = Meshing.occurrences s t).
        { intros s Hs. rewrite occurrences_cons.
          destruct (Meshing.shape_eqb s h) eqn:E; [|reflexivity].
          apply shape_eqb_eq in E. subst s. contradiction. }
        exists more. split; [|split; [exact Hnd|]].
        -- cbn [Meshing.sort_fragments].
           rewrite (compare_head_none h t 0 t rm false Hn).
           cbn [Meshing.pop]. rewrite Hr. rewrite <- app_assoc.
           cbn [filter]. rewrite occurrences_cons, shape_eqb_refl, Eh.
           cbn [Nat.eqb Nat.add app].
           rewrite (filter_ext_in
                      (fun s => (Meshing.occurrences s (h :: t) =? 1)%nat)
                      (fun s => (Meshing.occurrences s t =? 1)%nat) t);
             [reflexivity|].
           intros s Hs. now rewrite Hsame.
        -- intros s. rewrite Hin. rewrite occurrences_cons.
           destruct (Meshing.shape_eqb s h) eqn:E; [|reflexivity].
           apply shape_eqb_eq in E. subst s. rewrite Eh. lia.
      * (* the head occurs twice *)
        destruct (occurrences_one h t Eh) as (c1 & c2 & -> & Hn1 & Hn2).
        assert (Hn : ~ In h (c1 ++ c2))
          by (rewrite in_app_iff; tauto).
        destruct (IH (c1 ++ c2) (rm ++ [h]) new) as (more & Hr & Hnd & Hin).
        { simpl in Hl. rewrite length_app in *. simpl in Hl. lia. }
        { intros s. specialize (Hocc s).
          rewrite occurrences_cons, occurrences_insert in Hocc. lia. }
        assert (Hcount : forall s,
                  Meshing.occurrences s (h :: c1 ++ h :: c2)
                  = ((if Meshing.shape_eqb s h then 2 else 0)
                     + Meshing.occurrences s (c1 ++ c2))%nat).
        { intros s. rewrite occurrences_cons, occurrences_insert.
          destruct (Meshing.shape_eqb s h); lia. }
        assert (Hzero : Meshing.occurrences h (c1 ++ c2) = 0%nat)
          by (now apply occurrences_zero).
        exists (h :: more). split; [|split].
        -- cbn [Meshing.sort_fragments].
           pose proof (compare_head_first h c1 0 [] c2 rm false eq_refl Hn1)
             as Hf.
           cbn [app] in Hf. rewrite Hf.
           rewrite (compare_head_none h c2 _ (c1 ++ c2) (rm ++ [h]) true Hn2).
           cbn [Meshing.pop]. rewrite Hr. rewrite <- app_assoc.
           cbn [app filter]. rewrite Hcount, shape_eqb_refl, Hzero.
           cbn [Nat.eqb Nat.add].
           rewrite filter_without
             by (rewrite Hcount, shape_eqb_refl, Hzero; reflexivity).
           rewrite (filter_ext_in
                      (fun s => (Meshing.occurrences s (h :: c1 ++ h :: c2)
                                 =? 1)%nat)
                      (fun s => (Meshing.occurrences s (c1 ++ c2) =? 1)%nat)
                      (c1 ++ c2));
             [reflexivity|].
           intros s Hs. rewrite Hcount.
           destruct (Meshing.shape_eqb s h) eqn:E; [|reflexivity].
           apply shape_eqb_eq in E. subst s. contradiction.
        -- constructor; [|exact Hnd].
           rewrite Hin, Hzero. discriminate.
        -- intros s. rewrite Hcount. simpl. rewrite Hin.
           destruct (Meshing.shape_eqb s h) eqn:E.
           ++ apply shape_eqb_eq in E. subst s. rewrite Hzero.
              split; [reflexivity | now left].
           ++ apply shape_eqb_neq in E. simpl. split.
              ** intros [Heq|H]; [congruence | exact H].
              ** intros H; now right.
Qed.

(** X25.  When no fragment occurs more than twice, that is, when no three of
    the shapes overlap in one place, the method returns the fragments
    that occur once, in the order of the fragment list, and hands one
    copy of each fragment that occurs twice to [remove].  When one of the
    two groups is empty, the result is empty and all the shapes of the
    other group are handed to [remove]. *)
Theorem non_intersect_shapes_pairs
    (fragment_map : list Meshing.shape -> list Meshing.shape ->
                    list (list Meshing.shape))
    (shapes_1 shapes_2 : list Meshing.shape) :
  let fragments := List.concat (fragment_map shapes_1 shapes_2) in
  (shapes_1 <> [] -> shapes_2 <> [] ->
   (forall s, (Meshing.occurrences s fragments <= 2)%nat) ->
   exists removed,
     Meshing.non_intersect_shapes fragment_map shapes_1 shapes_2
     = Meshing.Returns
         (filter (fun s => (Meshing.occurrences s fragments =? 1)%nat)
            fragments, removed) /\
     NoDup removed /\
     forall s, In s removed <-> Meshing.occurrences s fragments = 2%nat) /\
  (shapes_1 = [] \/ shapes_2 = [] ->
   Meshing.non_intersect_shapes fragment_map shapes_1 shapes_2
   = Meshing.Returns ([], shapes_1 ++ shapes_2)).
Proof.
  intros fragments. split.
  - intros H1 H2 Hocc. unfold Meshing.non_intersect_shapes.
    destruct shapes_1 as [|a1 l1]; [contradiction|].
    destruct shapes_2 as [|a2 l2]; [contradiction|].
    fold fragments.
    destruct (sort_fragments_pairs (List.length fragments) fragments [] []
                (le_n _) Hocc) as (more & Hr & Hnd & Hin).
    exists more. simpl in Hr. auto.
  - intros [-> | ->]; unfold Meshing.non_intersect_shapes;
      [reflexivity | now destruct shapes_1].
Qed.

(** X26.  When three of the shapes overlap in one place a fragment occurs three
    times, and the method can go wrong: the second copy is looked up at
    an index that the first pop has made stale.  If the first fragment of
    the list occurs again later in the list and once more as the last
    fragment of the list, the method ends with an [IndexError]. *)
Theorem non_intersect_shapes_index_error
    (fragment_map : list Meshing.shape -> list Meshing.shape ->
                    list (list Meshing.shape))
    (shapes_1 shapes_2 : list Meshing.shape)
    (h : Meshing.shape) (c1 c2 : list Meshing.shape) :
  shapes_1 <> [] -> shapes_2 <> [] ->
  List.concat (fragment_map shapes_1 shapes_2) = h :: c1 ++ h :: c2 ++ [h] ->
  ~ In h c1 ->
  Meshing.non_intersect_shapes fragment_map shapes_1 shapes_2
  = Meshing.IndexError.
Proof.
  intros H1 H2 Hf Hn. unfold Meshing.non_intersect_shapes.
  destruct shapes_1 as [|a1 l1]; [contradiction|].
  destruct shapes_2 as [|a2 l2]; [contradiction|].
  rewrite Hf. cbn [List.length Meshing.sort_fragments].
  pose proof (compare_head_first h c1 0 [] (c2 ++ [h]) [] false eq_refl Hn)
    as Hc.
  cbn [app] in Hc. rewrite Hc.
  rewrite compare_head_beyond; [reflexivity|].
  rewrite !length_app. simpl. lia.
Qed.

(** X27.  If the first fragment of the list has its second and its third
    occurrence later in the list, and another fragment directly follows
    the third occurrence, that fragment is popped in place of the third
    occurrence: whenever the method returns, the shapes handed to
    [remove] start with the first fragment and the fragment that followed
    its third occurrence, whether that one lies in an overlap or not. *)
Theorem non_intersect_shapes_wrong_removal
    (fragment_map : list Meshing.shape -> list Meshing.shape ->
                    list (list Meshing.shape))
    (shapes_1 shapes_2 : list Meshing.shape)
    (h x : Meshing.shape) (c1 c2 c3 : list Meshing.shape) :
  shapes_1 <> [] -> shapes_2 <> [] ->
  List.concat (fragment_map shapes_1 shapes_2)
  = h :: c1 ++ h :: c2 ++ h :: x :: c3 ->
  ~ In h c1 -> ~ In h c2 ->
  Meshing.non_intersect_shapes fragment_map shapes_1 shapes_2
  = Meshing.IndexError \/
  exists new_shapes removed,
    Meshing.non_intersect_shapes fragment_map shapes_1 shapes_2
    = Meshing.Returns (new_shapes, h :: x :: removed).
Proof.
  intros H1 H2 Hf Hn1 Hn2. unfold Meshing.non_intersect_shapes.
  destruct shapes_1 as [|a1 l1]; [contradiction|].
  destruct shapes_2 as [|a2 l2]; [contradiction|].
  rewrite Hf.
  set (fuel := List.length (c1 ++ h :: c2 ++ h :: x :: c3)).
  change (List.length (h :: c1 ++ h :: c2 ++ h :: x :: c3)) with (S fuel).
  cbn [Meshing.sort_fragments].
  pose proof (compare_head_first h c1 0 [] (c2 ++ h :: x :: c3) [] false
                eq_refl Hn1) as Hc.
  cbn [app] in Hc. rewrite Hc.
  rewrite (compare_head_second h x c2 _ c1 c3 [h] true
             (f_equal S (Nat.add_0_l _)) Hn2).
  destruct (Meshing.compare_head (x :: c3) _ _ _ _)
    as [[[sf rm] ov]| |] eqn:Ec.
  - destruct (compare_head_returns _ _ _ _ _ _ _ _ _ Ec)
      as (rest' & more & -> & Hlen & ->).
    cbn [Meshing.pop].
    assert (Hfuel : (List.length rest' <= fuel)%nat).
    { unfold fuel. rewrite !length_app in *. simpl in *.
      rewrite !length_app in *. simpl in *. lia. }
    assert (Hend : forall new,
              Meshing.sort_fragments fuel rest' (([h] ++ [x]) ++ more) new
              = Meshing.IndexError \/
              exists new_shapes removed,
                Meshing.sort_fragments fuel rest' (([h] ++ [x]) ++ more) new
                = Meshing.Returns (new_shapes, h :: x :: removed)).
    { intros new.
      destruct (Meshing.sort_fragments fuel rest' _ new)
        as [[new' rm']| |] eqn:Es.
      - right. apply sort_fragments_grows in Es as (more' & ->).
        exists new', (more ++ more'). now rewrite <- !app_assoc.
      - now left.
      - exfalso. eapply sort_fragments_ends; eauto. }
    destruct ov; apply Hend.
  - now left.
  - exfalso. eapply compare_head_ends; eauto.
Qed.

Lemma constrain_distance_keeps_last_witness :
  Meshing.constrain_distance (Meshing.__init__ 2) [] = Meshing.IndexError /\
  exists points_new,
    Meshing.constrain_distance (Meshing.__init__ 2) [(0, 0, 0); (1, 0, 0)]
    = Meshing.Returns points_new /\
    Meshing.last_item points_new
    = Meshing.last_item [(0, 0, 0); (1, 0, 0)] /\
    Meshing.subsequence points_new [(0, 0, 0); (1, 0, 0)].
Proof.
  split.
  - apply (proj1 (constrain_distance_keeps_last (Meshing.__init__ 2) [])).
    reflexivity.
  - apply (proj2 (constrain_distance_keeps_last (Meshing.__init__ 2)
                    [(0, 0, 0); (1, 0, 0)])).
    discriminate.
Defined.

Lemma constrain_distance_spacing_witness :
  Meshing.spaced (Meshing.Min_length (Meshing.__init__ 2))
    (removelast [(1, 0, 0)]) /\
  exists points_list points_new,
    Meshing.constrain_distance (Meshing.__init__ 2) points_list
    = Meshing.Returns points_new /\
    ~ Meshing.spaced (Meshing.Min_length (Meshing.__init__ 2)) points_new.
Proof.
  split.
  - apply (proj1 (constrain_distance_spacing (Meshing.__init__ 2))
             [(1, 0, 0)] [(1, 0, 0)] (1, 0, 0) eq_refl eq_refl).
  - apply (proj2 (constrain_distance_spacing (Meshing.__init__ 2))).
    simpl. lra.
Defined.

Lemma create_subdomain_consistent_witness :
  Meshing.consistent
    (Meshing.create_subdomain
       (fun d => if (d =? 2)%Z then [(2, 1)%Z] else [(1, 1)%Z; (1, 2)%Z])
       (1 / 10) (1 / 10) 0 1 1000 (Meshing.__init__ 2)).
Proof.
  apply (create_subdomain_consistent
           (fun d => if (d =? 2)%Z then [(2, 1)%Z] else [(1, 1)%Z; (1, 2)%Z])
           (1 / 10) (1 / 10) 0 1 1000 (Meshing.__init__ 2)).
  unfold Meshing.consistent; simpl. repeat split; constructor.
Defined.

Lemma create_subdomain_covers_witness :
  List.concat
    (Meshing.source
       (Meshing.create_subdomain
          (fun d => if (d =? 2)%Z then [(2, 1)%Z] else [(1, 1)%Z; (1, 2)%Z])
          (1 / 10) (1 / 10) 0 1 1000 (Meshing.__init__ 2)))
  = [(2, 1)%Z].
Proof.
  apply (create_subdomain_covers
           (fun d => if (d =? 2)%Z then [(2, 1)%Z] else [(1, 1)%Z; (1, 2)%Z])
           (1 / 10) (1 / 10) 0 1 1000 (Meshing.__init__ 2)).
  reflexivity.
Defined.

Lemma non_intersect_shapes_pairs_witness :
  exists removed,
    Meshing.non_intersect_shapes
      (fun _ _ => [[(2, 1); (2, 3)]; [(2, 3); (2, 2)]]%Z)
      [(2, 1)%Z] [(2, 2)%Z]
    = Meshing.Returns ([(2, 1); (2, 2)]%Z, removed).
Proof.
  destruct (proj1 (non_intersect_shapes_pairs
                     (fun _ _ => [[(2, 1); (2, 3)]; [(2, 3); (2, 2)]]%Z)
                     [(2, 1)%Z] [(2, 2)%Z]))
    as (removed & Hr & _).
  - discriminate.
  - discriminate.
  - intros s. unfold Meshing.occurrences. simpl.
    destruct (Meshing.shape_eqb s (2, 1)%Z) eqn:E1;
      destruct (Meshing.shape_eqb s (2, 3)%Z) eqn:E2;
      destruct (Meshing.shape_eqb s (2, 2)%Z) eqn:E3;
      simpl; try lia; exfalso;
      repeat match goal with
             | H : Meshing.shape_eqb _ _ = true |- _ =>
                 apply shape_eqb_eq in H
             end; congruence.
  - exists removed. rewrite Hr. reflexivity.
Defined.

Lemma non_intersect_shapes_index_error_witness :
  Meshing.non_intersect_shapes
    (fun _ _ => [[(2, 1)]; [(2, 1)]; [(2, 1)]]%Z)
    [(2, 5)%Z] [(2, 6)%Z; (2, 7)%Z]
  = Meshing.IndexError.
Proof.
  apply (non_intersect_shapes_index_error
           (fun _ _ => [[(2, 1)]; [(2, 1)]; [(2, 1)]]%Z)
           [(2, 5)%Z] [(2, 6)%Z; (2, 7)%Z] (2, 1)%Z [] []).
  - discriminate.
  - discriminate.
  - reflexivity.
  - intros [].
Defined.

Lemma non_intersect_shapes_wrong_removal_witness :
  Meshing.non_intersect_shapes
    (fun _ _ => [[(2, 1)]; [(2, 1)]; [(2, 1); (2, 2)]]%Z)
    [(2, 5)%Z] [(2, 6)%Z; (2, 7)%Z]
  = Meshing.IndexError \/
  exists new_shapes removed,
    Meshing.non_intersect_shapes
      (fun _ _ => [[(2, 1)]; [(2, 1)]; [(2, 1); (2, 2)]]%Z)
      [(2, 5)%Z] [(2, 6)%Z; (2, 7)%Z]
    = Meshing.Returns (new_shapes, (2, 1)%Z :: (2, 2)%Z :: removed).
Proof.
  apply (non_intersect_shapes_wrong_removal
           (fun _ _ => [[(2, 1)]; [(2, 1)]; [(2, 1); (2, 2)]]%Z)
           [(2, 5)%Z] [(2, 6)%Z; (2, 7)%Z] (2, 1)%Z (2, 2)%Z [] [] []).
  - discriminate.
  - discriminate.
  - reflexivity.
  - intros [].
  - intros [].
Defined.
